(** * Lightning payment-channel daemon: channel arithmetic, packet acceptors,
      shachain persistence, transaction flag and canonical permutation.

    A shallow embedding of the channel-state arithmetic ([fee_by_feerate] ...
    [cstate_fulfill_htlc]) and the packet acceptors of [daemon/packets.c],
    of the persistence functions ([linearize_shachain],
    [delinearize_shachain], the [db_*] writers) and of [permute_tx.c].
    Fixed-width C integers are carried as [Z] with every wrap-around written
    out; a failed [assert], [abort()] or [fatal()] is an explicit outcome. *)

From Stdlib Require Import ZArith Lia List Bool String Permutation Sorted.
From Stdlib Require Import DecimalString.
From stdpp Require Import base list sorting.
Import ListNotations.

Local Open Scope Z_scope.

(** ** Machine integers *)

Definition wrap32 (z : Z) : Z := z mod 2 ^ 32.
Definition wrap64 (z : Z) : Z := z mod 2 ^ 64.

(** Conversion of a 64-bit pattern to [int64_t] (two's complement). *)
Definition to_int64 (z : Z) : Z :=
  let w := wrap64 z in if 2 ^ 63 <=? w then w - 2 ^ 64 else w.

Definition u32 (z : Z) : Prop := 0 <= z < 2 ^ 32.
Definition u64 (z : Z) : Prop := 0 <= z < 2 ^ 64.

(** A call either returns, or the process dies on a failed [assert] or an
    [abort()]. *)
Inductive outcome (A : Type) : Type :=
| Done (a : A)
| Aborted.
Arguments Done {A} a.
Arguments Aborted {A}.

(** ** HTLCs *)

Inductive htlc_side := LOCAL | REMOTE.

Inductive channel_side := OURS | THEIRS.

(** [!side] on [enum channel_side]. *)
Definition other_side (s : channel_side) : channel_side :=
  match s with OURS => THEIRS | THEIRS => OURS end.

Definition channel_side_eqb (s t : channel_side) : bool :=
  match s, t with OURS, OURS | THEIRS, THEIRS => true | _, _ => false end.

(** Modelled from the spec: [enum htlc_state], [htlc_state_owner],
    [struct htlc], [htlc_owner] and [htlc_channel_side] live in [htlc.h],
    which is not among the sources.  The spec names the ladder an HTLC we
    offered climbs (SENT_ADD_HTLC ... SENT_ADD_ACK_REVOCATION), the ladder of
    one we received (RCVD_ADD_HTLC ... RCVD_ADD_ACK_REVOCATION) and the two
    removal ladders that mirror them; the counterparty removes what we
    offered, so the RCVD_REMOVE ladder belongs to LOCAL HTLCs. *)
Inductive htlc_state :=
| SENT_ADD_HTLC | SENT_ADD_COMMIT | RCVD_ADD_REVOCATION
| RCVD_ADD_ACK_COMMIT | SENT_ADD_ACK_REVOCATION
| RCVD_REMOVE_HTLC | RCVD_REMOVE_COMMIT | SENT_REMOVE_REVOCATION
| SENT_REMOVE_ACK_COMMIT | RCVD_REMOVE_ACK_REVOCATION
| RCVD_ADD_HTLC | RCVD_ADD_COMMIT | SENT_ADD_REVOCATION
| SENT_ADD_ACK_COMMIT | RCVD_ADD_ACK_REVOCATION
| SENT_REMOVE_HTLC | SENT_REMOVE_COMMIT | RCVD_REMOVE_REVOCATION
| RCVD_REMOVE_ACK_COMMIT | SENT_REMOVE_ACK_REVOCATION
| HTLC_STATE_INVALID.

Definition htlc_state_owner (s : htlc_state) : htlc_side :=
  match s with
  | SENT_ADD_HTLC | SENT_ADD_COMMIT | RCVD_ADD_REVOCATION
  | RCVD_ADD_ACK_COMMIT | SENT_ADD_ACK_REVOCATION
  | RCVD_REMOVE_HTLC | RCVD_REMOVE_COMMIT | SENT_REMOVE_REVOCATION
  | SENT_REMOVE_ACK_COMMIT | RCVD_REMOVE_ACK_REVOCATION => LOCAL
  | _ => REMOTE
  end.

(** A 32-byte [struct sha256] / [struct rval], as its bytes. *)
Definition sha256_t := list Z.

Record htlc := {
  htlc_id : Z;               (* u64 *)
  state : htlc_state;
  msatoshis : Z;             (* u64 *)
  rhash : sha256_t;
  expiry : Z;                (* absolute locktime, in blocks *)
  routing : list Z;
  r : option sha256_t
}.

Definition htlc_owner (h : htlc) : htlc_side := htlc_state_owner (state h).

(** HTLCs we offered sit on side OURS. *)
Definition htlc_channel_side (h : htlc) : channel_side :=
  match htlc_owner h with LOCAL => OURS | REMOTE => THEIRS end.

(** ** Channel state ([channel.h]) *)

Record channel_oneside := {
  pay_msat : Z;      (* uint32_t *)
  fee_msat : Z;      (* uint32_t *)
  num_htlcs : Z      (* unsigned int *)
}.

Record channel_state := {
  anchor : Z;                   (* uint64_t, satoshis *)
  fee_rate : Z;                 (* uint32_t *)
  num_nondust : Z;              (* unsigned int *)
  side_ours : channel_oneside;  (* side[OURS] *)
  side_theirs : channel_oneside (* side[THEIRS] *)
}.

Definition side (cs : channel_state) (s : channel_side) : channel_oneside :=
  match s with OURS => side_ours cs | THEIRS => side_theirs cs end.

Definition set_side (cs : channel_state) (s : channel_side)
    (o : channel_oneside) : channel_state :=
  match s with
  | OURS => {| anchor := anchor cs; fee_rate := fee_rate cs;
               num_nondust := num_nondust cs;
               side_ours := o; side_theirs := side_theirs cs |}
  | THEIRS => {| anchor := anchor cs; fee_rate := fee_rate cs;
                 num_nondust := num_nondust cs;
                 side_ours := side_ours cs; side_theirs := o |}
  end.

Definition set_num_nondust (cs : channel_state) (n : Z) : channel_state :=
  {| anchor := anchor cs; fee_rate := fee_rate cs; num_nondust := n;
     side_ours := side_ours cs; side_theirs := side_theirs cs |}.

Definition set_num_htlcs (o : channel_oneside) (n : Z) : channel_oneside :=
  {| pay_msat := pay_msat o; fee_msat := fee_msat o; num_htlcs := n |}.

Definition set_pay_msat (o : channel_oneside) (p : Z) : channel_oneside :=
  {| pay_msat := p; fee_msat := fee_msat o; num_htlcs := num_htlcs o |}.

(** ** Channel arithmetic *)

Module Channel.

(** [uint64_t fee_by_feerate(size_t txsize, uint64_t fee_rate)]: the
    definitions take [fee_rate] as 64-bit (the prototypes in [channel.h]
    say [uint32_t]). *)
Definition fee_by_feerate (txsize fee_rate : Z) : Z :=
  wrap64 (wrap64 (txsize * fee_rate) / 2000 * 2).

(** [static uint64_t calculate_fee_msat(size_t num_nondust_htlcs,
    uint64_t fee_rate)] *)
Definition calculate_fee_msat (num_nondust_htlcs fee_rate : Z) : Z :=
  let bytes := wrap64 (338 + 32 * num_nondust_htlcs) in
  wrap64 (fee_by_feerate bytes fee_rate * 1000).

(** [pay_fee]: pay this much fee, if possible; returns the updated side and
    the amount unpaid. *)
Definition pay_fee (s : channel_oneside) (fee : Z) : channel_oneside * Z :=
  if fee <=? pay_msat s then
    ({| pay_msat := wrap32 (pay_msat s - fee);
        fee_msat := wrap32 (fee_msat s + fee);
        num_htlcs := num_htlcs s |}, 0)
  else
    let remainder := wrap64 (fee - pay_msat s) in
    ({| pay_msat := 0;
        fee_msat := wrap32 (fee_msat s + pay_msat s);
        num_htlcs := num_htlcs s |}, remainder).

(** [recalculate_fees]: charge the fee as per BOLT #2. *)
Definition recalculate_fees (a b : channel_oneside) (fee : Z)
    : channel_oneside * channel_oneside :=
  (* Fold in fees, to recalculate again below. *)
  let a0 := {| pay_msat := wrap32 (pay_msat a + fee_msat a);
               fee_msat := 0; num_htlcs := num_htlcs a |} in
  let b0 := {| pay_msat := wrap32 (pay_msat b + fee_msat b);
               fee_msat := 0; num_htlcs := num_htlcs b |} in
  let '(a1, ra) := pay_fee a0 (fee / 2) in
  let '(b1, rb) := pay_fee b0 (fee / 2) in
  let remainder := wrap64 (ra + rb) in
  (* If there's anything left, the other side tries to pay for it. *)
  let '(a2, remainder') := pay_fee a1 remainder in
  let '(b2, _) := pay_fee b1 remainder' in
  (a2, b2).

(** The 32-bit sum [a->pay_msat + a->fee_msat + b->pay_msat + b->fee_msat]. *)
Definition funds32 (a b : channel_oneside) : Z :=
  wrap32 (pay_msat a + fee_msat a + pay_msat b + fee_msat b).

(** [change_funding]: [a] transfers [htlc_msat] (an [int64_t]) to an HTLC, or
    gains it if negative.  Returns the [bool] and the two sides. *)
Definition change_funding (anchor_satoshis fee_rate htlc_msat : Z)
    (a b : channel_oneside) (num_nondust_htlcs : Z)
    : outcome (bool * (channel_oneside * channel_oneside)) :=
  let htlcs_total := wrap64 (wrap64 (anchor_satoshis * 1000) - funds32 a b) in
  let fee := calculate_fee_msat num_nondust_htlcs fee_rate in
  (* If A is paying, can it afford it? *)
  if (0 <? htlc_msat)
     && (wrap32 (pay_msat a + fee_msat a) <? wrap64 (htlc_msat + fee / 2))
  then Done (false, (a, b))
  else
    (* OK, now adjust funds for A, then recalculate fees. *)
    let a1 := set_pay_msat a (wrap32 (pay_msat a - htlc_msat)) in
    let '(a2, b2) := recalculate_fees a1 b fee in
    let htlcs_total' := wrap64 (htlcs_total + htlc_msat) in
    if htlcs_total' =? wrap64 (wrap64 (anchor_satoshis * 1000) - funds32 a2 b2)
    then Done (true, (a2, b2))
    else Aborted.

Definition zero_oneside : channel_oneside :=
  {| pay_msat := 0; fee_msat := 0; num_htlcs := 0 |}.

(** [initial_cstate]: [Done None] is the NULL return. *)
Definition initial_cstate (anchor_satoshis fee_rate : Z)
    (funding : channel_side) : outcome (option channel_state) :=
  (* Anchor must fit in 32 bit. *)
  if 2 ^ 32 / 1000 <=? anchor_satoshis then Done None
  else
    let fee := calculate_fee_msat 0 fee_rate in
    if wrap64 (anchor_satoshis * 1000) <? fee then Done None
    else
      (* Initially, all goes back to funder. *)
      let funder := {| pay_msat := wrap32 (wrap64 (anchor_satoshis * 1000) - fee);
                       fee_msat := wrap32 fee; num_htlcs := 0 |} in
      let fundee := zero_oneside in
      (* Make sure it checks out. *)
      match change_funding anchor_satoshis fee_rate 0 funder fundee 0 with
      | Aborted => Aborted
      | Done (false, _) => Aborted
      | Done (true, (funder', fundee')) =>
          if (fee_msat funder' =? fee) && (fee_msat fundee' =? 0) then
            let cs := {| anchor := anchor_satoshis;
                         fee_rate := wrap32 fee_rate;
                         num_nondust := 0;
                         side_ours := zero_oneside;
                         side_theirs := zero_oneside |} in
            Done (Some (set_side (set_side cs funding funder')
                                 (other_side funding) fundee'))
          else Aborted
      end.

(** [adjust_fee]: note that [cstate->fee_rate] itself is not written. *)
Definition adjust_fee (cs : channel_state) (new_fee_rate : Z) : channel_state :=
  let fee := calculate_fee_msat (num_nondust cs) new_fee_rate in
  let '(a, b) := recalculate_fees (side cs OURS) (side cs THEIRS) fee in
  set_side (set_side cs OURS a) THEIRS b.

(** [force_fee] *)
Definition force_fee (cs : channel_state) (fee : Z) : bool * channel_state :=
  (* Beware overflow! *)
  if (2 ^ 64 - 1) / 1000 <? fee then (false, cs)
  else
    let '(a, b) := recalculate_fees (side cs OURS) (side cs THEIRS) (fee * 1000) in
    (wrap32 (fee_msat a + fee_msat b) =? fee * 1000,
     set_side (set_side cs OURS a) THEIRS b).

Section WithDust.

(** [is_dust] comes from [remove_dust.h]; the dust threshold is a fixed
    predicate on satoshi amounts supplied by the collaborator. *)
Variable is_dust : Z -> bool.

(** [cstate_add_htlc]: add a HTLC to its creator if it can afford it. *)
Definition cstate_add_htlc (cs : channel_state) (h : htlc)
    : outcome (bool * channel_state) :=
  let c := htlc_channel_side h in
  let creator := side cs c in
  let recipient := side cs (other_side c) in
  (* Remember to count the new one in total txsize if not dust! *)
  let nondust := if is_dust (msatoshis h / 1000) then num_nondust cs
                 else wrap64 (num_nondust cs + 1) in
  match change_funding (anchor cs) (fee_rate cs) (to_int64 (msatoshis h))
                       creator recipient nondust with
  | Aborted => Aborted
  | Done (false, _) => Done (false, cs)
  | Done (true, (creator', recipient')) =>
      let creator'' := set_num_htlcs creator' (wrap32 (num_htlcs creator' + 1)) in
      Done (true,
            set_num_nondust
              (set_side (set_side cs (other_side c) recipient') c creator'')
              (wrap32 nondust))
  end.

(** [remove_htlc]: remove htlc from creator, credit it to beneficiary. *)
Definition remove_htlc (cs : channel_state) (creator beneficiary : channel_side)
    (h : htlc) : outcome channel_state :=
  let dust := is_dust (msatoshis h / 1000) in
  if negb dust && negb (0 <? num_nondust cs) then Aborted
  else
    let nondust := if dust then num_nondust cs
                   else wrap64 (num_nondust cs - 1) in
    match change_funding (anchor cs) (fee_rate cs)
                         (to_int64 (- to_int64 (msatoshis h)))
                         (side cs beneficiary) (side cs (other_side beneficiary))
                         nondust with
    | Aborted => Aborted
    | Done (false, _) => Aborted
    | Done (true, (a, b)) =>
        let cs1 := set_side (set_side cs beneficiary a) (other_side beneficiary) b in
        (* Actually remove the HTLC. *)
        if 0 <? num_htlcs (side cs1 creator) then
          let c' := set_num_htlcs (side cs1 creator)
                                  (wrap32 (num_htlcs (side cs1 creator) - 1)) in
          Done (set_num_nondust (set_side cs1 creator c') (wrap32 nondust))
        else Aborted
    end.

Definition cstate_fail_htlc (cs : channel_state) (h : htlc) : outcome channel_state :=
  remove_htlc cs (htlc_channel_side h) (htlc_channel_side h) h.

Definition cstate_fulfill_htlc (cs : channel_state) (h : htlc) : outcome channel_state :=
  remove_htlc cs (htlc_channel_side h) (other_side (htlc_channel_side h)) h.

End WithDust.

End Channel.

(** ** Reachable channel states *)

Section ChannelModel.
Import Channel.

(** What both outputs hold: [sum(pay_msat) + sum(fee_msat)], unwrapped. *)
Definition funds (cs : channel_state) : Z :=
  pay_msat (side_ours cs) + fee_msat (side_ours cs)
  + pay_msat (side_theirs cs) + fee_msat (side_theirs cs).

(** Total value of the HTLCs currently in the channel. *)
Fixpoint htlcs_msat (hs : list htlc) : Z :=
  match hs with
  | [] => 0
  | h :: t => msatoshis h + htlcs_msat t
  end.

(** [change_funding] takes the amount as an [int64_t]: an amount is
    representable when it is below 2^63. *)
Definition htlc_ok (h : htlc) : Prop := 0 <= msatoshis h < 2 ^ 63.

Fixpoint count_where (p : htlc -> bool) (hs : list htlc) : Z :=
  match hs with
  | [] => 0
  | h :: t => (if p h then 1 else 0) + count_where p t
  end.

Definition on_side (s : channel_side) (h : htlc) : bool :=
  channel_side_eqb (htlc_channel_side h) s.

Definition oneside_ok (o : channel_oneside) : Prop :=
  u32 (pay_msat o) /\ u32 (fee_msat o) /\ u32 (num_htlcs o).

(** The state [initial_cstate] is expected to return: the funder holds the
    anchor minus the fee and pays the whole fee. *)
Definition expected_initial (a rate : Z) (f : channel_side) : channel_state :=
  let fee := calculate_fee_msat 0 rate in
  set_side
    (set_side {| anchor := a; fee_rate := wrap32 rate; num_nondust := 0;
                 side_ours := zero_oneside; side_theirs := zero_oneside |}
              f {| pay_msat := a * 1000 - fee; fee_msat := fee; num_htlcs := 0 |})
    (other_side f) zero_oneside.

Variable is_dust : Z -> bool.

Definition nondust (h : htlc) : bool := negb (is_dust (msatoshis h / 1000)).

Definition nondust_after_add (cs : channel_state) (h : htlc) : Z :=
  if is_dust (msatoshis h / 1000) then num_nondust cs else num_nondust cs + 1.

Definition nondust_after_remove (cs : channel_state) (h : htlc) : Z :=
  if is_dust (msatoshis h / 1000) then num_nondust cs
  else wrap64 (num_nondust cs - 1).

(** A channel state together with the HTLCs it currently carries. *)
Record cstate_inv (cs : channel_state) (hs : list htlc) : Prop := {
  inv_anchor : 0 <= anchor cs < 2 ^ 32 / 1000;
  inv_ours : oneside_ok (side_ours cs);
  inv_theirs : oneside_ok (side_theirs cs);
  inv_funds : funds cs + htlcs_msat hs = anchor cs * 1000;
  inv_htlcs : Forall htlc_ok hs;
  inv_nondust : num_nondust cs = wrap32 (count_where nondust hs);
  inv_num : forall s, num_htlcs (side cs s) = wrap32 (count_where (on_side s) hs)
}.

(** States reached from [initial_cstate] by successful [cstate_add_htlc],
    by fulfilling or failing an HTLC that is in the channel, and by
    [adjust_fee]; the list is the HTLCs in the channel. *)
Inductive reachable : channel_state -> list htlc -> Prop :=
| reach_initial a rate f cs :
    u64 a -> u64 rate ->
    initial_cstate a rate f = Done (Some cs) ->
    reachable cs []
| reach_add cs hs h cs' :
    reachable cs hs -> htlc_ok h ->
    cstate_add_htlc is_dust cs h = Done (true, cs') ->
    reachable cs' (h :: hs)
| reach_fulfill cs hs1 h hs2 cs' :
    reachable cs (hs1 ++ h :: hs2) ->
    cstate_fulfill_htlc is_dust cs h = Done cs' ->
    reachable cs' (hs1 ++ hs2)
| reach_fail cs hs1 h hs2 cs' :
    reachable cs (hs1 ++ h :: hs2) ->
    cstate_fail_htlc is_dust cs h = Done cs' ->
    reachable cs' (hs1 ++ hs2)
| reach_adjust cs hs rate :
    reachable cs hs -> u64 rate ->
    reachable (adjust_fee cs rate) hs.

End ChannelModel.

(** A concrete dust predicate for the worked scenarios: amounts below 546
    satoshi count as dust. *)
Definition dust_546 (satoshis : Z) : bool := satoshis <? 546.

Definition zero_hash : sha256_t := replicate 32 0.

(** Scenario 2's HTLC: 100 000 satoshi offered by the funder (us). *)
Definition scenario_htlc : htlc :=
  {| htlc_id := 0; state := SENT_ADD_HTLC; msatoshis := 100000000;
     rhash := zero_hash; expiry := 1000; routing := []; r := None |}.

(** An HTLC of 2^64 - 1 msat, the largest amount the 64-bit field holds,
    offered by the fundee (them). *)
Definition oversized_htlc_from_fundee : htlc :=
  {| htlc_id := 0; state := RCVD_ADD_HTLC; msatoshis := 2 ^ 64 - 1;
     rhash := zero_hash; expiry := 1000; routing := []; r := None |}.

(** Scenario 1: anchor 1 000 000 satoshi, fee rate 50 000, funded by us. *)
Definition scenario1_cstate : channel_state :=
  {| anchor := 1000000; fee_rate := 50000; num_nondust := 0;
     side_ours := {| pay_msat := 983100000; fee_msat := 16900000; num_htlcs := 0 |};
     side_theirs := Channel.zero_oneside |}.

(** Scenario 2: the state after adding [scenario_htlc]. *)
Definition scenario2_cstate : channel_state :=
  {| anchor := 1000000; fee_rate := 50000; num_nondust := 1;
     side_ours := {| pay_msat := 881500000; fee_msat := 18500000; num_htlcs := 1 |};
     side_theirs := Channel.zero_oneside |}.

(** ** [permute_tx.c] *)

Module Permute.

(** [memcmp(a, b, n)]: the sign of the first difference among the first [n]
    bytes.  Every call in [permute_tx.c] passes buffers of at least [n]
    bytes; the exhausted-buffer cases below are never exercised. *)
Fixpoint memcmp (a b : list Z) (n : nat) : comparison :=
  match n with
  | O => Eq
  | S n' =>
      match a, b with
      | x :: a', y :: b' =>
          match x ?= y with
          | Eq => memcmp a' b' n'
          | c => c
          end
      | [], [] => Eq
      | [], _ :: _ => Lt
      | _ :: _, [] => Gt
      end
  end.

(** [struct bitcoin_tx_input] ([bitcoin/tx.h] is not among the sources): the
    fields [permute_tx.c] reads.  The [script]/[script_length] pair is one
    byte list. *)
Record bitcoin_tx_input := {
  txid : list Z;            (* struct sha256_double: 32 bytes *)
  index : Z;
  input_script : list Z;
  sequence_number : Z
}.

Definition input_script_length (a : bitcoin_tx_input) : Z :=
  Z.of_nat (length (input_script a)).

(** [struct bitcoin_tx_output] *)
Record bitcoin_tx_output := {
  amount : Z;
  script : list Z
}.

Definition script_length (a : bitcoin_tx_output) : Z :=
  Z.of_nat (length (script a)).

Definition input_better (a b : bitcoin_tx_input) : bool :=
  match memcmp (txid a) (txid b) 32 with
  | Lt => true
  | Gt => false
  | Eq =>
      if negb (index a =? index b) then index a <? index b
      else
        (* These shouldn't happen, but let's get a canonical order anyway. *)
        if negb (input_script_length a =? input_script_length b)
        then input_script_length a <? input_script_length b
        else
          match memcmp (input_script a) (input_script b)
                       (length (input_script a)) with
          | Lt => true
          | Gt => false
          | Eq => sequence_number a <? sequence_number b
          end
  end.

Definition output_better (a b : bitcoin_tx_output) : bool :=
  if negb (amount a =? amount b) then amount a <? amount b
  else
    (* Lexographic sort. *)
    let len := if script_length a <? script_length b
               then length (script a) else length (script b) in
    match memcmp (script a) (script b) len with
    | Lt => true
    | Gt => false
    | Eq => script_length a <? script_length b
    end.

Section Generic.
(** [find_best_in]/[find_best_out], [swap_inputs]/[swap_outputs] and
    [permute_inputs]/[permute_outputs] are textually the same code over the
    two element types. *)
Context {A : Type} (better : A -> A -> bool).

(** The loop [for (i = 1; i < num; i++) if (better(&a[i], &a[best])) best = i;]
    with [k] iterations left. *)
Fixpoint find_best_loop (arr : list A) (k i best : nat) : nat :=
  match k with
  | O => best
  | S k' =>
      match arr !! i, arr !! best with
      | Some x, Some y =>
          find_best_loop arr k' (S i) (if better x y then i else best)
      | _, _ => best
      end
  end.

Definition find_best (arr : list A) : nat :=
  find_best_loop arr (length arr - 1) 1 0.

(** [tmp = a[i1]; a[i1] = a[i2]; a[i2] = tmp;] *)
Definition swap (arr : list A) (i1 i2 : nat) : list A :=
  match arr !! i1, arr !! i2 with
  | Some tmp, Some y => <[i2 := tmp]> (<[i1 := y]> arr)
  | _, _ => arr
  end.

(** [for (i = 0; i < num; i++) swap(a, i, i + find_best(a + i, num - i));]
    with [k] iterations left. *)
Fixpoint permute_loop (k i : nat) (arr : list A) : list A :=
  match k with
  | O => arr
  | S k' => permute_loop k' (S i) (swap arr i (i + find_best (drop i arr)))
  end.

Definition permute (arr : list A) : list A :=
  permute_loop (length arr) 0 arr.

End Generic.

Definition find_best_in := find_best input_better.
Definition swap_inputs := @swap bitcoin_tx_input.
Definition permute_inputs := permute input_better.

Definition find_best_out := find_best output_better.
Definition swap_outputs := @swap bitcoin_tx_output.
Definition permute_outputs := permute output_better.

End Permute.


Section PermuteOrder.
Import Permute.

(** Lexicographic order on byte strings, a proper prefix first. *)
Fixpoint bytes_compare (a b : list Z) : comparison :=
  match a, b with
  | [], [] => Eq
  | [], _ :: _ => Lt
  | _ :: _, [] => Gt
  | x :: a', y :: b' =>
      match x ?= y with
      | Eq => bytes_compare a' b'
      | c => c
      end
  end.

(** Lexicographic combination of two comparison results. *)
Definition lex (c1 c2 : comparison) : comparison :=
  match c1 with Eq => c2 | _ => c1 end.

(** The order named by the claim for inputs. *)
Definition input_compare (a b : bitcoin_tx_input) : comparison :=
  lex (bytes_compare (txid a) (txid b))
  (lex (index a ?= index b)
  (lex (input_script_length a ?= input_script_length b)
  (lex (bytes_compare (input_script a) (input_script b))
       (sequence_number a ?= sequence_number b)))).

(** The order named by the claim for outputs. *)
Definition output_compare (a b : bitcoin_tx_output) : comparison :=
  lex (amount a ?= amount b)
  (lex (memcmp (script a) (script b)
               (Nat.min (length (script a)) (length (script b))))
       (script_length a ?= script_length b)).

Definition wf_input (a : bitcoin_tx_input) : Prop := length (txid a) = 32%nat.


Definition is_lt (c : comparison) : bool :=
  match c with Lt => true | _ => false end.

Definition input_key (a : bitcoin_tx_input) : list Z * (Z * (Z * (list Z * Z))) :=
  (txid a, (index a, (input_script_length a, (input_script a, sequence_number a)))).

Definition pair_compare {A B : Type} (c1 : A -> A -> comparison)
    (c2 : B -> B -> comparison) (p q : A * B) : comparison :=
  lex (c1 (fst p) (fst q)) (c2 (snd p) (snd q)).

(** A comparison function that is a total order. *)
Record total_comparison {A : Type} (cmp : A -> A -> comparison) : Prop := {
  cmp_eq : forall x y, cmp x y = Eq -> x = y;
  cmp_refl : forall x, cmp x x = Eq;
  cmp_opp : forall x y, cmp y x = CompOpp (cmp x y);
  cmp_trans : forall x y z, cmp x y = Lt -> cmp y z = Lt -> cmp x z = Lt
}.

(** [x] may come before [y]. *)
Definition ascending {A : Type} (cmp : A -> A -> comparison) (x y : A) : Prop :=
  cmp x y <> Gt.

(** What position [0] and the rest hold after the best element, found at
    position [b], has been swapped to the front of [x :: xs]. *)
Definition after_swap {A : Type} (x : A) (xs : list A) (b : nat) : list A :=
  match b with
  | O => xs
  | S b' => <[b' := x]> xs
  end.

End PermuteOrder.

(** ** Shachain persistence *)

Module Shachain.

(** Modelled from the spec: [struct shachain] is declared in ccan's
    [shachain.h], which is not among the sources.  The spec gives
    (min_index, num_valid, known[0..64] of {index, 32-byte hash}). *)
Record known_slot := {
  index : Z;          (* shachain_index_t: uint64_t *)
  hash : list Z       (* struct sha256: 32 bytes *)
}.

Record shachain := {
  min_index : Z;      (* uint64_t *)
  num_valid : Z;      (* unsigned int *)
  known : list known_slot
}.

Definition SHACHAIN_SIZE : Z := 2612.
Definition KNOWN_SLOTS : nat := 65.
Definition SHA256_SIZE : nat := 32.

(** [n] bytes of [v], least significant first. *)
Fixpoint le_bytes (n : nat) (v : Z) : list Z :=
  match n with
  | O => []
  | S n' => v mod 256 :: le_bytes n' (v / 256)
  end.

Fixpoint le_value (bs : list Z) : Z :=
  match bs with
  | [] => 0
  | b :: bs' => b + 256 * le_value bs'
  end.

(** Modelled from the spec: [push], [push_le32], [push_le64], [pull],
    [pull_le32] and [pull_le64] come from [bitcoin/pullpush.c], which is not
    among the sources.  Integers inside the shachain blob are little-endian;
    a pull that runs out of bytes yields zeroes and a NULL cursor. *)
Definition push (data : list Z) (p : list Z) : list Z := p ++ data.
Definition push_le64 (v : Z) (p : list Z) : list Z := push (le_bytes 8 v) p.
Definition push_le32 (v : Z) (p : list Z) : list Z := push (le_bytes 4 v) p.

(** The cursor [(p, len)]: [None] is the NULL cursor. *)
Definition cursor := option (list Z).

Definition pull (c : cursor) (n : nat) : list Z * cursor :=
  match c with
  | Some bs =>
      if (n <=? length bs)%nat then (take n bs, Some (drop n bs))
      else (replicate n 0, None)
  | None => (replicate n 0, None)
  end.

Definition pull_le64 (c : cursor) : Z * cursor :=
  let '(bs, c') := pull c 8 in (le_value bs, c').

Definition pull_le32 (c : cursor) : Z * cursor :=
  let '(bs, c') := pull c 4 in (le_value bs, c').

Definition zeroes : list Z := replicate SHA256_SIZE 0.

(** [shachain->known[i]]; a read past the 65 slots is given a slot of
    zeroes (whatever it reads, the buffer then outgrows SHACHAIN_SIZE). *)
Definition known_at (s : shachain) (i : nat) : known_slot :=
  nth i (known s) {| index := 0; hash := zeroes |}.

(** [linearize_shachain]: the buffer [p]; the source returns its hex
    rendering, which the SQL literal [x'...'] turns back into these bytes. *)
Definition linearize_shachain (s : shachain) : outcome (list Z) :=
  let n := Z.to_nat (num_valid s) in
  let p := [] in
  let p := push_le64 (min_index s) p in
  let p := push_le32 (num_valid s) p in
  let p := fold_left (fun p i => push (hash (known_at s i))
                                      (push_le64 (index (known_at s i)) p))
                     (seq 0 n) p in
  let p := fold_left (fun p (_ : nat) => push zeroes (push_le64 0 p))
                     (seq n (KNOWN_SLOTS - n)) p in
  if Z.of_nat (length p) =? SHACHAIN_SIZE then Done p else Aborted.

Fixpoint pull_known (n : nat) (c : cursor) : list known_slot * cursor :=
  match n with
  | O => ([], c)
  | S n' =>
      let '(i, c1) := pull_le64 c in
      let '(h, c2) := pull c1 SHA256_SIZE in
      let '(rest, c3) := pull_known n' c2 in
      ({| index := i; hash := h |} :: rest, c3)
  end.

(** [delinearize_shachain]: every field of the target is overwritten; the
    [bool] is [p && len == 0]. *)
Definition delinearize_shachain (data : list Z) : shachain * bool :=
  let c := Some data in
  let '(mi, c) := pull_le64 c in
  let '(nv, c) := pull_le32 c in
  let '(ks, c) := pull_known KNOWN_SLOTS c in
  ({| min_index := mi; num_valid := nv; known := ks |},
   match c with Some [] => true | _ => false end).

End Shachain.

Section ShachainModel.
Import Shachain.

Definition zero_slot : known_slot := {| index := 0; hash := zeroes |}.

Definition wf_slot (k : known_slot) : Prop :=
  u64 (index k) /\ length (hash k) = SHA256_SIZE.

Record wf_shachain (s : shachain) : Prop := {
  wf_min_index : u64 (min_index s);
  wf_num_valid : u32 (num_valid s);
  wf_known_len : length (known s) = KNOWN_SLOTS;
  wf_known : Forall wf_slot (known s)
}.

(** One serialized slot. *)
Definition slot_bytes (k : known_slot) : list Z := le_bytes 8 (index k) ++ hash k.

(** What the blob holds after the header: the valid slots, then zeroes. *)
Definition stored_slots (s : shachain) : list known_slot :=
  take (Z.to_nat (num_valid s)) (known s)
  ++ replicate (KNOWN_SLOTS - Z.to_nat (num_valid s)) zero_slot.

Definition shachain_layout (s : shachain) : list Z :=
  le_bytes 8 (min_index s) ++ le_bytes 4 (num_valid s)
  ++ concat (map slot_bytes (stored_slots s)).

End ShachainModel.

(** ** [daemon/packets.c]: packet acceptors *)

Module Packets.

(** The protobuf [Locktime] message: a oneof of seconds and blocks. *)
Inductive Locktime :=
| LOCKTIME_NOT_SET
| LOCKTIME_SECONDS (seconds : Z)
| LOCKTIME_BLOCKS (blocks : Z).

(** [UpdateAddHtlc] ([u->id], [u->amount_msat], [u->r_hash], [u->expiry],
    [u->route->info]). *)
Record UpdateAddHtlc := {
  u_id : Z;
  amount_msat : Z;
  r_hash : sha256_t;
  u_expiry : Locktime;
  route : list Z
}.

(** [UpdateRevocation] *)
Record UpdateRevocation := {
  revocation_preimage : sha256_t;
  pkt_next_revocation_hash : sha256_t
}.

(** The [Error] packet: [e->problem]. *)
Record Error := { problem : string }.

(** [pkt_err]: the formatted message wrapped in a PKT_ERROR. *)
Definition pkt_err (msg : string) : Error := {| problem := msg |}.

(** ["%" PRIu64] *)
Definition PRIu64 (v : Z) : string := NilZero.string_of_uint (N.to_uint (Z.to_N v)).

(** [struct commit_info], [struct peer_visible_state], [struct peer]
    ([peer.h] is not among the sources): the fields the two acceptors read
    or write. *)
Record commit_info := { commit_num : Z }.

Record peer_visible_state := {
  commit : commit_info;
  next_revocation_hash : sha256_t;
  staging_cstate : channel_state
}.

Record peer := {
  remote : peer_visible_state;
  their_prev_revocation_hash : option sha256_t;   (* NULL when absent *)
  their_preimages : Shachain.shachain;
  htlcs : list htlc
}.

Definition htlc_side_eqb (a b : htlc_side) : bool :=
  match a, b with LOCAL, LOCAL | REMOTE, REMOTE => true | _, _ => false end.

(** Modelled from the spec: [htlc_get] ([htlc.h]) and [peer_new_htlc]
    ([peer.c]) are not among the sources.  The HTLC registry is keyed by
    (owner, id); [new_htlc] records the HTLC with the given state, no
    preimage and no upstream link. *)
Definition htlc_get (hs : list htlc) (id : Z) (owner : htlc_side) : option htlc :=
  List.find (fun h => (htlc_id h =? id) && htlc_side_eqb (htlc_owner h) owner) hs.

Definition peer_new_htlc (p : peer) (id msat : Z) (rh : sha256_t) (expiry_blocks : Z)
    (rt : list Z) (st : htlc_state) : peer * htlc :=
  let h := {| htlc_id := id; state := st; msatoshis := msat; rhash := rh;
              expiry := expiry_blocks; routing := rt; r := None |} in
  ({| remote := remote p;
      their_prev_revocation_hash := their_prev_revocation_hash p;
      their_preimages := their_preimages p;
      htlcs := h :: htlcs p |}, h).

Section Acceptors.

(** Collaborators that are not among the sources: locktime conversion
    ([protobuf_convert.h], [bitcoin/locktime.h]), SHA-256 and the ccan
    shachain. [shachain_add_hash] returning [None] is its [false]. *)
Variable proto_to_abs_locktime : Locktime -> option Z.
Variable abs_locktime_is_seconds : Z -> bool.
Variable abs_locktime_to_blocks : Z -> Z.
Variable sha256 : sha256_t -> sha256_t.
Variable shachain_add_hash :
  Shachain.shachain -> Z -> sha256_t -> option Shachain.shachain.

(** [accept_pkt_htlc_add]: the returned packet ([None] is NULL), the peer
    afterwards and what was stored through [h]. *)
Definition accept_pkt_htlc_add (p : peer) (u : UpdateAddHtlc)
    : option Error * peer * option htlc :=
  (* `amount_msat` MUST BE greater than 0. *)
  if amount_msat u =? 0 then (Some (pkt_err "Invalid amount_msat"), p, None)
  else
    match proto_to_abs_locktime (u_expiry u) with
    | None => (Some (pkt_err "Invalid HTLC expiry"), p, None)
    | Some expiry =>
        if abs_locktime_is_seconds expiry
        then (Some (pkt_err "HTLC expiry in seconds not supported!"), p, None)
        else if num_htlcs (side (staging_cstate (remote p)) THEIRS) =? 300
        then (Some (pkt_err "Too many HTLCs"), p, None)
        else
          match htlc_get (htlcs p) (u_id u) REMOTE with
          | Some _ =>
              (Some (pkt_err ("HTLC id " ++ PRIu64 (u_id u) ++ " clashes for you")),
               p, None)
          | None =>
              let '(p', h) :=
                peer_new_htlc p (u_id u) (amount_msat u) (r_hash u)
                              (abs_locktime_to_blocks expiry) (route u)
                              RCVD_ADD_HTLC in
              (None, p', Some h)
          end
    end.

(** The shachain index [0xFFFFFFFFFFFFFFFFL - (commit_num - 1)], in 64-bit
    unsigned arithmetic. *)
Definition revocation_index (p : peer) : Z :=
  wrap64 (2 ^ 64 - 1 - wrap64 (commit_num (commit (remote p)) - 1)).

(** [accept_pkt_revocation]: [Done (None, p')] is the NULL return. *)
Definition accept_pkt_revocation (p : peer) (rv : UpdateRevocation)
    : outcome (option Error * peer) :=
  match their_prev_revocation_hash p with
  | None => Aborted      (* assert(peer->their_prev_revocation_hash) *)
  | Some prev =>
      let preimage := revocation_preimage rv in
      let h := sha256 preimage in
      if negb (bool_decide (h = prev))
      then Done (Some (pkt_err "complete preimage incorrect"), p)
      else
        (* save revocation preimages in shachain *)
        match shachain_add_hash (their_preimages p) (revocation_index p) preimage with
        | None => Done (Some (pkt_err "preimage not next in shachain"), p)
        | Some chain =>
            Done (None,
                  {| remote := {| commit := commit (remote p);
                                  next_revocation_hash := pkt_next_revocation_hash rv;
                                  staging_cstate := staging_cstate (remote p) |};
                     (* Clear the previous revocation hash. *)
                     their_prev_revocation_hash := None;
                     their_preimages := chain;
                     htlcs := htlcs p |})
        end
  end.

End Acceptors.

End Packets.

(** ** The database transaction flag *)

Module Db.

(** The SQL statements handed to [db_exec], by table and kind; the
    values formatted into them do not matter to the flag. *)
Inductive statement :=
| BEGIN_IMMEDIATE | COMMIT | ROLLBACK
| INSERT_wallet
| INSERT_anchors | INSERT_commit_info_OURS | INSERT_commit_info_THEIRS
| INSERT_shachain
| INSERT_their_visible_state | UPDATE_next_revocation_hash
| INSERT_peers | INSERT_peer_secrets | INSERT_peer_address
| INSERT_htlcs_with_src | INSERT_htlcs
| UPDATE_htlcs_state | UPDATE_peers_state | UPDATE_htlcs_r
| UPDATE_commit_info | UPDATE_prev_revocation_hash_NULL
| UPDATE_shachain | INSERT_their_commitments
| DELETE_from (table : string)
| INSERT_closing | UPDATE_closing_our_script | UPDATE_closing_their_script
| UPDATE_closing_our_fee | UPDATE_closing_their_fee.

Section Engine.

(** The SQLite handle and [sqlite3_exec]; [true] is SQLITE_OK. *)
Variable sqlite3 : Type.
Variable sqlite3_exec : sqlite3 -> statement -> sqlite3 * bool.

(** [struct db] *)
Record db := {
  in_transaction : bool;
  sql : sqlite3
}.

(** Code running against the database: it returns a value and the new
    database, or dies on an [assert] or [fatal]. *)
Definition M (A : Type) : Type := db -> outcome (A * db).

Definition ret {A : Type} (a : A) : M A := fun d => Done (a, d).

Definition bind {A B : Type} (m : M A) (k : A -> M B) : M B :=
  fun d => match m d with
           | Done (a, d') => k a d'
           | Aborted => Aborted
           end.

Notation "x <- m ;; k" := (bind m (fun x => k))
  (at level 100, m at next level, right associativity).
Notation "m ;;; k" := (bind m (fun _ => k))
  (at level 100, right associativity).

(** [assert(cond)] *)
Definition assert (cond : db -> bool) : M unit :=
  fun d => if cond d then Done (tt, d) else Aborted.

(** [fatal(...)] *)
Definition fatal {A : Type} : M A := fun _ => Aborted.

Definition set_in_transaction (b : bool) : M unit :=
  fun d => Done (tt, {| in_transaction := b; sql := sql d |}).

(** [db_exec]: [true] when no error message came back. *)
Definition db_exec (cmd : statement) : M bool :=
  fun d => let '(s, ok) := sqlite3_exec (sql d) cmd in
           Done (ok, {| in_transaction := in_transaction d; sql := s |}).

Definition db_start_transaction : M bool :=
  assert (fun d => negb (in_transaction d)) ;;;
  ok <- db_exec BEGIN_IMMEDIATE ;;
  (if ok then set_in_transaction true else ret tt) ;;;
  ret ok.

Definition db_abort_transaction : M unit :=
  assert in_transaction ;;;
  set_in_transaction false ;;;
  db_exec ROLLBACK ;;;
  ret tt.

Definition db_commit_transaction : M bool :=
  assert in_transaction ;;;
  set_in_transaction false ;;;
  db_exec COMMIT.

(** [fatal] on error, no transaction involved. *)
Definition db_add_wallet_privkey : M unit :=
  ok <- db_exec INSERT_wallet ;;
  if ok then ret tt else fatal.

(** The shachain bytes of the last statement come from
    [linearize_shachain]. *)
Definition db_set_anchor : M bool :=
  assert in_transaction ;;;
  ok <- db_exec INSERT_anchors ;;
  if negb ok then ret false else
  ok <- db_exec INSERT_commit_info_OURS ;;
  if negb ok then ret false else
  ok <- db_exec INSERT_commit_info_THEIRS ;;
  if negb ok then ret false else
  db_exec INSERT_shachain.

Definition db_set_visible_state : M bool :=
  started <- db_start_transaction ;;
  if negb started then ret false else
  ok <- db_exec INSERT_their_visible_state ;;
  if negb ok then db_abort_transaction ;;; ret false else
  committed <- db_commit_transaction ;;
  if negb committed then db_abort_transaction ;;; ret false else
  ret true.

Definition db_update_next_revocation_hash : M bool :=
  assert in_transaction ;;;
  db_exec UPDATE_next_revocation_hash.

Definition db_create_peer : M bool :=
  started <- db_start_transaction ;;
  if negb started then ret false else
  ok <- db_exec INSERT_peers ;;
  if negb ok then db_abort_transaction ;;; ret false else
  ok <- db_exec INSERT_peer_secrets ;;
  if negb ok then db_abort_transaction ;;; ret false else
  ok <- db_exec INSERT_peer_address ;;
  if negb ok then db_abort_transaction ;;; ret false else
  committed <- db_commit_transaction ;;
  if negb committed then db_abort_transaction ;;; ret false else
  ret true.

(** [has_src] is [htlc->src != NULL]. *)
Definition db_new_htlc (has_src : bool) : M bool :=
  assert in_transaction ;;;
  if has_src then db_exec INSERT_htlcs_with_src else db_exec INSERT_htlcs.

Definition db_update_htlc_state : M bool :=
  assert in_transaction ;;;
  db_exec UPDATE_htlcs_state.

Definition db_update_state : M bool :=
  assert in_transaction ;;;
  db_exec UPDATE_peers_state.

(** When called from [their_htlc_added()] and it's a payment to us, we are
    in a transaction.  When called due to PKT_UPDATE_FULFILL_HTLC we are
    not. *)
Definition db_htlc_fulfilled : M bool :=
  db_exec UPDATE_htlcs_r.

Definition db_new_commit_info : M bool :=
  assert in_transaction ;;;
  db_exec UPDATE_commit_info.

Definition db_remove_their_prev_revocation_hash : M bool :=
  assert in_transaction ;;;
  db_exec UPDATE_prev_revocation_hash_NULL.

Definition db_save_shachain : M bool :=
  assert in_transaction ;;;
  db_exec UPDATE_shachain.

Definition db_add_commit_map : M bool :=
  assert in_transaction ;;;
  db_exec INSERT_their_commitments.

Definition forget_tables : list string :=
  ["anchors"; "htlcs"; "commit_info"; "shachain"; "their_visible_state";
   "their_commitments"; "peer_secrets"; "closing"; "peers"]%string.

Fixpoint delete_tables (tables : list string) : M unit :=
  match tables with
  | [] => ret tt
  | t :: rest =>
      ok <- db_exec (DELETE_from t) ;;
      if ok then delete_tables rest else fatal
  end.

(** [closed] is [peer->state == STATE_CLOSED]. *)
Definition db_forget_peer (closed : bool) : M unit :=
  assert (fun _ => closed) ;;;
  started <- db_start_transaction ;;
  if negb started then fatal else
  delete_tables forget_tables ;;;
  committed <- db_commit_transaction ;;
  if committed then ret tt else fatal.

Definition db_begin_shutdown : M bool :=
  assert in_transaction ;;;
  db_exec INSERT_closing.

Definition db_set_our_closing_script : M bool :=
  assert in_transaction ;;;
  db_exec UPDATE_closing_our_script.

Definition db_set_their_closing_script : M bool :=
  assert (fun d => negb (in_transaction d)) ;;;
  db_exec UPDATE_closing_their_script.

(** For first time, we are in transaction to make it atomic with
    peer->state update.  Later calls are not. *)
Definition db_update_our_closing : M bool :=
  db_exec UPDATE_closing_our_fee.

Definition db_update_their_closing : M bool :=
  assert (fun d => negb (in_transaction d)) ;;;
  db_exec UPDATE_closing_their_fee.

(** The writers that assert [in_transaction] on entry. *)
Definition asserting_write_sites : list (M bool) :=
  [db_set_anchor; db_update_next_revocation_hash; db_new_htlc true;
   db_new_htlc false; db_update_htlc_state; db_update_state;
   db_new_commit_info; db_remove_their_prev_revocation_hash;
   db_save_shachain; db_add_commit_map; db_begin_shutdown;
   db_set_our_closing_script].

(** Every writer that runs inside a protocol step's transaction: the above,
    and the two that are also called outside one. *)
Definition transactional_write_sites : list (M bool) :=
  asserting_write_sites ++ [db_htlc_fulfilled; db_update_our_closing].

End Engine.

End Db.

(** A database engine that accepts every statement and logs it. *)
Definition logging_exec (log : list Db.statement) (cmd : Db.statement)
    : list Db.statement * bool :=
  (log ++ [cmd], true).


(** ** What a side holds, byte blobs, and an engine that keeps a trace *)

(** What a side of the channel has: what it would be paid, and what it
    gives to the fee. *)
Definition side_total (o : channel_oneside) : Z := pay_msat o + fee_msat o.

(** A blob column holds bytes. *)
Definition is_byte (b : Z) : Prop := 0 <= b < 256.

Definition cursor_ok (c : Shachain.cursor) : Prop :=
  match c with Some bs => Forall is_byte bs | None => True end.


(** An engine that also records the statements it is handed. *)
Definition recording {sqlite3 : Type}
    (exec : sqlite3 -> Db.statement -> sqlite3 * bool)
    (s : sqlite3 * list Db.statement) (cmd : Db.statement)
    : (sqlite3 * list Db.statement) * bool :=
  let '(s', ok) := exec (fst s) cmd in ((s', snd s ++ [cmd]), ok).

(** ** [daemon/packets.c]: FULFILL_HTLC and FAIL_HTLC *)

Module Removal.
Import Packets.

(** [UpdateFailHtlc] ([f->id]; the reason is not read). *)
Record UpdateFailHtlc := { fail_id : Z }.

(** [UpdateFulfillHtlc] ([f->id], [f->r]). *)
Record UpdateFulfillHtlc := {
  fulfill_id : Z;
  fulfill_r : sha256_t
}.

(** The write [h->r = tal_dup(h, struct rval, &r)] through the out-parameter. *)
Definition htlc_set_r (h : htlc) (rv : sha256_t) : htlc :=
  {| htlc_id := htlc_id h; state := state h; msatoshis := msatoshis h;
     rhash := rhash h; expiry := expiry h; routing := routing h; r := Some rv |}.

(** The pointer [htlc_get] hands out aliases the registry's entry: a write
    through it is a write to the entry [htlc_get] finds for (owner, id). *)
Fixpoint htlc_write (hs : list htlc) (id : Z) (owner : htlc_side) (h' : htlc)
    : list htlc :=
  match hs with
  | [] => []
  | h :: rest =>
      if (htlc_id h =? id) && htlc_side_eqb (htlc_owner h) owner
      then h' :: rest
      else h :: htlc_write rest id owner h'
  end.

Definition set_htlcs (p : peer) (hs : list htlc) : peer :=
  {| remote := remote p;
     their_prev_revocation_hash := their_prev_revocation_hash p;
     their_preimages := their_preimages p;
     htlcs := hs |}.

Section Acceptors.

(** SHA-256 and [htlc_state_name] ([names.h]) are collaborators that are
    not among the sources. *)
Variable sha256 : sha256_t -> sha256_t.
Variable htlc_state_name : htlc_state -> string.

(** [find_commited_htlc]: the returned packet and what the out-parameter [local_htlc] holds
    afterwards. *)
Definition find_commited_htlc (p : peer) (id : Z) : option Error * option htlc :=
  let local_htlc := htlc_get (htlcs p) id LOCAL in
  match local_htlc with
  | None => (Some (pkt_err ("Did not find HTLC " ++ PRIu64 id)), local_htlc)
  | Some h =>
      match state h with
      | SENT_ADD_ACK_REVOCATION => (None, local_htlc)
      | _ => (Some (pkt_err ("HTLC " ++ PRIu64 id ++ " state "
                              ++ htlc_state_name (state h))), local_htlc)
      end
  end.

(** [accept_pkt_htlc_fail] *)
Definition accept_pkt_htlc_fail (p : peer) (f : UpdateFailHtlc)
    : option Error * option htlc :=
  match find_commited_htlc p (fail_id f) with
  | (Some err, h) => (Some err, h)
  | (None, h) => (None, h)
  end.

(** [accept_pkt_htlc_fulfill]: the returned packet, the peer afterwards,
    the out-parameters [h] and [was_already_fulfilled] ([None] where the
    source leaves it unwritten). *)
Definition accept_pkt_htlc_fulfill (p : peer) (f : UpdateFulfillHtlc)
    : outcome (option Error * peer * option htlc * option bool) :=
  match find_commited_htlc p (fulfill_id f) with
  | (Some err, h) => Done (Some err, p, h, None)
  | (None, None) => Aborted      (* [h->rhash] through a NULL [h] *)
  | (None, Some h) =>
      (* Now, it must solve the HTLC rhash puzzle. *)
      let rhash' := sha256 (fulfill_r f) in
      if negb (bool_decide (rhash' = rhash h))
      then Done (Some (pkt_err ("Invalid r for " ++ PRIu64 (fulfill_id f))),
                 p, Some h, None)
      else
        match r h with
        | Some _ => Done (None, p, Some h, Some true)
        | None =>
            let h' := htlc_set_r h (fulfill_r f) in
            Done (None,
                  set_htlcs p (htlc_write (htlcs p) (fulfill_id f) LOCAL h'),
                  Some h', Some false)
        end
  end.

End Acceptors.

End Removal.




(** ** [daemon/db.c]: rebuilding the channel states on load *)

Module Restore.

(** The flags [load_peer_htlcs] tests with [htlc_has] ([htlc.h] is not among
    the sources; the flags are read off the HTLC's state). *)
Inductive htlc_flag :=
| HTLC_LOCAL_F_WAS_COMMITTED | HTLC_LOCAL_F_COMMITTED
| HTLC_REMOTE_F_WAS_COMMITTED | HTLC_REMOTE_F_COMMITTED.

(** What the loop of [load_peer_htlcs] updates: [peer->local.commit->cstate],
    [peer->remote.commit->cstate] ([None] is the NULL [initial_cstate] can
    return) and [peer->htlc_id_counter]. *)
Record loading := {
  local_cstate : option channel_state;
  remote_cstate : option channel_state;
  htlc_id_counter : Z         (* u64 *)
}.

(** What [load_peer_htlcs] leaves in the peer: the two commitments'
    cstates, the two staging cstates and the id counter. *)
Record loaded := {
  local_commit_cstate : channel_state;
  remote_commit_cstate : channel_state;
  local_staging_cstate : channel_state;
  remote_staging_cstate : channel_state;
  loaded_htlc_id_counter : Z  (* u64 *)
}.

(** [copy_cstate] ([channel.c]): a [tal_dup] of the structure. *)
Definition copy_cstate (cs : channel_state) : channel_state := cs.

Section Load.

Variable is_dust : Z -> bool.
Variable htlc_has : htlc -> htlc_flag -> bool.

(** [htlc_resolved]: this htlc no longer committed; either resolved or
    failed. *)
Definition htlc_resolved (cs : channel_state) (h : htlc) : outcome channel_state :=
  match r h with
  | Some _ => Channel.cstate_fulfill_htlc is_dust cs h
  | None => Channel.cstate_fail_htlc is_dust cs h
  end.

(** "Update cstate with this HTLC", for one of the two commitments: the
    local one with the LOCAL flags, the remote one with the REMOTE flags. *)
Definition replay_htlc (was_committed committed : htlc_flag)
    (cstate : option channel_state) (h : htlc) : outcome (option channel_state) :=
  if htlc_has h was_committed then
    match cstate with
    | None => Aborted        (* [cstate_add_htlc] on a NULL cstate *)
    | Some cs =>
        match Channel.cstate_add_htlc is_dust cs h with
        | Aborted => Aborted
        | Done (false, _) => Aborted     (* fatal("load_peer_htlcs:can't add ... HTLC") *)
        | Done (true, cs1) =>
            if negb (htlc_has h committed) then
              match htlc_resolved cs1 h with
              | Done cs2 => Done (Some cs2)
              | Aborted => Aborted
              end
            else Done (Some cs1)
        end
    end
  else Done cstate.

(** One row of the [htlcs] table, already turned into an HTLC (with its
    [r] when the column is not NULL). *)
Definition load_htlc (st : loading) (h : htlc) : outcome loading :=
  match state h with
  | HTLC_STATE_INVALID => Aborted     (* fatal("load_peer_htlcs:invalid state %s") *)
  | _ =>
      let counter :=
        match htlc_owner h with
        | LOCAL => if htlc_id_counter st <=? htlc_id h
                   then wrap64 (htlc_id h + 1) else htlc_id_counter st
        | REMOTE => htlc_id_counter st
        end in
      match replay_htlc HTLC_LOCAL_F_WAS_COMMITTED HTLC_LOCAL_F_COMMITTED
                        (local_cstate st) h with
      | Aborted => Aborted
      | Done l =>
          match replay_htlc HTLC_REMOTE_F_WAS_COMMITTED HTLC_REMOTE_F_COMMITTED
                            (remote_cstate st) h with
          | Aborted => Aborted
          | Done r' => Done {| local_cstate := l; remote_cstate := r';
                               htlc_id_counter := counter |}
          end
      end
  end.

(** We rebuild cstate by running every HTLC through. *)
Fixpoint load_htlcs (st : loading) (rows : list htlc) : outcome loading :=
  match rows with
  | [] => Done st
  | h :: rest =>
      match load_htlc st h with
      | Done st' => load_htlcs st' rest
      | Aborted => Aborted
      end
  end.

(** [load_peer_htlcs], as far as the channel states and the id counter go:
    [funder] is [peer->local.offer_anchor == CMD_OPEN_WITH_ANCHOR ? OURS :
    THEIRS]; the counter was set to 0 by [db_load_peers].  The result of
    [initial_cstate] is not tested: after the loop each commitment is rebuilt
    from its cstate, [copy_cstate] duplicates it into the staging cstate and
    the log line reads the copy, so with a NULL cstate the process dies on the
    NULL pointer instead of returning. *)
Definition load_peer_htlcs (anchor_satoshis local_fee_rate remote_fee_rate : Z)
    (funder : channel_side) (rows : list htlc) : outcome loaded :=
  match Channel.initial_cstate anchor_satoshis local_fee_rate funder,
        Channel.initial_cstate anchor_satoshis remote_fee_rate funder with
  | Done l, Done r' =>
      match load_htlcs {| local_cstate := l; remote_cstate := r';
                          htlc_id_counter := 0 |} rows with
      | Done st =>
          match local_cstate st, remote_cstate st with
          | Some lcs, Some rcs =>
              Done {| local_commit_cstate := lcs;
                      remote_commit_cstate := rcs;
                      local_staging_cstate := copy_cstate lcs;
                      remote_staging_cstate := copy_cstate rcs;
                      loaded_htlc_id_counter := htlc_id_counter st |}
          | _, _ => Aborted     (* a NULL cstate is dereferenced *)
          end
      | Aborted => Aborted
      end
  | _, _ => Aborted
  end.

End Load.

End Restore.

(** The HTLCs a replayed commitment still holds. *)
Definition in_commitment (htlc_has : htlc -> Restore.htlc_flag -> bool)
    (was_committed committed : Restore.htlc_flag) (h : htlc) : bool :=
  htlc_has h was_committed && htlc_has h committed.

(** ** [daemon/dns.c]: resolve, then connect to the addresses in turn *)

Module Dns.

(** [struct netaddr] ([netaddr.h] is not among the sources): the fields
    [try_connect_one] reads. *)
Record netaddr := {
  na_type : Z;
  na_protocol : Z;
  addrlen : Z;
  sa_family : Z
}.

(** The pipe to the lookup child, whose connection has [reap_child] as its
    finish handler: still being read, closing after [start_connecting], or
    closed and the child reaped. *)
Inductive pipe_state := Reading | Closing | Reaped.

(** The connection [try_connect_one] opened, if any: in flight (its finish
    handler is [connect_failed]) or established ([connected] cleared the
    handler). *)
Inductive conn_state := NoConn | Connecting | Connected.

(** [struct dns_async], with the calls made to the caller's [init] and
    [fail] counted. *)
Record dns_async := {
  use : Z;                        (* size_t *)
  addresses : list netaddr;       (* addresses, num_addresses *)
  pipe : pipe_state;
  conn : conn_state;
  init_calls : nat;
  fail_calls : nat
}.

Section Engine.

(** [sizeof(a->saddr)] and whether [socket()] gives a descriptor for an
    address. *)
Variable saddr_size : Z.
Variable socket_opens : netaddr -> bool.

(** [if (--d->use == 0) d->fail(d->state, d->arg);] *)
Definition drop_use (d : dns_async) (p : pipe_state) (c : conn_state)
    (rest : list netaddr) : dns_async :=
  let use' := wrap64 (use d - 1) in
  {| use := use'; addresses := rest; pipe := p; conn := c;
     init_calls := init_calls d;
     fail_calls := if use' =? 0 then S (fail_calls d) else fail_calls d |}.

(** [try_connect_one]: the loop over the addresses left. *)
Fixpoint try_connect_loop (addrs : list netaddr) (d : dns_async) : dns_async :=
  match addrs with
  | [] =>
      (* We're out of things to try.  Fail. *)
      drop_use d (pipe d) NoConn []
  | a :: rest =>
      (* Consume that address. *)
      if saddr_size <? addrlen a then try_connect_loop rest d   (* logged *)
      else if socket_opens a then
        (* io_new_conn(d->state, fd, init_conn, d) *)
        {| use := use d; addresses := rest; pipe := pipe d; conn := Connecting;
           init_calls := init_calls d; fail_calls := fail_calls d |}
      else try_connect_loop rest d
  end.

Definition try_connect_one (d : dns_async) : dns_async :=
  try_connect_loop (addresses d) d.

(** [dns_resolve_and_connect_] once the child is forked. *)
Definition dns_resolve_and_connect : dns_async :=
  {| use := 1; addresses := []; pipe := Reading; conn := NoConn;
     init_calls := 0; fail_calls := 0 |}.

(** [read_addresses] then [start_connecting]: the addresses the child
    wrote have been read. *)
Definition start_connecting (addrs : list netaddr) (d : dns_async)
    : outcome dns_async :=
  match addrs with
  | [] => Aborted           (* assert(d->num_addresses) *)
  | _ :: _ =>
      (* reap_child and our connections can race: only last one should
         call fail. *)
      Done (try_connect_one
              {| use := wrap64 (use d + 1); addresses := addrs; pipe := Closing;
                 conn := conn d; init_calls := init_calls d;
                 fail_calls := fail_calls d |})
  end.

(** [connect_failed]: if this connection failed, try connecting to another
    address. *)
Definition connect_failed (d : dns_async) : dns_async := try_connect_one d.

(** [connected]: no longer need to try more connections; keep use count, so
    [reap_child] won't fail. *)
Definition connected (d : dns_async) : dns_async :=
  {| use := use d; addresses := addresses d; pipe := pipe d; conn := Connected;
     init_calls := S (init_calls d); fail_calls := fail_calls d |}.

(** [reap_child]: last user calls fail. *)
Definition reap_child (d : dns_async) : dns_async :=
  drop_use d Reaped (conn d) (addresses d).

(** What the event loop can do next: hand over the addresses read from
    the pipe, close the pipe's connection (after [start_connecting], or
    because the read failed), or finish the connection attempt in flight. *)
Inductive step : dns_async -> dns_async -> Prop :=
| step_resolved d addrs d' :
    pipe d = Reading -> start_connecting addrs d = Done d' -> step d d'
| step_reaped d :
    pipe d <> Reaped -> step d (reap_child d)
| step_connect_failed d :
    conn d = Connecting -> step d (connect_failed d)
| step_connected d :
    conn d = Connecting -> step d (connected d).

Inductive run : dns_async -> Prop :=
| run_start : run dns_resolve_and_connect
| run_step d d' : run d -> step d d' -> run d'.

End Engine.

Definition pipe_users (p : pipe_state) : Z :=
  match p with Reaped => 0 | _ => 1 end.

Definition conn_users (c : conn_state) : Z :=
  match c with NoConn => 0 | _ => 1 end.

(** The use count is the number of parties that may still report. *)
Record use_inv (d : dns_async) : Prop := {
  inv_use : use d = pipe_users (pipe d) + conn_users (conn d);
  inv_fail : fail_calls d = if use d =? 0 then 1%nat else 0%nat;
  inv_init : init_calls d = match conn d with Connected => 1%nat | _ => 0%nat end;
  inv_reading : pipe d = Reading -> conn d = NoConn
}.

End Dns.


(** ** Worked collaborators and instances *)

(** A reference locktime collaborator: absolute locktimes below
    500 000 000 are block heights and the rest are seconds; a [Locktime]
    with neither case set, or with a value outside its case's range, does
    not convert. *)
Definition ref_proto_to_abs_locktime (l : Packets.Locktime) : option Z :=
  match l with
  | Packets.LOCKTIME_NOT_SET => None
  | Packets.LOCKTIME_SECONDS s => if 500000000 <=? s then Some s else None
  | Packets.LOCKTIME_BLOCKS b => if b <? 500000000 then Some b else None
  end.

Definition ref_abs_locktime_is_seconds (l : Z) : bool := 500000000 <=? l.

Definition ref_abs_locktime_to_blocks (l : Z) : Z := l.

(** A stand-in for SHA-256 on 32-byte values (any function would do for the
    control flow): each byte is bumped by one. *)
Definition toy_sha256 (x : sha256_t) : sha256_t := map (fun b => (b + 1) mod 256) x.


Definition empty_shachain : Shachain.shachain :=
  {| Shachain.min_index := 0; Shachain.num_valid := 0;
     Shachain.known := replicate 65 zero_slot |}.

(** The 32-byte value holding "abc". *)
Definition abc_preimage : sha256_t := [97; 98; 99] ++ replicate 29 0.


Definition sample_peer : Packets.peer :=
  {| Packets.remote :=
       {| Packets.commit := {| Packets.commit_num := 1 |};
          Packets.next_revocation_hash := zero_hash;
          Packets.staging_cstate := scenario1_cstate |};
     Packets.their_prev_revocation_hash := Some (toy_sha256 abc_preimage);
     Packets.their_preimages := empty_shachain;
     Packets.htlcs := [] |}.


(** An ADD_HTLC of 1 msat whose expiry has neither case set. *)
Definition unset_expiry_add : Packets.UpdateAddHtlc :=
  {| Packets.u_id := 0; Packets.amount_msat := 1; Packets.r_hash := zero_hash;
     Packets.u_expiry := Packets.LOCKTIME_NOT_SET; Packets.route := [] |}.

(** A well-formed ADD_HTLC: 1000 msat expiring at block 1000. *)
Definition sample_add : Packets.UpdateAddHtlc :=
  {| Packets.u_id := 5; Packets.amount_msat := 1000; Packets.r_hash := zero_hash;
     Packets.u_expiry := Packets.LOCKTIME_BLOCKS 1000; Packets.route := [] |}.




Definition sample_inputs : list Permute.bitcoin_tx_input :=
  [ {| Permute.txid := replicate 32 2; Permute.index := 0;
       Permute.input_script := []; Permute.sequence_number := 0 |};
    {| Permute.txid := replicate 32 1; Permute.index := 1;
       Permute.input_script := [81]; Permute.sequence_number := 0 |};
    {| Permute.txid := replicate 32 1; Permute.index := 0;
       Permute.input_script := []; Permute.sequence_number := 7 |} ].

Definition sample_outputs : list Permute.bitcoin_tx_output :=
  [ {| Permute.amount := 5000; Permute.script := [118; 169] |};
    {| Permute.amount := 1000; Permute.script := [169; 20] |};
    {| Permute.amount := 1000; Permute.script := [169] |} ].

(** The ccan shachain after the preimages for indices 2^64-1, 2^64-2,
    2^64-3 and 2^64-4 have been added in that order: the last one replaces
    slot 0 and drops [num_valid] back to 1, leaving the 2^64-3 entry behind
    in slot 1. *)
Definition stale_shachain : Shachain.shachain :=
  {| Shachain.min_index := 2 ^ 64 - 4; Shachain.num_valid := 1;
     Shachain.known :=
       {| Shachain.index := 2 ^ 64 - 4; Shachain.hash := replicate 32 4 |}
       :: {| Shachain.index := 2 ^ 64 - 3; Shachain.hash := replicate 32 3 |}
       :: replicate 63 zero_slot |}.

(** The same chain with its unused slots zeroed. *)
Definition clean_shachain : Shachain.shachain :=
  {| Shachain.min_index := 2 ^ 64 - 4; Shachain.num_valid := 1;
     Shachain.known :=
       {| Shachain.index := 2 ^ 64 - 4; Shachain.hash := replicate 32 4 |}
       :: replicate 64 zero_slot |}.

Definition idle_db : Db.db (list Db.statement) :=
  {| Db.in_transaction := false; Db.sql := [] |}.


(** A chain that claims 66 valid slots, one more than there are. *)
Definition overfull_shachain : Shachain.shachain :=
  {| Shachain.min_index := 0; Shachain.num_valid := 66;
     Shachain.known := replicate 65 zero_slot |}.

(** The blob [linearize_shachain] writes for [clean_shachain]. *)
Definition clean_blob : list Z :=
  match Shachain.linearize_shachain clean_shachain with
  | Done blob => blob
  | Aborted => []
  end.





(** A stand-in for [htlc_has]: every row is committed on both sides. *)
Definition all_committed (h : htlc) (f : Restore.htlc_flag) : bool := true.

(** The lookup of a name with one address that has failed to connect,
    after the child was reaped. *)
Definition failed_lookup : Dns.dns_async :=
  {| Dns.use := 0; Dns.addresses := []; Dns.pipe := Dns.Reaped; Dns.conn := Dns.NoConn;
     Dns.init_calls := 0; Dns.fail_calls := 1 |}.

Definition sample_netaddr : Dns.netaddr :=
  {| Dns.na_type := 1; Dns.na_protocol := 6; Dns.addrlen := 16; Dns.sa_family := 2 |}.


(** * Properties *)

(** ** Channel arithmetic *)

Section ChannelArithmetic.
Import Channel.

Lemma wrap32_small z : 0 <= z < 2 ^ 32 -> wrap32 z = z.
Proof. intros; unfold wrap32; apply Z.mod_small; lia. Qed.
Lemma wrap64_small z : 0 <= z < 2 ^ 64 -> wrap64 z = z.
Proof. intros; unfold wrap64; apply Z.mod_small; lia. Qed.
Lemma wrap32_range z : u32 (wrap32 z).
Proof. unfold u32, wrap32; apply Z.mod_pos_bound; lia. Qed.
Lemma wrap64_range z : u64 (wrap64 z).
Proof. unfold u64, wrap64; apply Z.mod_pos_bound; lia. Qed.

Ltac unwrap :=
  repeat match goal with
    | |- context [wrap32 ?z] => rewrite (wrap32_small z) by lia
    | |- context [wrap64 ?z] => rewrite (wrap64_small z) by lia
    end.

Ltac solve_ok :=
  unfold oneside_ok;
  cbn [set_num_htlcs set_pay_msat pay_msat fee_msat num_htlcs];
  repeat split;
  first [apply wrap32_range | unfold u32 in *; lia | assumption].

Lemma pay_fee_spec s fee :
  u32 (pay_msat s) -> 0 <= fee_msat s -> fee_msat s + pay_msat s < 2 ^ 32 -> u64 fee ->
  let paid := Z.min (pay_msat s) fee in
  pay_fee s fee =
    ({| pay_msat := pay_msat s - paid; fee_msat := fee_msat s + paid;
        num_htlcs := num_htlcs s |}, fee - paid).
Proof.
  unfold u32, u64, pay_fee; intros Hp Hf Hs Hfee; cbv zeta.
  destruct (Z.leb_spec fee (pay_msat s)).
  - rewrite Z.min_r by lia. unwrap. f_equal; try lia; f_equal; lia.
  - rewrite Z.min_l by lia. unwrap. f_equal; try lia; f_equal; lia.
Qed.

Lemma recalculate_fees_spec a b fee :
  oneside_ok a -> oneside_ok b -> u64 fee ->
  let A := wrap32 (pay_msat a + fee_msat a) in
  let B := wrap32 (pay_msat b + fee_msat b) in
  let h := fee / 2 in
  let pa := Z.min A (h + Z.max 0 (h - B)) in
  let pb := Z.min B (h + Z.max 0 (h - A)) in
  recalculate_fees a b fee =
    ({| pay_msat := A - pa; fee_msat := pa; num_htlcs := num_htlcs a |},
     {| pay_msat := B - pb; fee_msat := pb; num_htlcs := num_htlcs b |}).
Proof.
  intros Ha Hb Hfee. cbv zeta.
  pose proof (wrap32_range (pay_msat a + fee_msat a)) as HA.
  pose proof (wrap32_range (pay_msat b + fee_msat b)) as HB.
  set (A := wrap32 (pay_msat a + fee_msat a)) in *.
  set (B := wrap32 (pay_msat b + fee_msat b)) in *.
  unfold u32, u64 in *.
  assert (Hh : 0 <= fee / 2 < 2 ^ 63) by (split; [apply Z.div_pos|apply Z.div_lt_upper_bound]; lia).
  set (h := fee / 2) in *.
  unfold recalculate_fees. fold A B h.
  rewrite (pay_fee_spec _ h); cbn [pay_msat fee_msat num_htlcs]; unfold u32, u64; try lia.
  rewrite (pay_fee_spec {| pay_msat := B |} h); cbn [pay_msat fee_msat num_htlcs]; unfold u32, u64; try lia.
  rewrite wrap64_small by lia.
  rewrite (pay_fee_spec _ (h - Z.min A h + (h - Z.min B h))); cbn [pay_msat fee_msat num_htlcs]; unfold u32, u64; try lia.
  rewrite (pay_fee_spec {| pay_msat := B - Z.min B h |}); cbn [pay_msat fee_msat num_htlcs]; unfold u32, u64; try lia.
  f_equal; f_equal; lia.
Qed.

Lemma recalculate_fees_totals a b fee a' b' :
  oneside_ok a -> oneside_ok b -> u64 fee ->
  recalculate_fees a b fee = (a', b') ->
  oneside_ok a' /\ oneside_ok b' /\
  pay_msat a' + fee_msat a' = wrap32 (pay_msat a + fee_msat a) /\
  pay_msat b' + fee_msat b' = wrap32 (pay_msat b + fee_msat b) /\
  num_htlcs a' = num_htlcs a /\ num_htlcs b' = num_htlcs b.
Proof.
  intros Ha Hb Hfee Hr.
  rewrite recalculate_fees_spec in Hr by assumption.
  pose proof (wrap32_range (pay_msat a + fee_msat a)) as HA.
  pose proof (wrap32_range (pay_msat b + fee_msat b)) as HB.
  assert (Hh : 0 <= fee / 2) by (apply Z.div_pos; unfold u64 in *; lia).
  injection Hr as <- <-. unfold oneside_ok, u32 in *. cbn [pay_msat fee_msat num_htlcs].
  repeat split; try tauto; lia.
Qed.

Lemma calculate_fee_msat_range n r : u64 (calculate_fee_msat n r).
Proof. apply wrap64_range. Qed.

Lemma wrap32_sub_add x m f :
  0 <= x + f - m < 2 ^ 32 -> wrap32 (wrap32 (x - m) + f) = x + f - m.
Proof.
  intros H. unfold wrap32. rewrite Zplus_mod_idemp_l.
  replace (x - m + f) with (x + f - m) by lia. apply Z.mod_small; lia.
Qed.

Lemma change_funding_spec anchor_sat rate m a b n :
  oneside_ok a -> oneside_ok b ->
  0 <= anchor_sat * 1000 < 2 ^ 32 ->
  pay_msat a + fee_msat a + pay_msat b + fee_msat b <= anchor_sat * 1000 ->
  - 2 ^ 63 <= m < 2 ^ 63 ->
  (m <= 0 -> pay_msat a + fee_msat a + pay_msat b + fee_msat b - m <= anchor_sat * 1000) ->
  change_funding anchor_sat rate m a b n =
    if (0 <? m) && (pay_msat a + fee_msat a <? m + calculate_fee_msat n rate / 2)
    then Done (false, (a, b))
    else Done (true, recalculate_fees (set_pay_msat a (wrap32 (pay_msat a - m))) b
                       (calculate_fee_msat n rate)).
Proof.
  intros Ha Hb Hanchor Hsum Hm Hneg.
  unfold change_funding.
  pose proof (calculate_fee_msat_range n rate) as Hfee.
  set (fee := calculate_fee_msat n rate) in *.
  assert (Hh : 0 <= fee / 2 < 2 ^ 63)
    by (unfold u64 in Hfee; split; [apply Z.div_pos|apply Z.div_lt_upper_bound]; lia).
  destruct Ha as (Hap & Haf & Hah), Hb as (Hbp & Hbf & Hbh). unfold u32 in *.
  rewrite (wrap32_small (pay_msat a + fee_msat a)) by lia.
  destruct (Z.ltb_spec 0 m) as [Hpos|Hnp]; cbn [andb].
  - rewrite (wrap64_small (m + fee / 2)) by lia.
    destruct (Z.ltb_spec (pay_msat a + fee_msat a) (m + fee / 2)) as [Hlt|Hge]; [reflexivity|].
    destruct (recalculate_fees _ b fee) as [a2 b2] eqn:Hr.
    apply recalculate_fees_totals in Hr;
      [|first [exact Hfee | unfold oneside_ok, set_pay_msat; cbn [pay_msat fee_msat num_htlcs]; repeat split; first [apply wrap32_range | unfold u32; lia]]..].
    destruct Hr as ((?&?&?) & (?&?&?) & Ha2 & Hb2 & _). cbn [pay_msat fee_msat set_pay_msat] in Ha2.
    rewrite wrap32_sub_add in Ha2 by lia. rewrite wrap32_small in Hb2 by lia.
    unfold funds32, u32 in *. unwrap.
    replace (_ =? _) with true; [reflexivity|symmetry; apply Z.eqb_eq; lia].
  - specialize (Hneg Hnp).
    destruct (recalculate_fees _ b fee) as [a2 b2] eqn:Hr.
    apply recalculate_fees_totals in Hr;
      [|first [exact Hfee | unfold oneside_ok, set_pay_msat; cbn [pay_msat fee_msat num_htlcs]; repeat split; first [apply wrap32_range | unfold u32; lia]]..].
    destruct Hr as ((?&?&?) & (?&?&?) & Ha2 & Hb2 & _). cbn [pay_msat fee_msat set_pay_msat] in Ha2.
    rewrite wrap32_sub_add in Ha2 by lia. rewrite wrap32_small in Hb2 by lia.
    unfold funds32, u32 in *. unwrap.
    replace (_ =? _) with true; [reflexivity|symmetry; apply Z.eqb_eq; lia].
Qed.

Section ChannelInvariant.
Variable is_dust : Z -> bool.

Lemma htlcs_msat_nonneg hs : Forall htlc_ok hs -> 0 <= htlcs_msat hs.
Proof. induction 1 as [|h t Hh _ IH]; cbn [htlcs_msat]; unfold htlc_ok in *; lia. Qed.

Lemma htlcs_msat_app l1 l2 : htlcs_msat (l1 ++ l2) = htlcs_msat l1 + htlcs_msat l2.
Proof. induction l1 as [|h t IH]; cbn [htlcs_msat app]; lia. Qed.

Lemma count_where_app p l1 l2 :
  count_where p (l1 ++ l2) = count_where p l1 + count_where p l2.
Proof. induction l1 as [|h t IH]; cbn [count_where app]; lia. Qed.

Lemma count_where_bounds p l : 0 <= count_where p l <= Z.of_nat (length l).
Proof. induction l as [|h t IH]; cbn [count_where length]; [lia|destruct (p h); lia]. Qed.

Lemma to_int64_small m : 0 <= m < 2 ^ 63 -> to_int64 m = m.
Proof.
  intros H. unfold to_int64. rewrite wrap64_small by lia.
  destruct (Z.leb_spec (2 ^ 63) m); lia.
Qed.

Lemma to_int64_neg m : 0 <= m < 2 ^ 63 -> to_int64 (- m) = - m.
Proof.
  intros H. unfold to_int64, wrap64.
  destruct (Z.eq_dec m 0) as [->|Hne]; [reflexivity|].
  replace (- m) with (2 ^ 64 - m + (-1) * 2 ^ 64) by lia.
  rewrite Z.mod_add by lia. rewrite Z.mod_small by lia.
  destruct (Z.leb_spec (2 ^ 63) (2 ^ 64 - m)); lia.
Qed.

Lemma side_sum cs c :
  pay_msat (side cs c) + fee_msat (side cs c)
  + pay_msat (side cs (other_side c)) + fee_msat (side cs (other_side c)) = funds cs.
Proof. destruct c; unfold funds; cbn; lia. Qed.

Lemma side_ok cs hs c : cstate_inv is_dust cs hs -> oneside_ok (side cs c).
Proof. intros []; destruct c; assumption. Qed.

Lemma inv_anchor_msat cs hs : cstate_inv is_dust cs hs -> 0 <= anchor cs * 1000 < 2 ^ 32.
Proof. intros [Ha _ _ _ _ _ _]. change (2 ^ 32 / 1000) with 4294967 in Ha. lia. Qed.

Lemma cstate_add_htlc_spec cs hs h :
  cstate_inv is_dust cs hs -> htlc_ok h ->
  let c := htlc_channel_side h in
  let fee := calculate_fee_msat (nondust_after_add is_dust cs h) (fee_rate cs) in
  cstate_add_htlc is_dust cs h =
    if (0 <? msatoshis h)
       && (pay_msat (side cs c) + fee_msat (side cs c) <? msatoshis h + fee / 2)
    then Done (false, cs)
    else
      let '(a', b') := recalculate_fees
                         (set_pay_msat (side cs c) (wrap32 (pay_msat (side cs c) - msatoshis h)))
                         (side cs (other_side c)) fee in
      Done (true,
            set_num_nondust
              (set_side (set_side cs (other_side c) b') c
                        (set_num_htlcs a' (wrap32 (num_htlcs a' + 1))))
              (wrap32 (nondust_after_add is_dust cs h))).
Proof.
  intros Hinv Hh. cbv zeta. unfold cstate_add_htlc.
  pose proof (inv_anchor_msat _ _ Hinv) as Hanchor.
  pose proof (htlcs_msat_nonneg _ (inv_htlcs _ _ _ Hinv)) as Hnn.
  pose proof (inv_funds _ _ _ Hinv) as Hfunds.
  assert (Hnd : u32 (num_nondust cs)) by (rewrite (inv_nondust _ _ _ Hinv); apply wrap32_range).
  replace (if is_dust (msatoshis h / 1000) then num_nondust cs else wrap64 (num_nondust cs + 1))
    with (nondust_after_add is_dust cs h)
    by (unfold nondust_after_add, u32 in *; destruct (is_dust _); [|rewrite wrap64_small by lia]; reflexivity).
  rewrite to_int64_small by exact Hh.
  unfold htlc_ok in Hh.
  rewrite change_funding_spec;
    [|first [eapply side_ok; eassumption | rewrite ?side_sum; lia ]..].
  destruct (_ && _); [reflexivity|].
  destruct (recalculate_fees _ _ _) as [a' b']. reflexivity.
Qed.

Lemma recalc_after_transfer a b m fee a' b' :
  oneside_ok a -> oneside_ok b -> u64 fee ->
  0 <= pay_msat a + fee_msat a - m < 2 ^ 32 ->
  pay_msat b + fee_msat b < 2 ^ 32 ->
  recalculate_fees (set_pay_msat a (wrap32 (pay_msat a - m))) b fee = (a', b') ->
  oneside_ok a' /\ oneside_ok b' /\
  pay_msat a' + fee_msat a' = pay_msat a + fee_msat a - m /\
  pay_msat b' + fee_msat b' = pay_msat b + fee_msat b /\
  num_htlcs a' = num_htlcs a /\ num_htlcs b' = num_htlcs b.
Proof.
  intros Ha Hb Hfee Hra Hrb Hr.
  apply recalculate_fees_totals in Hr; [|try assumption..].
  - destruct Hr as (Ha' & Hb' & Hsa & Hsb & Hna & Hnb).
    cbn [set_pay_msat pay_msat fee_msat num_htlcs] in *.
    rewrite wrap32_sub_add in Hsa by lia.
    destruct Hb as (Hbp & Hbf & _); unfold u32 in *.
    rewrite wrap32_small in Hsb by lia. tauto.
  - destruct Ha as (_ & ? & ?). repeat split; cbn [set_pay_msat pay_msat fee_msat num_htlcs];
      first [apply wrap32_range | unfold u32 in *; lia].
Qed.

Lemma wrap32_idemp_add x y : wrap32 (wrap32 x + y) = wrap32 (x + y).
Proof. unfold wrap32. apply Zplus_mod_idemp_l. Qed.

Lemma cstate_add_htlc_inv cs hs h cs' :
  cstate_inv is_dust cs hs -> htlc_ok h ->
  cstate_add_htlc is_dust cs h = Done (true, cs') ->
  cstate_inv is_dust cs' (h :: hs).
Proof.
  intros Hinv Hh Hadd.
  rewrite (cstate_add_htlc_spec cs hs h Hinv Hh) in Hadd. cbv zeta in Hadd.
  pose proof (inv_anchor_msat _ _ Hinv) as Hanchor.
  pose proof (htlcs_msat_nonneg _ (inv_htlcs _ _ _ Hinv)) as Hnn.
  pose proof (inv_funds _ _ _ Hinv) as Hfunds.
  pose proof (side_sum cs (htlc_channel_side h)) as Hsum.
  pose proof (side_ok cs hs (htlc_channel_side h) Hinv) as Hoa.
  pose proof (side_ok cs hs (other_side (htlc_channel_side h)) Hinv) as Hob.
  pose proof (inv_num _ _ _ Hinv OURS) as HnO.
  pose proof (inv_num _ _ _ Hinv THEIRS) as HnT.
  pose proof (inv_nondust _ _ _ Hinv) as Hnd.
  pose proof (inv_anchor _ _ _ Hinv) as Han.
  destruct (_ && _) eqn:Hchk in Hadd; [discriminate|].
  destruct (recalculate_fees _ _ _) as [a' b'] eqn:Hr.
  injection Hadd as <-.
  assert (Hroom : 0 <= pay_msat (side cs (htlc_channel_side h))
                       + fee_msat (side cs (htlc_channel_side h)) - msatoshis h).
  { apply andb_false_iff in Hchk. unfold htlc_ok in Hh.
    pose proof (calculate_fee_msat_range (nondust_after_add is_dust cs h) (fee_rate cs)) as Hf.
    assert (0 <= calculate_fee_msat (nondust_after_add is_dust cs h) (fee_rate cs) / 2)
      by (apply Z.div_pos; unfold u64 in Hf; lia).
    destruct Hoa as (? & ? & _). unfold u32 in *.
    destruct Hchk as [Hc|Hc]; [apply Z.ltb_ge in Hc|apply Z.ltb_ge in Hc]; lia. }
  pose proof Hoa as Hoa'. pose proof Hob as Hob'.
  destruct Hoa' as (? & ? & ?), Hob' as (? & ? & ?). unfold u32, htlc_ok in *.
  apply recalc_after_transfer in Hr;
    [|first [assumption | apply calculate_fee_msat_range | unfold u32; lia]..].
  destruct Hr as (Ha' & Hb' & Hsa & Hsb & Hna & Hnb).
  destruct Ha' as (? & ? & ?), Hb' as (? & ? & ?). unfold u32 in *.
  unfold funds in *.
  destruct (htlc_channel_side h) eqn:Hc; cbn [side other_side] in *.
  - split; cbn [anchor side_ours side_theirs num_nondust set_num_nondust set_side
                 set_num_htlcs pay_msat fee_msat num_htlcs htlcs_msat funds]; try assumption.
    + solve_ok.
    + solve_ok.
    + unfold funds; cbn [side_ours side_theirs set_num_nondust set_side set_num_htlcs
                           pay_msat fee_msat anchor]. lia.
    + constructor; [exact Hh|apply (inv_htlcs _ _ _ Hinv)].
    + cbn [count_where].
      assert (Hn : nondust is_dust h = negb (is_dust (msatoshis h / 1000))) by reflexivity.
      rewrite Hn. unfold nondust_after_add. rewrite Hnd.
      destruct (is_dust _); cbn [negb]; rewrite ?wrap32_idemp_add;
        [unfold wrap32; rewrite Z.mod_mod by lia; reflexivity|f_equal; lia].
    + intros s. cbn [count_where]. unfold on_side at 1. rewrite Hc.
      destruct s; cbn [side channel_side_eqb side_ours side_theirs set_num_nondust
                         set_side set_num_htlcs num_htlcs].
      * rewrite Hna, HnO. rewrite wrap32_idemp_add. f_equal; lia.
      * rewrite Hnb, HnT. reflexivity.
  - split; cbn [anchor side_ours side_theirs num_nondust set_num_nondust set_side
                 set_num_htlcs pay_msat fee_msat num_htlcs htlcs_msat funds]; try assumption.
    + solve_ok.
    + solve_ok.
    + unfold funds; cbn [side_ours side_theirs set_num_nondust set_side set_num_htlcs
                           pay_msat fee_msat anchor]. lia.
    + constructor; [exact Hh|apply (inv_htlcs _ _ _ Hinv)].
    + cbn [count_where].
      assert (Hn : nondust is_dust h = negb (is_dust (msatoshis h / 1000))) by reflexivity.
      rewrite Hn. unfold nondust_after_add. rewrite Hnd.
      destruct (is_dust _); cbn [negb]; rewrite ?wrap32_idemp_add;
        [unfold wrap32; rewrite Z.mod_mod by lia; reflexivity|f_equal; lia].
    + intros s. cbn [count_where]. unfold on_side at 1. rewrite Hc.
      destruct s; cbn [side channel_side_eqb side_ours side_theirs set_num_nondust
                         set_side set_num_htlcs num_htlcs].
      * rewrite Hnb, HnO. reflexivity.
      * rewrite Hna, HnT. rewrite wrap32_idemp_add. f_equal; lia.
Qed.

Lemma remove_htlc_unfold cs hs1 h hs2 ben :
  cstate_inv is_dust cs (hs1 ++ h :: hs2) ->
  remove_htlc is_dust cs (htlc_channel_side h) ben h =
    if negb (is_dust (msatoshis h / 1000)) && negb (0 <? num_nondust cs) then Aborted
    else
      let '(a, b) := recalculate_fees
                       (set_pay_msat (side cs ben)
                                     (wrap32 (pay_msat (side cs ben) - - msatoshis h)))
                       (side cs (other_side ben))
                       (calculate_fee_msat (nondust_after_remove is_dust cs h) (fee_rate cs)) in
      let cs1 := set_side (set_side cs ben a) (other_side ben) b in
      let c := htlc_channel_side h in
      if 0 <? num_htlcs (side cs1 c) then
        Done (set_num_nondust
                (set_side cs1 c (set_num_htlcs (side cs1 c)
                                               (wrap32 (num_htlcs (side cs1 c) - 1))))
                (wrap32 (nondust_after_remove is_dust cs h)))
      else Aborted.
Proof.
  intros Hinv. unfold remove_htlc. fold (nondust_after_remove is_dust cs h).
  destruct (_ && _); [reflexivity|].
  pose proof (inv_anchor_msat _ _ Hinv) as Hanchor.
  pose proof (inv_htlcs _ _ _ Hinv) as Hall.
  apply Forall_app in Hall as [H1 H2]. apply Forall_cons_1 in H2 as [Hh H2].
  pose proof (htlcs_msat_nonneg _ H1). pose proof (htlcs_msat_nonneg _ H2).
  pose proof (inv_funds _ _ _ Hinv) as Hfunds.
  rewrite htlcs_msat_app in Hfunds. cbn [htlcs_msat] in Hfunds.
  unfold htlc_ok in Hh.
  rewrite (to_int64_small (msatoshis h)) by exact Hh.
  rewrite to_int64_neg by exact Hh.
  rewrite change_funding_spec;
    [|first [eapply side_ok; eassumption | rewrite ?side_sum; lia ]..].
  replace (0 <? - msatoshis h) with false by (symmetry; apply Z.ltb_ge; lia).
  cbn [andb]. destruct (recalculate_fees _ _ _) as [a b]. reflexivity.
Qed.

Lemma wrap32_idemp_sub x y : wrap32 (wrap32 x - y) = wrap32 (x - y).
Proof. unfold wrap32. apply Zminus_mod_idemp_l. Qed.

Lemma wrap32_idemp x : wrap32 (wrap32 x) = wrap32 x.
Proof. unfold wrap32. apply Z.mod_mod. lia. Qed.

Lemma remove_htlc_inv cs hs1 h hs2 ben cs' :
  cstate_inv is_dust cs (hs1 ++ h :: hs2) ->
  remove_htlc is_dust cs (htlc_channel_side h) ben h = Done cs' ->
  cstate_inv is_dust cs' (hs1 ++ hs2).
Proof.
  intros Hinv Hrem.
  rewrite (remove_htlc_unfold cs hs1 h hs2 ben Hinv) in Hrem.
  pose proof (inv_anchor_msat _ _ Hinv) as Hanchor.
  pose proof (inv_htlcs _ _ _ Hinv) as Hall.
  apply Forall_app in Hall as [H1 H2]. apply Forall_cons_1 in H2 as [Hh H2].
  pose proof (htlcs_msat_nonneg _ H1). pose proof (htlcs_msat_nonneg _ H2).
  pose proof (inv_funds _ _ _ Hinv) as Hfunds.
  rewrite htlcs_msat_app in Hfunds. cbn [htlcs_msat] in Hfunds.
  pose proof (side_sum cs ben) as Hsum.
  pose proof (side_ok cs _ ben Hinv) as Hoa.
  pose proof (side_ok cs _ (other_side ben) Hinv) as Hob.
  pose proof (inv_num _ _ _ Hinv OURS) as HnO.
  pose proof (inv_num _ _ _ Hinv THEIRS) as HnT.
  pose proof (inv_nondust _ _ _ Hinv) as Hnd.
  pose proof (inv_anchor _ _ _ Hinv) as Han.
  rewrite !count_where_app in HnO, HnT, Hnd. cbn [count_where] in HnO, HnT, Hnd.
  assert (Hn : nondust is_dust h = negb (is_dust (msatoshis h / 1000))) by reflexivity.
  rewrite Hn in Hnd.
  assert (Hndr : u32 (num_nondust cs)) by (rewrite Hnd; apply wrap32_range).
  destruct (_ && _) eqn:Hchk in Hrem; [discriminate|].
  destruct (recalculate_fees _ _ _) as [a b] eqn:Hr. cbv zeta in Hrem.
  destruct (0 <? _) eqn:Hpos in Hrem; [|discriminate].
  injection Hrem as <-.
  pose proof Hoa as Hoa'. pose proof Hob as Hob'.
  destruct Hoa' as (? & ? & ?), Hob' as (? & ? & ?). unfold u32, htlc_ok in *.
  apply recalc_after_transfer in Hr;
    [|first [assumption | apply calculate_fee_msat_range | unfold u32; lia]..].
  destruct Hr as (Ha' & Hb' & Hsa & Hsb & Hna & Hnb).
  pose proof Ha' as (? & ? & ?). pose proof Hb' as (? & ? & ?). unfold u32 in *.
  assert (Hnd' : wrap32 (nondust_after_remove is_dust cs h) = wrap32 (count_where (nondust is_dust) (hs1 ++ hs2))).
  { rewrite count_where_app. unfold nondust_after_remove.
    destruct (is_dust _); cbn [negb andb] in *.
    - rewrite Hnd, wrap32_idemp. f_equal; lia.
    - apply negb_false_iff, Z.ltb_lt in Hchk. rewrite wrap64_small by lia.
      rewrite Hnd, wrap32_idemp_sub. f_equal; lia. }
  unfold funds in *. apply Z.ltb_lt in Hpos.
  unfold on_side in HnO, HnT.
  destruct ben, (htlc_channel_side h) eqn:Hc;
    cbn [side other_side set_side side_ours side_theirs channel_side_eqb
         set_num_htlcs num_htlcs] in *;
    (split; cbn [anchor side_ours side_theirs num_nondust set_num_nondust set_side
                 set_num_htlcs pay_msat fee_msat num_htlcs funds];
     [ assumption
     | solve_ok
     | solve_ok
     | unfold funds; cbn [side_ours side_theirs set_num_nondust set_side set_num_htlcs
                          pay_msat fee_msat anchor]; rewrite htlcs_msat_app; lia
     | apply Forall_app; split; assumption
     | exact Hnd'
     | intros s; rewrite count_where_app; unfold on_side;
       destruct s; cbn [side channel_side_eqb side_ours side_theirs set_num_nondust
                          set_side set_num_htlcs num_htlcs];
       rewrite ?Hc; cbn [channel_side_eqb];
       first [ rewrite Hna | rewrite Hnb ];
       first [ rewrite HnO | rewrite HnT ];
       rewrite ?wrap32_idemp_sub; f_equal; lia ]).
Qed.

Lemma remove_htlc_returns cs hs1 h hs2 ben :
  cstate_inv is_dust cs (hs1 ++ h :: hs2) ->
  Z.of_nat (length (hs1 ++ h :: hs2)) < 2 ^ 32 ->
  exists cs', remove_htlc is_dust cs (htlc_channel_side h) ben h = Done cs'.
Proof.
  intros Hinv Hlen.
  rewrite (remove_htlc_unfold cs hs1 h hs2 ben Hinv).
  pose proof (inv_anchor_msat _ _ Hinv) as Hanchor.
  pose proof (inv_htlcs _ _ _ Hinv) as Hall.
  apply Forall_app in Hall as [H1 H2]. apply Forall_cons_1 in H2 as [Hh H2].
  pose proof (htlcs_msat_nonneg _ H1). pose proof (htlcs_msat_nonneg _ H2).
  pose proof (inv_funds _ _ _ Hinv) as Hfunds.
  rewrite htlcs_msat_app in Hfunds. cbn [htlcs_msat] in Hfunds.
  pose proof (side_sum cs ben) as Hsum.
  pose proof (side_ok cs _ ben Hinv) as Hoa.
  pose proof (side_ok cs _ (other_side ben) Hinv) as Hob.
  pose proof (inv_num _ _ _ Hinv (htlc_channel_side h)) as Hnc.
  pose proof (inv_nondust _ _ _ Hinv) as Hnd.
  pose proof (count_where_bounds (nondust is_dust) (hs1 ++ h :: hs2)) as Hb1.
  pose proof (count_where_bounds (on_side (htlc_channel_side h)) (hs1 ++ h :: hs2)) as Hb2.
  pose proof (count_where_bounds (nondust is_dust) hs1).
  pose proof (count_where_bounds (nondust is_dust) hs2).
  pose proof (count_where_bounds (on_side (htlc_channel_side h)) hs1).
  pose proof (count_where_bounds (on_side (htlc_channel_side h)) hs2).
  rewrite !count_where_app in Hnc, Hnd, Hb1, Hb2. cbn [count_where] in Hnc, Hnd, Hb1, Hb2.
  assert (Hn : nondust is_dust h = negb (is_dust (msatoshis h / 1000))) by reflexivity.
  rewrite Hn in Hnd, Hb1.
  assert (Hs : on_side (htlc_channel_side h) h = true)
    by (unfold on_side; destruct (htlc_channel_side h); reflexivity).
  rewrite Hs in Hnc, Hb2.
  rewrite wrap32_small in Hnc by lia.
  replace (negb (is_dust (msatoshis h / 1000)) && negb (0 <? num_nondust cs)) with false.
  2:{ symmetry. destruct (is_dust _); cbn [negb andb] in *; [reflexivity|].
      rewrite wrap32_small in Hnd by lia. apply negb_false_iff, Z.ltb_lt. lia. }
  destruct (recalculate_fees _ _ _) as [a b] eqn:Hr. cbv zeta.
  pose proof Hoa as Hoa'. pose proof Hob as Hob'.
  destruct Hoa' as (? & ? & ?), Hob' as (? & ? & ?). unfold u32, htlc_ok in *.
  apply recalc_after_transfer in Hr;
    [|first [assumption | apply calculate_fee_msat_range | unfold u32; lia]..].
  destruct Hr as (_ & _ & _ & _ & Hna & Hnb).
  replace (0 <? _) with true; [eexists; reflexivity|].
  symmetry; apply Z.ltb_lt.
  destruct ben, (htlc_channel_side h);
    cbn [side other_side set_side side_ours side_theirs] in *; lia.
Qed.

Lemma adjust_fee_inv cs hs r :
  cstate_inv is_dust cs hs -> cstate_inv is_dust (adjust_fee cs r) hs.
Proof.
  intros Hinv. unfold adjust_fee.
  pose proof (inv_anchor_msat _ _ Hinv) as Hanchor.
  pose proof (htlcs_msat_nonneg _ (inv_htlcs _ _ _ Hinv)) as Hnn.
  pose proof (inv_funds _ _ _ Hinv) as Hfunds.
  pose proof (inv_ours _ _ _ Hinv) as Hoa.
  pose proof (inv_theirs _ _ _ Hinv) as Hob.
  pose proof (inv_num _ _ _ Hinv OURS) as HnO.
  pose proof (inv_num _ _ _ Hinv THEIRS) as HnT.
  cbn [side] in *.
  destruct (recalculate_fees _ _ _) as [a b] eqn:Hr.
  apply recalculate_fees_totals in Hr;
    [|first [assumption | apply calculate_fee_msat_range]..].
  destruct Hr as (Ha' & Hb' & Hsa & Hsb & Hna & Hnb).
  pose proof Hoa as (? & ? & ?). pose proof Hob as (? & ? & ?).
  unfold funds, u32 in *.
  rewrite wrap32_small in Hsa, Hsb by lia.
  split; cbn [anchor side_ours side_theirs num_nondust set_side]; try assumption.
  - apply (inv_anchor _ _ _ Hinv).
  - unfold funds; cbn [side_ours side_theirs set_side anchor]. lia.
  - apply (inv_htlcs _ _ _ Hinv).
  - apply (inv_nondust _ _ _ Hinv).
  - intros s; destruct s; cbn [side side_ours side_theirs set_side]; congruence.
Qed.
End ChannelInvariant.

Lemma calculate_fee_msat_even n r : 2 * (calculate_fee_msat n r / 2) = calculate_fee_msat n r.
Proof.
  assert (Hk : exists k, calculate_fee_msat n r = k * 2).
  { unfold calculate_fee_msat. set (y := fee_by_feerate _ _). unfold wrap64.
    pose proof (Z.div_mod (y * 1000) (2 ^ 64) ltac:(lia)) as Hdm.
    exists (y * 500 - 2 ^ 63 * (y * 1000 / 2 ^ 64)). lia. }
  destruct Hk as [k ->]. rewrite Z.div_mul by lia. lia.
Qed.

Lemma initial_cstate_spec a r f :
  0 <= a ->
  initial_cstate a r f =
    if 2 ^ 32 / 1000 <=? a then Done None
    else if a * 1000 <? calculate_fee_msat 0 r then Done None
    else Done (Some (expected_initial a r f)).
Proof.
  intros Ha. unfold initial_cstate.
  destruct (Z.leb_spec (2 ^ 32 / 1000) a) as [|Hlt]; [reflexivity|].
  change (2 ^ 32 / 1000) with 4294967 in Hlt.
  rewrite (wrap64_small (a * 1000)) by lia.
  pose proof (calculate_fee_msat_range 0 r) as Hfee.
  pose proof (calculate_fee_msat_even 0 r) as Heven.
  set (fee := calculate_fee_msat 0 r) in *. unfold u64 in Hfee.
  destruct (Z.ltb_spec (a * 1000) fee) as [|Hle]; [reflexivity|].
  rewrite (wrap32_small (a * 1000 - fee)), (wrap32_small fee) by lia.
  rewrite change_funding_spec;
    [|unfold zero_oneside, oneside_ok, u32; cbn [pay_msat fee_msat num_htlcs];
      repeat split; intros; lia..].
  cbn [andb Z.ltb Z.compare]. fold fee.
  rewrite recalculate_fees_spec;
    [|first [ exact (calculate_fee_msat_range 0 r)
            | unfold set_pay_msat, zero_oneside, oneside_ok;
              cbn [pay_msat fee_msat num_htlcs]; repeat split;
              first [apply wrap32_range | unfold u32; lia] ]..].
  cbn [set_pay_msat zero_oneside pay_msat fee_msat num_htlcs].
  rewrite Z.sub_0_r, Z.add_0_l. rewrite (wrap32_small 0) by lia.
  rewrite (wrap32_small (a * 1000 - fee)) by lia.
  rewrite (wrap32_small (a * 1000 - fee + fee)) by lia.
  assert (Hh : 0 <= fee / 2) by (apply Z.div_pos; lia).
  replace (Z.min (a * 1000 - fee + fee) (fee / 2 + Z.max 0 (fee / 2 - 0))) with fee by lia.
  replace (Z.min 0 (fee / 2 + Z.max 0 (fee / 2 - (a * 1000 - fee + fee)))) with 0 by lia.
  rewrite !Z.eqb_refl. cbn [andb].
  unfold expected_initial. fold fee.
  replace (a * 1000 - fee + fee - fee) with (a * 1000 - fee) by lia.
  reflexivity.
Qed.

Section Reachability.
Variable is_dust : Z -> bool.

Lemma expected_initial_inv a r f :
  0 <= a < 2 ^ 32 / 1000 -> calculate_fee_msat 0 r <= a * 1000 ->
  cstate_inv is_dust (expected_initial a r f) [].
Proof.
  intros Ha Hfee. pose proof (calculate_fee_msat_range 0 r) as Hr. unfold u64 in Hr.
  assert (a * 1000 < 2 ^ 32) by (change (2 ^ 32 / 1000) with 4294967 in Ha; lia).
  unfold expected_initial.
  destruct f; split;
    cbn [set_side other_side anchor side_ours side_theirs num_nondust funds
         htlcs_msat count_where side];
    try (unfold zero_oneside, oneside_ok, u32; cbn [pay_msat fee_msat num_htlcs];
         repeat split; lia);
    try (unfold funds, zero_oneside; cbn [side_ours side_theirs pay_msat fee_msat]; lia);
    try constructor; try reflexivity;
    try (intros s; destruct s; reflexivity).
Qed.

Lemma reachable_inv cs hs : reachable is_dust cs hs -> cstate_inv is_dust cs hs.
Proof.
  induction 1 as [a r f cs Ha Hr Hi|cs hs h cs' _ IH Hh Hadd
                 |cs hs1 h hs2 cs' _ IH Hrem|cs hs1 h hs2 cs' _ IH Hrem
                 |cs hs r _ IH Hr].
  - unfold u64 in Ha. rewrite initial_cstate_spec in Hi by lia.
    destruct (Z.leb_spec (2 ^ 32 / 1000) a); [discriminate|].
    destruct (Z.ltb_spec (a * 1000) (calculate_fee_msat 0 r)); [discriminate|].
    injection Hi as <-. apply expected_initial_inv; lia.
  - eapply cstate_add_htlc_inv; eassumption.
  - eapply remove_htlc_inv; eassumption.
  - eapply remove_htlc_inv; eassumption.
  - apply adjust_fee_inv; assumption.
Qed.
End Reachability.

Ltac scenario1_reach :=
  apply (reach_initial _ 1000000 50000 OURS); [unfold u64; lia | unfold u64; lia | reflexivity].

Ltac scenario2_reach :=
  apply (reach_add _ scenario1_cstate [] scenario_htlc);
  [scenario1_reach | unfold htlc_ok, scenario_htlc; cbn [msatoshis]; lia | reflexivity].

(** C1 (amended): in every state reached from [initial_cstate] by
    successful [cstate_add_htlc] of HTLCs below 2^63 msat, by fulfilling or
    failing HTLCs that are in the channel, and by [adjust_fee], the sum of
    [pay_msat] and [fee_msat] over both sides plus the value of the HTLCs in
    the channel equals [anchor_satoshis * 1000]. *)
Theorem anchor_conservation (is_dust : Z -> bool) cs hs :
  reachable is_dust cs hs ->
  funds cs + htlcs_msat hs = anchor cs * 1000.
Proof. intros H. apply reachable_inv in H. apply (inv_funds _ _ _ H). Qed.

Lemma anchor_conservation_witness :
  funds scenario2_cstate + htlcs_msat [scenario_htlc] = anchor scenario2_cstate * 1000.
Proof. apply (anchor_conservation dust_546). scenario2_reach. Defined.

Lemma anchor_conservation_ignoring_htlcs_fails :
  ~ (forall cs hs, reachable dust_546 cs hs -> funds cs = anchor cs * 1000).
Proof.
  intros H. specialize (H scenario2_cstate [scenario_htlc]).
  assert (Hr : reachable dust_546 scenario2_cstate [scenario_htlc]) by scenario2_reach.
  specialize (H Hr). vm_compute in H. discriminate H.
Qed.

(** C2 (amended): for [n] non-dust HTLCs and fee rate [r] whose product
    [(338 + 32 n) * r] fits in 64 bits, the commitment fee in milli-satoshi is
    [((338 + 32 n) * r / 2000 * 2) * 1000] with truncating division; for
    [n = 0], [r = 50000] it is 16 900 000, and the initial state of a
    1 000 000 satoshi anchor gives the funder 983 100 000 / 16 900 000 and
    the fundee 0 / 0. *)
Theorem fee_formula n r :
  0 <= n -> 0 <= r -> (338 + 32 * n) * r < 2 ^ 64 ->
  calculate_fee_msat n r = (338 + 32 * n) * r / 2000 * 2 * 1000
  /\ calculate_fee_msat 0 50000 = 16900000
  /\ forall f, exists cs,
       initial_cstate 1000000 50000 f = Done (Some cs)
       /\ side cs f = {| pay_msat := 983100000; fee_msat := 16900000; num_htlcs := 0 |}
       /\ side cs (other_side f) = {| pay_msat := 0; fee_msat := 0; num_htlcs := 0 |}.
Proof.
  intros Hn Hr Hbound. split; [|split; [reflexivity|]].
  - unfold calculate_fee_msat, fee_by_feerate.
    destruct (Z.eq_dec r 0) as [->|Hr0].
    + rewrite !Z.mul_0_r. reflexivity.
    + assert (338 + 32 * n < 2 ^ 64) by nia.
      rewrite (wrap64_small (338 + 32 * n)) by lia.
      set (x := (338 + 32 * n) * r) in *.
      assert (0 <= x) by (unfold x; nia).
      rewrite (wrap64_small x) by lia.
      pose proof (Z.mul_div_le x 2000 ltac:(lia)).
      assert (0 <= x / 2000) by (apply Z.div_pos; lia).
      rewrite (wrap64_small (x / 2000 * 2)) by lia.
      apply wrap64_small. lia.
  - intros f; destruct f; eexists; (split; [reflexivity|split; reflexivity]).
Qed.

Lemma fee_formula_witness :
  calculate_fee_msat 1 50000 = (338 + 32 * 1) * 50000 / 2000 * 2 * 1000.
Proof. apply (fee_formula 1 50000); lia. Defined.

Lemma fee_formula_overflow :
  calculate_fee_msat 0 (2 ^ 63) = 0
  /\ calculate_fee_msat 0 (2 ^ 63) <> (338 + 32 * 0) * 2 ^ 63 / 2000 * 2 * 1000
  /\ calculate_fee_msat (2 ^ 32 - 1) (2 ^ 32 - 1)
     <> (338 + 32 * (2 ^ 32 - 1)) * (2 ^ 32 - 1) / 2000 * 2 * 1000.
Proof. split; [reflexivity|split; vm_compute; discriminate]. Qed.

(** C8 (amended): [initial_cstate] returns no state exactly when
    [anchor_satoshis * 1000] is below the fee for zero HTLCs or
    [anchor_satoshis] is at least 2^32 / 1000 (4 294 967); otherwise it
    returns a state without HTLCs in which the funder holds
    [anchor_satoshis * 1000] minus the fee and pays the whole fee, and the
    fundee holds nothing. *)
Theorem initial_cstate_outcome a r f :
  u64 a ->
  let fee := calculate_fee_msat 0 r in
  (initial_cstate a r f = Done None <-> (a * 1000 < fee \/ 2 ^ 32 / 1000 <= a))
  /\ (~ (a * 1000 < fee \/ 2 ^ 32 / 1000 <= a) ->
      exists cs,
        initial_cstate a r f = Done (Some cs)
        /\ anchor cs = a
        /\ num_nondust cs = 0
        /\ num_htlcs (side cs f) = 0 /\ num_htlcs (side cs (other_side f)) = 0
        /\ pay_msat (side cs f) = a * 1000 - fee
        /\ fee_msat (side cs f) = fee
        /\ pay_msat (side cs (other_side f)) = 0
        /\ fee_msat (side cs (other_side f)) = 0).
Proof.
  intros Ha. cbv zeta. unfold u64 in Ha.
  rewrite initial_cstate_spec by lia.
  pose proof (calculate_fee_msat_range 0 r) as Hfee. unfold u64 in Hfee.
  destruct (Z.leb_spec (2 ^ 32 / 1000) a) as [Hge|Hlt].
  - split; [split; [right; assumption|reflexivity]|]. intros Hn; exfalso; apply Hn; right; assumption.
  - destruct (Z.ltb_spec (a * 1000) (calculate_fee_msat 0 r)) as [Hl|Hg].
    + split; [split; [left; assumption|reflexivity]|]. intros Hn; exfalso; apply Hn; left; assumption.
    + split.
      * split; [discriminate|]. intros [?|?]; lia.
      * intros _. eexists; split; [reflexivity|].
        unfold expected_initial; destruct f; cbn; repeat split; reflexivity.
Qed.

Lemma initial_cstate_outcome_witness :
  exists cs,
    initial_cstate 1000000 50000 OURS = Done (Some cs)
    /\ anchor cs = 1000000
    /\ num_nondust cs = 0
    /\ num_htlcs (side cs OURS) = 0 /\ num_htlcs (side cs THEIRS) = 0
    /\ pay_msat (side cs OURS) = 1000000 * 1000 - calculate_fee_msat 0 50000
    /\ fee_msat (side cs OURS) = calculate_fee_msat 0 50000
    /\ pay_msat (side cs THEIRS) = 0
    /\ fee_msat (side cs THEIRS) = 0.
Proof.
  apply (initial_cstate_outcome 1000000 50000 OURS).
  - unfold u64; lia.
  - change (calculate_fee_msat 0 50000) with 16900000.
    change (2 ^ 32 / 1000) with 4294967. lia.
Defined.

Lemma initial_cstate_boundary_rejected :
  initial_cstate 4294967 0 OURS = Done None
  /\ ~ (4294967 * 1000 < calculate_fee_msat 0 0 \/ 2 ^ 32 / 1000 < 4294967)
  /\ ~ (2 ^ 32 < 4294967 * 1000).
Proof.
  split; [reflexivity|split].
  - change (calculate_fee_msat 0 0) with 0.
    change (2 ^ 32 / 1000) with 4294967. lia.
  - lia.
Qed.

(** C3: recalculating fees folds each side's fee back into its payable
    balance ([A], [B]); each side then pays [fee / 2], a side that cannot
    pays its whole balance, and its shortfall is charged to the other side,
    which pays at most what it has left.  Adding a non-dust HTLC of
    100 000 satoshi from the funder to the scenario-1 state leaves the funder
    881 500 000 / 18 500 000 and the fundee 0 / 0. *)
Theorem fee_sharing (is_dust : Z -> bool) a b fee :
  oneside_ok a -> oneside_ok b -> u64 fee ->
  is_dust 100000 = false ->
  (let A := wrap32 (pay_msat a + fee_msat a) in
   let B := wrap32 (pay_msat b + fee_msat b) in
   let half := fee / 2 in
   let paid_a := Z.min A (half + Z.max 0 (half - B)) in
   let paid_b := Z.min B (half + Z.max 0 (half - A)) in
   recalculate_fees a b fee =
     ({| pay_msat := A - paid_a; fee_msat := paid_a; num_htlcs := num_htlcs a |},
      {| pay_msat := B - paid_b; fee_msat := paid_b; num_htlcs := num_htlcs b |}))
  /\ initial_cstate 1000000 50000 OURS = Done (Some scenario1_cstate)
  /\ cstate_add_htlc is_dust scenario1_cstate scenario_htlc = Done (true, scenario2_cstate).
Proof.
  intros Ha Hb Hfee Hdust. split; [|split].
  - apply recalculate_fees_spec; assumption.
  - reflexivity.
  - unfold cstate_add_htlc, scenario_htlc. cbn [msatoshis].
    change (100000000 / 1000) with 100000. rewrite Hdust. reflexivity.
Qed.

Lemma fee_sharing_witness :
  recalculate_fees {| pay_msat := 883100000; fee_msat := 16900000; num_htlcs := 0 |}
                   zero_oneside 18500000
  = ({| pay_msat := 881500000; fee_msat := 18500000; num_htlcs := 0 |}, zero_oneside)
  /\ cstate_add_htlc dust_546 scenario1_cstate scenario_htlc = Done (true, scenario2_cstate).
Proof.
  pose proof (fee_sharing dust_546
                {| pay_msat := 883100000; fee_msat := 16900000; num_htlcs := 0 |}
                zero_oneside 18500000) as H.
  destruct H as [H1 H2].
  - unfold oneside_ok, u32; cbn; lia.
  - unfold oneside_ok, u32; cbn; lia.
  - unfold u64; lia.
  - reflexivity.
  - split; [rewrite H1; reflexivity | apply H2].
Defined.

Lemma cstate_add_htlc_false_unchanged is_dust cs h cs' :
  cstate_add_htlc is_dust cs h = Done (false, cs') -> cs' = cs.
Proof.
  unfold cstate_add_htlc.
  destruct (change_funding _ _ _ _ _ _) as [[[] [a b]]|]; intros H;
    [discriminate H|injection H as <-; reflexivity|discriminate H].
Qed.

(** Where the amount fits [int64_t]: in a reachable state, for an HTLC of
    less than 2^63 msat, [cstate_add_htlc] returns false exactly when the
    amount is positive and the paying side's [pay_msat + fee_msat] is below
    the amount plus half the fee recomputed with the HTLC counted; it always
    returns; a false return leaves the state unchanged; and fulfilling or
    failing an HTLC that is in the channel returns (no assertion trips) while
    fewer than 2^32 HTLCs are in it. *)
Theorem add_htlc_affordability (is_dust : Z -> bool) cs hs h :
  reachable is_dust cs hs ->
  0 <= msatoshis h < 2 ^ 63 ->
  let payer := side cs (htlc_channel_side h) in
  let fee := calculate_fee_msat (nondust_after_add is_dust cs h) (fee_rate cs) in
  (cstate_add_htlc is_dust cs h = Done (false, cs)
   <-> 0 < msatoshis h /\ pay_msat payer + fee_msat payer < msatoshis h + fee / 2)
  /\ (exists ok cs', cstate_add_htlc is_dust cs h = Done (ok, cs'))
  /\ (forall cs', cstate_add_htlc is_dust cs h = Done (false, cs') -> cs' = cs)
  /\ (forall hs1 h' hs2,
        hs = hs1 ++ h' :: hs2 -> Z.of_nat (length hs) < 2 ^ 32 ->
        (exists cs', cstate_fulfill_htlc is_dust cs h' = Done cs')
        /\ (exists cs', cstate_fail_htlc is_dust cs h' = Done cs')).
Proof.
  intros Hreach Hh. cbv zeta. apply reachable_inv in Hreach.
  pose proof (cstate_add_htlc_spec is_dust cs hs h Hreach Hh) as Hspec. cbv zeta in Hspec.
  rewrite Hspec.
  repeat split.
  - destruct (Z.ltb_spec 0 (msatoshis h)); [assumption|]. cbn [andb] in H.
    destruct (recalculate_fees _ _ _); discriminate H.
  - destruct (0 <? msatoshis h); cbn [andb] in H.
    + destruct (Z.ltb_spec (pay_msat (side cs (htlc_channel_side h))
                            + fee_msat (side cs (htlc_channel_side h)))
                           (msatoshis h
                            + calculate_fee_msat (nondust_after_add is_dust cs h) (fee_rate cs) / 2));
        [assumption|]. destruct (recalculate_fees _ _ _); discriminate H.
    + destruct (recalculate_fees _ _ _); discriminate H.
  - intros [Hpos Hlt]. apply Z.ltb_lt in Hpos, Hlt. rewrite Hpos, Hlt. reflexivity.
  - destruct (_ && _); [eauto|]. destruct (recalculate_fees _ _ _); eauto.
  - intros cs' H. rewrite <- Hspec in H.
    eapply cstate_add_htlc_false_unchanged; eassumption.
  - subst hs. unfold cstate_fulfill_htlc. eapply remove_htlc_returns; eassumption.
  - subst hs. unfold cstate_fail_htlc. eapply remove_htlc_returns; eassumption.
Qed.

(** C4, at an amount the 64-bit field holds and [int64_t] does not: in the
    scenario-1 state the fundee holds nothing, far less than the 2^64 - 1
    msat of the HTLC it offers plus half the fee, and yet [cstate_add_htlc]
    returns true.  [change_funding] takes the amount as an [int64_t], reads
    -1, skips its test ([htlc_msat > 0]) and credits the fundee 1 msat, so that
    the two sides hold 1 msat more than the anchor. *)
Theorem add_htlc_beyond_int64_accepted :
  let cs := scenario1_cstate in
  let h := oversized_htlc_from_fundee in
  let payer := side cs (htlc_channel_side h) in
  let cs' := {| anchor := 1000000; fee_rate := 50000; num_nondust := 1;
                side_ours := {| pay_msat := 981500001; fee_msat := 18499999;
                                num_htlcs := 0 |};
                side_theirs := {| pay_msat := 0; fee_msat := 1; num_htlcs := 1 |} |} in
  reachable dust_546 cs []
  /\ pay_msat payer + fee_msat payer
     < msatoshis h + calculate_fee_msat (nondust_after_add dust_546 cs h) (fee_rate cs) / 2
  /\ cstate_add_htlc dust_546 cs h = Done (true, cs')
  /\ funds cs' = anchor cs' * 1000 + 1.
Proof.
  cbv zeta. split; [scenario1_reach|]. split; [|split]; vm_compute; reflexivity.
Qed.

(** ** The ledger the fee functions keep *)

Lemma half_fee_range fee : u64 fee -> 0 <= fee / 2 < 2 ^ 63.
Proof.
  unfold u64. intros H. split; [apply Z.div_pos|apply Z.div_lt_upper_bound]; lia.
Qed.

Lemma recalculate_fees_ledger a b fee a' b' :
  oneside_ok a -> oneside_ok b -> u64 fee ->
  side_total a < 2 ^ 32 -> side_total b < 2 ^ 32 ->
  recalculate_fees a b fee = (a', b') ->
  side_total a' = side_total a /\ side_total b' = side_total b
  /\ fee_msat a' + fee_msat b' = Z.min (side_total a + side_total b) (2 * (fee / 2))
  /\ (fee / 2 < fee_msat a' -> pay_msat b' = 0)
  /\ (fee / 2 < fee_msat b' -> pay_msat a' = 0).
Proof.
  intros Ha Hb Hfee HA HB Hr.
  rewrite recalculate_fees_spec in Hr by assumption.
  pose proof (half_fee_range fee Hfee) as Hh.
  destruct Ha as (? & ? & _), Hb as (? & ? & _). unfold side_total, u32 in *.
  rewrite (wrap32_small (pay_msat a + fee_msat a)) in Hr by lia.
  rewrite (wrap32_small (pay_msat b + fee_msat b)) in Hr by lia.
  injection Hr as <- <-. cbn [pay_msat fee_msat]. repeat split; lia.
Qed.

(** X1: [recalculate_fees] only moves money between a side's [pay_msat] and
    its own [fee_msat]: for two sides whose totals fit in 32 bits, each
    side's total is what it was, the two fees add up to the smaller of
    both totals and twice half the fee asked, and a side gives more than
    half the fee only when the other side is left with nothing to be paid. *)
Theorem recalculate_fees_collects a b fee a' b' :
  oneside_ok a -> oneside_ok b -> u64 fee ->
  side_total a < 2 ^ 32 -> side_total b < 2 ^ 32 ->
  recalculate_fees a b fee = (a', b') ->
  side_total a' = side_total a /\ side_total b' = side_total b
  /\ fee_msat a' + fee_msat b' = Z.min (side_total a + side_total b) (2 * (fee / 2))
  /\ (fee / 2 < fee_msat a' -> pay_msat b' = 0)
  /\ (fee / 2 < fee_msat b' -> pay_msat a' = 0).
Proof.
  intros Ha Hb Hfee HA HB Hr.
  rewrite recalculate_fees_spec in Hr by assumption.
  pose proof (half_fee_range fee Hfee) as Hh.
  destruct Ha as (? & ? & _), Hb as (? & ? & _). unfold side_total, u32 in *.
  rewrite (wrap32_small (pay_msat a + fee_msat a)) in Hr by lia.
  rewrite (wrap32_small (pay_msat b + fee_msat b)) in Hr by lia.
  injection Hr as <- <-. cbn [pay_msat fee_msat]. repeat split; lia.
Qed.

(** X2: [recalculate_fees] treats its two sides alike and settles at
    once: passing the sides in the other order gives the same two sides,
    and charging the same fee again on the result changes nothing. *)
Theorem recalculate_fees_settles a b fee a' b' :
  oneside_ok a -> oneside_ok b -> u64 fee ->
  recalculate_fees a b fee = (a', b') ->
  recalculate_fees b a fee = (b', a')
  /\ recalculate_fees a' b' fee = (a', b').
Proof.
  intros Ha Hb Hfee Hr.
  pose proof (recalculate_fees_totals a b fee a' b' Ha Hb Hfee Hr)
    as (Ha' & Hb' & Hsa & Hsb & Hna & Hnb).
  rewrite recalculate_fees_spec in Hr by assumption.
  rewrite !recalculate_fees_spec by assumption.
  pose proof (wrap32_range (pay_msat a + fee_msat a)) as HA.
  pose proof (wrap32_range (pay_msat b + fee_msat b)) as HB.
  rewrite Hsa, Hsb, Hna, Hnb, !wrap32_idemp.
  injection Hr as <- <-. split; reflexivity.
Qed.

(** X3: [force_fee], on a state whose funds fit in 32 bits, returns true
    exactly when the two sides together hold [fee * 1000] msat; it keeps each
    side's total and never writes the anchor, the fee rate or the non-dust
    count; on true the two fees add up to [fee * 1000]; on false, for a fee
    whose msat value fits in 64 bits, both sides are left with nothing to be
    paid; a fee above [UINT64_MAX / 1000] returns false and leaves the state
    as it was. *)
Theorem force_fee_outcome cs fee ok cs' :
  oneside_ok (side cs OURS) -> oneside_ok (side cs THEIRS) ->
  funds cs < 2 ^ 32 -> u64 fee ->
  force_fee cs fee = (ok, cs') ->
  (ok = true <-> fee * 1000 <= funds cs)
  /\ side_total (side cs' OURS) = side_total (side cs OURS)
  /\ side_total (side cs' THEIRS) = side_total (side cs THEIRS)
  /\ (ok = true ->
      fee_msat (side cs' OURS) + fee_msat (side cs' THEIRS) = fee * 1000)
  /\ (ok = false -> fee <= (2 ^ 64 - 1) / 1000 ->
      pay_msat (side cs' OURS) = 0 /\ pay_msat (side cs' THEIRS) = 0)
  /\ ((2 ^ 64 - 1) / 1000 < fee -> ok = false /\ cs' = cs)
  /\ anchor cs' = anchor cs /\ fee_rate cs' = fee_rate cs
  /\ num_nondust cs' = num_nondust cs.
Proof.
  intros Ha Hb Hfunds Hfee Hf. unfold force_fee in Hf.
  pose proof Ha as (Hap & Haf & _). pose proof Hb as (Hbp & Hbf & _).
  unfold funds, side_total, u32, u64 in *. cbn [side] in *.
  change ((2 ^ 64 - 1) / 1000) with 18446744073709551 in *.
  destruct (Z.ltb_spec 18446744073709551 fee) as [Hbig|Hsmall].
  - injection Hf as <- <-. repeat split; try reflexivity; try lia; try discriminate.
  - assert (Hu : u64 (fee * 1000)) by (unfold u64; lia).
    destruct (recalculate_fees _ _ _) as [a b] eqn:Hr.
    destruct (recalculate_fees_ledger _ _ _ _ _ Ha Hb Hu ltac:(unfold side_total; lia)
                ltac:(unfold side_total; lia) Hr) as (Hsa & Hsb & Hsum & _).
    pose proof (recalculate_fees_totals _ _ _ _ _ Ha Hb Hu Hr) as ((?&?&_) & (?&?&_) & _).
    unfold side_total, u32 in *.
    replace (2 * (fee * 1000 / 2)) with (fee * 1000) in Hsum
      by (replace (fee * 1000) with (fee * 500 * 2) by lia; rewrite Z.div_mul by lia; lia).
    injection Hf as <- <-.
    cbn [side set_side side_ours side_theirs anchor fee_rate num_nondust].
    rewrite (wrap32_small (fee_msat a + fee_msat b)) by lia.
    repeat split; try reflexivity; try lia.
Qed.

Lemma recalculate_fees_ext a b a2 b2 fee :
  oneside_ok a -> oneside_ok b -> oneside_ok a2 -> oneside_ok b2 -> u64 fee ->
  wrap32 (pay_msat a + fee_msat a) = wrap32 (pay_msat a2 + fee_msat a2) ->
  wrap32 (pay_msat b + fee_msat b) = wrap32 (pay_msat b2 + fee_msat b2) ->
  num_htlcs a = num_htlcs a2 -> num_htlcs b = num_htlcs b2 ->
  recalculate_fees a b fee = recalculate_fees a2 b2 fee.
Proof.
  intros Ha Hb Ha2 Hb2 Hfee HA HB Hna Hnb.
  rewrite !recalculate_fees_spec by assumption.
  rewrite HA, HB, Hna, Hnb. reflexivity.
Qed.

Lemma set_pay_msat_ok o p : oneside_ok o -> oneside_ok (set_pay_msat o (wrap32 p)).
Proof.
  intros (_ & ? & ?). unfold oneside_ok.
  cbn [set_pay_msat pay_msat fee_msat num_htlcs].
  split; [apply wrap32_range|split; assumption].
Qed.

Lemma set_side_both cs1 cs2 s x y :
  anchor cs1 = anchor cs2 -> fee_rate cs1 = fee_rate cs2 ->
  num_nondust cs1 = num_nondust cs2 ->
  set_side (set_side cs1 s x) (other_side s) y
  = set_side (set_side cs2 s x) (other_side s) y.
Proof.
  intros H1 H2 H3. destruct s; cbn [set_side other_side anchor fee_rate num_nondust
                                     side_ours side_theirs]; rewrite H1, H2, H3; reflexivity.
Qed.

Lemma set_side_both' cs1 cs2 s x y :
  anchor cs1 = anchor cs2 -> fee_rate cs1 = fee_rate cs2 ->
  num_nondust cs1 = num_nondust cs2 ->
  set_side (set_side cs1 (other_side s) x) s y
  = set_side (set_side cs2 (other_side s) x) s y.
Proof.
  intros H1 H2 H3. destruct s; cbn [set_side other_side anchor fee_rate num_nondust
                                     side_ours side_theirs]; rewrite H1, H2, H3; reflexivity.
Qed.

Section Ledger.
Variable is_dust : Z -> bool.

Lemma adjust_fee_fields cs r :
  anchor (adjust_fee cs r) = anchor cs
  /\ fee_rate (adjust_fee cs r) = fee_rate cs
  /\ num_nondust (adjust_fee cs r) = num_nondust cs.
Proof.
  unfold adjust_fee. destruct (recalculate_fees _ _ _) as [a b].
  repeat split.
Qed.

Lemma adjust_fee_sides cs hs r s :
  cstate_inv is_dust cs hs ->
  oneside_ok (side (adjust_fee cs r) s)
  /\ side_total (side (adjust_fee cs r) s) = side_total (side cs s)
  /\ num_htlcs (side (adjust_fee cs r) s) = num_htlcs (side cs s).
Proof.
  intros Hinv.
  pose proof (inv_anchor_msat _ _ _ Hinv) as Hanchor.
  pose proof (htlcs_msat_nonneg _ (inv_htlcs _ _ _ Hinv)) as Hnn.
  pose proof (inv_funds _ _ _ Hinv) as Hfunds.
  pose proof (inv_ours _ _ _ Hinv) as Hoa.
  pose proof (inv_theirs _ _ _ Hinv) as Hob.
  unfold adjust_fee. cbn [side].
  destruct (recalculate_fees _ _ _) as [a b] eqn:Hr.
  apply recalculate_fees_totals in Hr;
    [|first [assumption | apply calculate_fee_msat_range]..].
  destruct Hr as (Ha' & Hb' & Hsa & Hsb & Hna & Hnb).
  pose proof Hoa as (? & ? & ?). pose proof Hob as (? & ? & ?).
  unfold funds, u32, side_total in *.
  rewrite wrap32_small in Hsa, Hsb by lia.
  destruct s; cbn [side set_side side_ours side_theirs];
    (split; [assumption|split; [lia|assumption]]).
Qed.

End Ledger.

Section Ledger2.
Variable is_dust : Z -> bool.

Lemma wrap32_pay_shift o o2 m :
  side_total o2 = side_total o ->
  wrap32 (wrap32 (pay_msat o2 - m) + fee_msat o2)
  = wrap32 (wrap32 (pay_msat o - m) + fee_msat o).
Proof.
  unfold side_total. intros H. rewrite !wrap32_idemp_add. f_equal. lia.
Qed.

Lemma transfer_after_adjust cs hs r s m fee :
  cstate_inv is_dust cs hs -> u64 fee ->
  recalculate_fees
    (set_pay_msat (side (adjust_fee cs r) s)
                  (wrap32 (pay_msat (side (adjust_fee cs r) s) - m)))
    (side (adjust_fee cs r) (other_side s)) fee
  = recalculate_fees
      (set_pay_msat (side cs s) (wrap32 (pay_msat (side cs s) - m)))
      (side cs (other_side s)) fee.
Proof.
  intros Hinv Hfee.
  destruct (adjust_fee_sides is_dust cs hs r s Hinv) as (Ha & Hta & Hna).
  destruct (adjust_fee_sides is_dust cs hs r (other_side s) Hinv) as (Hb & Htb & Hnb).
  apply recalculate_fees_ext; try assumption.
  - apply set_pay_msat_ok; assumption.
  - apply set_pay_msat_ok. eapply side_ok; eassumption.
  - eapply side_ok; eassumption.
  - cbn [set_pay_msat pay_msat fee_msat]. apply wrap32_pay_shift; assumption.
  - unfold side_total in Htb. rewrite Htb. reflexivity.
Qed.

Lemma add_after_adjust cs hs h r :
  cstate_inv is_dust cs hs -> htlc_ok h ->
  cstate_add_htlc is_dust (adjust_fee cs r) h =
    match cstate_add_htlc is_dust cs h with
    | Done (false, _) => Done (false, adjust_fee cs r)
    | other => other
    end.
Proof.
  intros Hinv Hh.
  pose proof (adjust_fee_inv is_dust cs hs r Hinv) as Hinv'.
  rewrite (cstate_add_htlc_spec is_dust _ hs h Hinv' Hh).
  rewrite (cstate_add_htlc_spec is_dust cs hs h Hinv Hh). cbv zeta.
  destruct (adjust_fee_fields cs r) as (Han & Hrate & Hnd).
  destruct (adjust_fee_sides is_dust cs hs r (htlc_channel_side h) Hinv) as (_ & Hta & _).
  unfold nondust_after_add. rewrite Hrate, Hnd.
  unfold side_total in Hta. rewrite Hta.
  destruct (_ && _); [reflexivity|].
  rewrite (transfer_after_adjust cs hs r) by (assumption || apply calculate_fee_msat_range).
  destruct (recalculate_fees _ _ _) as [a' b'].
  rewrite (set_side_both' (adjust_fee cs r) cs) by assumption. reflexivity.
Qed.

Lemma remove_after_adjust cs hs1 h hs2 ben r :
  cstate_inv is_dust cs (hs1 ++ h :: hs2) ->
  remove_htlc is_dust (adjust_fee cs r) (htlc_channel_side h) ben h
  = remove_htlc is_dust cs (htlc_channel_side h) ben h.
Proof.
  intros Hinv.
  pose proof (adjust_fee_inv is_dust cs _ r Hinv) as Hinv'.
  rewrite (remove_htlc_unfold is_dust _ hs1 h hs2 ben Hinv').
  rewrite (remove_htlc_unfold is_dust cs hs1 h hs2 ben Hinv).
  destruct (adjust_fee_fields cs r) as (Han & Hrate & Hnd).
  unfold nondust_after_remove. rewrite Hrate, Hnd.
  destruct (_ && _); [reflexivity|].
  rewrite (transfer_after_adjust cs (hs1 ++ h :: hs2) r)
    by (assumption || apply calculate_fee_msat_range).
  destruct (recalculate_fees _ _ _) as [a b].
  rewrite (set_side_both (adjust_fee cs r) cs) by assumption. reflexivity.
Qed.

End Ledger2.

(** X4: [adjust_fee] does not store the rate it is given: on a reachable
    state, the next successful [cstate_add_htlc] of an HTLC of less than
    2^63 msat, and the next [cstate_fail_htlc] or [cstate_fulfill_htlc] of an
    HTLC in the channel, give the result they give without the [adjust_fee]
    before them, the fees being charged again at the stored [fee_rate]. *)
Theorem adjust_fee_forgotten (is_dust : Z -> bool) cs hs h r :
  reachable is_dust cs hs ->
  (htlc_ok h ->
   forall cs', cstate_add_htlc is_dust (adjust_fee cs r) h = Done (true, cs')
               <-> cstate_add_htlc is_dust cs h = Done (true, cs'))
  /\ (h ∈ hs ->
      cstate_fail_htlc is_dust (adjust_fee cs r) h = cstate_fail_htlc is_dust cs h
      /\ cstate_fulfill_htlc is_dust (adjust_fee cs r) h
         = cstate_fulfill_htlc is_dust cs h).
Proof.
  intros Hreach. apply reachable_inv in Hreach. split.
  - intros Hh cs'. rewrite (add_after_adjust is_dust cs hs h r Hreach Hh).
    destruct (cstate_add_htlc is_dust cs h) as [[[] ?]|]; split; congruence.
  - intros Hin. apply list_elem_of_split in Hin as (hs1 & hs2 & ->).
    unfold cstate_fail_htlc, cstate_fulfill_htlc.
    split; eapply remove_after_adjust; eassumption.
Qed.

Section Ledger3.
Variable is_dust : Z -> bool.

Lemma add_htlc_effect cs hs h cs' :
  cstate_inv is_dust cs hs -> htlc_ok h ->
  cstate_add_htlc is_dust cs h = Done (true, cs') ->
  let c := htlc_channel_side h in
  side_total (side cs' c) = side_total (side cs c) - msatoshis h
  /\ side_total (side cs' (other_side c)) = side_total (side cs (other_side c))
  /\ num_htlcs (side cs' c) = wrap32 (num_htlcs (side cs c) + 1)
  /\ num_htlcs (side cs' (other_side c)) = num_htlcs (side cs (other_side c))
  /\ anchor cs' = anchor cs /\ fee_rate cs' = fee_rate cs
  /\ num_nondust cs' = wrap32 (nondust_after_add is_dust cs h).
Proof.
  intros Hinv Hh Hadd. cbv zeta.
  rewrite (cstate_add_htlc_spec is_dust cs hs h Hinv Hh) in Hadd. cbv zeta in Hadd.
  pose proof (inv_anchor_msat _ _ _ Hinv) as Hanchor.
  pose proof (htlcs_msat_nonneg _ (inv_htlcs _ _ _ Hinv)) as Hnn.
  pose proof (inv_funds _ _ _ Hinv) as Hfunds.
  pose proof (side_sum cs (htlc_channel_side h)) as Hsum.
  pose proof (side_ok is_dust cs hs (htlc_channel_side h) Hinv) as Hoa.
  pose proof (side_ok is_dust cs hs (other_side (htlc_channel_side h)) Hinv) as Hob.
  destruct (_ && _) eqn:Hchk in Hadd; [discriminate|].
  destruct (recalculate_fees _ _ _) as [a' b'] eqn:Hr.
  injection Hadd as <-.
  assert (Hroom : 0 <= pay_msat (side cs (htlc_channel_side h))
                       + fee_msat (side cs (htlc_channel_side h)) - msatoshis h).
  { apply andb_false_iff in Hchk. unfold htlc_ok in Hh.
    pose proof (calculate_fee_msat_range (nondust_after_add is_dust cs h) (fee_rate cs)) as Hf.
    assert (0 <= calculate_fee_msat (nondust_after_add is_dust cs h) (fee_rate cs) / 2)
      by (apply Z.div_pos; unfold u64 in Hf; lia).
    destruct Hoa as (? & ? & _). unfold u32 in *.
    destruct Hchk as [Hc|Hc]; [apply Z.ltb_ge in Hc|apply Z.ltb_ge in Hc]; lia. }
  pose proof Hoa as Hoa'. pose proof Hob as Hob'.
  destruct Hoa' as (? & ? & ?), Hob' as (? & ? & ?). unfold u32, htlc_ok in *.
  apply recalc_after_transfer in Hr;
    [|first [assumption | apply calculate_fee_msat_range | unfold u32; lia]..].
  destruct Hr as (Ha' & Hb' & Hsa & Hsb & Hna & Hnb).
  unfold side_total.
  destruct (htlc_channel_side h);
    cbn [side other_side set_side set_num_nondust set_num_htlcs side_ours side_theirs
         pay_msat fee_msat num_htlcs anchor fee_rate num_nondust] in *;
    rewrite ?Hna; repeat split; try reflexivity; lia.
Qed.

Lemma remove_htlc_effect cs hs1 h hs2 ben cs' :
  cstate_inv is_dust cs (hs1 ++ h :: hs2) ->
  remove_htlc is_dust cs (htlc_channel_side h) ben h = Done cs' ->
  let c := htlc_channel_side h in
  side_total (side cs' ben) = side_total (side cs ben) + msatoshis h
  /\ side_total (side cs' (other_side ben)) = side_total (side cs (other_side ben))
  /\ num_htlcs (side cs' c) = num_htlcs (side cs c) - 1
  /\ num_htlcs (side cs' (other_side c)) = num_htlcs (side cs (other_side c))
  /\ anchor cs' = anchor cs /\ fee_rate cs' = fee_rate cs
  /\ num_nondust cs' = wrap32 (nondust_after_remove is_dust cs h).
Proof.
  intros Hinv Hrem. cbv zeta.
  rewrite (remove_htlc_unfold is_dust cs hs1 h hs2 ben Hinv) in Hrem.
  pose proof (inv_anchor_msat _ _ _ Hinv) as Hanchor.
  pose proof (inv_htlcs _ _ _ Hinv) as Hall.
  apply Forall_app in Hall as [H1 H2]. apply Forall_cons_1 in H2 as [Hh H2].
  pose proof (htlcs_msat_nonneg _ H1). pose proof (htlcs_msat_nonneg _ H2).
  pose proof (inv_funds _ _ _ Hinv) as Hfunds.
  rewrite htlcs_msat_app in Hfunds. cbn [htlcs_msat] in Hfunds.
  pose proof (side_sum cs ben) as Hsum.
  pose proof (side_ok is_dust cs _ ben Hinv) as Hoa.
  pose proof (side_ok is_dust cs _ (other_side ben) Hinv) as Hob.
  destruct (_ && _) eqn:Hchk in Hrem; [discriminate|].
  destruct (recalculate_fees _ _ _) as [a b] eqn:Hr. cbv zeta in Hrem.
  destruct (0 <? _) eqn:Hpos in Hrem; [|discriminate].
  injection Hrem as <-.
  pose proof Hoa as Hoa'. pose proof Hob as Hob'.
  destruct Hoa' as (? & ? & ?), Hob' as (? & ? & ?). unfold u32, htlc_ok in *.
  apply recalc_after_transfer in Hr;
    [|first [assumption | apply calculate_fee_msat_range | unfold u32; lia]..].
  destruct Hr as (Ha' & Hb' & Hsa & Hsb & Hna & Hnb).
  pose proof Ha' as (? & ? & ?). pose proof Hb' as (? & ? & ?). unfold u32 in *.
  apply Z.ltb_lt in Hpos. unfold side_total.
  destruct ben, (htlc_channel_side h);
    cbn [side other_side set_side set_num_nondust set_num_htlcs side_ours side_theirs
         pay_msat fee_msat num_htlcs anchor fee_rate num_nondust] in *;
    rewrite ?wrap32_small by lia; repeat split; try reflexivity; lia.
Qed.

End Ledger3.

Lemma recalculate_fees_swap a b fee a' b' :
  oneside_ok a -> oneside_ok b -> u64 fee ->
  recalculate_fees a b fee = (a', b') -> recalculate_fees b a fee = (b', a').
Proof.
  intros Ha Hb Hfee Hr.
  rewrite recalculate_fees_spec in Hr by assumption.
  rewrite recalculate_fees_spec by assumption.
  injection Hr as <- <-. reflexivity.
Qed.

Lemma recalculate_fees_idem a b fee a' b' :
  oneside_ok a -> oneside_ok b -> u64 fee ->
  recalculate_fees a b fee = (a', b') -> recalculate_fees a' b' fee = (a', b').
Proof.
  intros Ha Hb Hfee Hr.
  pose proof (recalculate_fees_totals a b fee a' b' Ha Hb Hfee Hr)
    as (Ha' & Hb' & Hsa & Hsb & Hna & Hnb).
  rewrite recalculate_fees_spec in Hr by assumption.
  rewrite recalculate_fees_spec by assumption.
  rewrite Hsa, Hsb, Hna, Hnb, !wrap32_idemp.
  injection Hr as <- <-. reflexivity.
Qed.

Lemma set_num_htlcs_ok o n : oneside_ok o -> u32 n -> oneside_ok (set_num_htlcs o n).
Proof. intros (? & ? & _) Hn. unfold oneside_ok. cbn. tauto. Qed.

Lemma recalculate_fees_num a b fee n a' b' :
  oneside_ok a -> oneside_ok b -> u64 fee -> u32 n ->
  recalculate_fees a b fee = (a', b') ->
  recalculate_fees (set_num_htlcs a n) b fee = (set_num_htlcs a' n, b').
Proof.
  intros Ha Hb Hfee Hn Hr.
  rewrite recalculate_fees_spec in Hr by assumption.
  rewrite recalculate_fees_spec by first [assumption | apply set_num_htlcs_ok; assumption].
  injection Hr as <- <-. reflexivity.
Qed.

Lemma set_num_htlcs_same o : set_num_htlcs o (num_htlcs o) = o.
Proof. destruct o; reflexivity. Qed.

Lemma set_num_htlcs_twice o n m : set_num_htlcs (set_num_htlcs o n) m = set_num_htlcs o m.
Proof. reflexivity. Qed.

Lemma recalculate_fees_fixed a b fee a' b' ka kb :
  oneside_ok a -> oneside_ok b -> u64 fee -> u32 ka -> u32 kb ->
  recalculate_fees a b fee = (a', b') ->
  recalculate_fees (set_num_htlcs a' ka) (set_num_htlcs b' kb) fee
  = (set_num_htlcs a' ka, set_num_htlcs b' kb).
Proof.
  intros Ha Hb Hfee Hka Hkb Hr.
  pose proof (recalculate_fees_totals a b fee a' b' Ha Hb Hfee Hr) as (Ha' & Hb' & _).
  pose proof (recalculate_fees_idem a b fee a' b' Ha Hb Hfee Hr) as H1.
  pose proof (recalculate_fees_num a' b' fee ka a' b' Ha' Hb' Hfee Hka H1) as H2.
  apply recalculate_fees_swap in H2; [|apply set_num_htlcs_ok; assumption|assumption..].
  pose proof (recalculate_fees_num b' (set_num_htlcs a' ka) fee kb _ _ Hb'
                (set_num_htlcs_ok _ _ Ha' Hka) Hfee Hkb H2) as H3.
  apply recalculate_fees_swap in H3;
    [exact H3|apply set_num_htlcs_ok; assumption..|assumption].
Qed.

Lemma adjust_fee_fixed cs' c a b a' b' ka kb :
  oneside_ok a -> oneside_ok b -> u32 ka -> u32 kb ->
  recalculate_fees a b (calculate_fee_msat (num_nondust cs') (fee_rate cs')) = (a', b') ->
  side cs' c = set_num_htlcs a' ka -> side cs' (other_side c) = set_num_htlcs b' kb ->
  adjust_fee cs' (fee_rate cs') = cs'.
Proof.
  intros Ha Hb Hka Hkb Hr Hc Ho.
  pose proof (calculate_fee_msat_range (num_nondust cs') (fee_rate cs')) as Hfee.
  pose proof (recalculate_fees_totals a b _ a' b' Ha Hb Hfee Hr) as (Ha' & Hb' & _).
  pose proof (recalculate_fees_fixed a b _ a' b' ka kb Ha Hb Hfee Hka Hkb Hr) as Hfix.
  pose proof (set_num_htlcs_ok a' ka Ha' Hka) as Hoka.
  pose proof (set_num_htlcs_ok b' kb Hb' Hkb) as Hokb.
  unfold adjust_fee. destruct c; cbn [side other_side] in Hc, Ho; cbn [side].
  - rewrite Hc, Ho, Hfix, <- Hc, <- Ho. destruct cs'; reflexivity.
  - apply recalculate_fees_swap in Hfix; [|assumption..].
    rewrite Hc, Ho, Hfix, <- Hc, <- Ho. destruct cs'; reflexivity.
Qed.

Lemma adjust_fee_ext cs1 cs2 r :
  oneside_ok (side cs1 OURS) -> oneside_ok (side cs1 THEIRS) ->
  oneside_ok (side cs2 OURS) -> oneside_ok (side cs2 THEIRS) ->
  anchor cs1 = anchor cs2 -> fee_rate cs1 = fee_rate cs2 ->
  num_nondust cs1 = num_nondust cs2 ->
  (forall s, side_total (side cs1 s) = side_total (side cs2 s)
             /\ num_htlcs (side cs1 s) = num_htlcs (side cs2 s)) ->
  adjust_fee cs1 r = adjust_fee cs2 r.
Proof.
  intros H1o H1t H2o H2t Ha Hr Hn Hs. unfold adjust_fee. rewrite Hn.
  destruct (Hs OURS) as [Hto Hno]. destruct (Hs THEIRS) as [Htt Hnt].
  unfold side_total in *.
  rewrite (recalculate_fees_ext (side cs1 OURS) (side cs1 THEIRS)
             (side cs2 OURS) (side cs2 THEIRS));
    try assumption; try apply calculate_fee_msat_range; try (f_equal; assumption).
  destruct (recalculate_fees _ _ _) as [a b].
  apply (set_side_both cs1 cs2 OURS a b); assumption.
Qed.

Section Settled.
Variable is_dust : Z -> bool.

Lemma inv_nondust_small cs hs :
  cstate_inv is_dust cs hs -> Z.of_nat (length hs) < 2 ^ 32 ->
  num_nondust cs = count_where (nondust is_dust) hs
  /\ forall s, num_htlcs (side cs s) = count_where (on_side s) hs.
Proof.
  intros Hinv Hlen. split; [|intros s].
  - rewrite (inv_nondust _ _ _ Hinv). apply wrap32_small.
    pose proof (count_where_bounds (nondust is_dust) hs). lia.
  - rewrite (inv_num _ _ _ Hinv s). apply wrap32_small.
    pose proof (count_where_bounds (on_side s) hs). lia.
Qed.

Lemma add_settled cs hs h cs' :
  cstate_inv is_dust cs hs -> htlc_ok h -> Z.of_nat (length hs) < 2 ^ 32 - 1 ->
  cstate_add_htlc is_dust cs h = Done (true, cs') ->
  adjust_fee cs' (fee_rate cs') = cs'.
Proof.
  intros Hinv Hh Hlen Hadd.
  rewrite (cstate_add_htlc_spec is_dust cs hs h Hinv Hh) in Hadd. cbv zeta in Hadd.
  destruct (_ && _) in Hadd; [discriminate|].
  destruct (recalculate_fees _ _ _) as [a' b'] eqn:Hr.
  injection Hadd as <-.
  destruct (inv_nondust_small cs hs Hinv ltac:(lia)) as [Hnd _].
  pose proof (count_where_bounds (nondust is_dust) hs) as Hb.
  assert (Hsmall : wrap32 (nondust_after_add is_dust cs h) = nondust_after_add is_dust cs h).
  { apply wrap32_small. unfold nondust_after_add. destruct (is_dust _); lia. }
  pose proof (side_ok is_dust cs hs (htlc_channel_side h) Hinv) as Hoa.
  pose proof (side_ok is_dust cs hs (other_side (htlc_channel_side h)) Hinv) as Hob.
  pose proof (recalculate_fees_totals _ _ _ _ _
                (set_pay_msat_ok _ (pay_msat (side cs (htlc_channel_side h)) - msatoshis h) Hoa)
                Hob (calculate_fee_msat_range _ _) Hr) as (_ & (_ & _ & Hnb) & _).
  match type of Hr with
  | recalculate_fees ?x ?y _ = _ =>
      apply (adjust_fee_fixed _ (htlc_channel_side h) x y a' b'
               (wrap32 (num_htlcs a' + 1)) (num_htlcs b'))
  end.
  - apply set_pay_msat_ok. exact Hoa.
  - exact Hob.
  - apply wrap32_range.
  - exact Hnb.
  - cbn [num_nondust fee_rate set_num_nondust]. rewrite Hsmall.
    replace (fee_rate (set_side _ _ _)) with (fee_rate cs)
      by (destruct (htlc_channel_side h); reflexivity).
    exact Hr.
  - destruct (htlc_channel_side h); reflexivity.
  - rewrite set_num_htlcs_same. destruct (htlc_channel_side h); reflexivity.
Qed.

Lemma remove_settled cs hs1 h hs2 ben cs' :
  cstate_inv is_dust cs (hs1 ++ h :: hs2) ->
  remove_htlc is_dust cs (htlc_channel_side h) ben h = Done cs' ->
  adjust_fee cs' (fee_rate cs') = cs'.
Proof.
  intros Hinv Hrem.
  rewrite (remove_htlc_unfold is_dust cs hs1 h hs2 ben Hinv) in Hrem.
  destruct (_ && _) eqn:Hchk in Hrem; [discriminate|].
  destruct (recalculate_fees _ _ _) as [a b] eqn:Hr. cbv zeta in Hrem.
  destruct (0 <? _) eqn:Hpos in Hrem; [|discriminate].
  injection Hrem as <-.
  assert (Hndr : u32 (num_nondust cs)) by (rewrite (inv_nondust _ _ _ Hinv); apply wrap32_range).
  assert (Hsmall : wrap32 (nondust_after_remove is_dust cs h)
                   = nondust_after_remove is_dust cs h).
  { apply wrap32_small. unfold nondust_after_remove, u32 in *.
    destruct (is_dust _); cbn [negb andb] in Hchk; [lia|].
    apply negb_false_iff, Z.ltb_lt in Hchk. rewrite wrap64_small by lia. lia. }
  pose proof (side_ok is_dust cs _ ben Hinv) as Hoa.
  pose proof (side_ok is_dust cs _ (other_side ben) Hinv) as Hob.
  pose proof (recalculate_fees_totals _ _ _ _ _
                (set_pay_msat_ok _ (pay_msat (side cs ben) - - msatoshis h) Hoa)
                Hob (calculate_fee_msat_range _ _) Hr) as ((_ & _ & Hna) & (_ & _ & Hnb) & _).
  match goal with |- adjust_fee ?s _ = _ => set (cs' := s) end.
  match type of Hr with
  | recalculate_fees ?x ?y _ = _ =>
      apply (adjust_fee_fixed cs' ben x y a b
               (num_htlcs (side cs' ben)) (num_htlcs (side cs' (other_side ben))))
  end.
  - apply set_pay_msat_ok. exact Hoa.
  - exact Hob.
  - subst cs'. destruct ben, (htlc_channel_side h);
      cbn [side other_side set_side set_num_nondust set_num_htlcs side_ours side_theirs
           num_htlcs];
      first [apply wrap32_range | assumption].
  - subst cs'. destruct ben, (htlc_channel_side h);
      cbn [side other_side set_side set_num_nondust set_num_htlcs side_ours side_theirs
           num_htlcs];
      first [apply wrap32_range | assumption].
  - subst cs'. cbn [num_nondust fee_rate set_num_nondust]. rewrite Hsmall.
    replace (fee_rate (set_side _ _ _)) with (fee_rate cs)
      by (destruct ben, (htlc_channel_side h); reflexivity).
    exact Hr.
  - subst cs'. destruct ben, (htlc_channel_side h), a; reflexivity.
  - subst cs'. destruct ben, (htlc_channel_side h), b; reflexivity.
Qed.

End Settled.

Lemma recalculate_fees_initial total fee :
  0 <= fee <= total -> total < 2 ^ 32 -> 2 * (fee / 2) = fee ->
  recalculate_fees {| pay_msat := total - fee; fee_msat := fee; num_htlcs := 0 |}
                   zero_oneside fee
  = ({| pay_msat := total - fee; fee_msat := fee; num_htlcs := 0 |}, zero_oneside).
Proof.
  intros Hfee Htotal Heven.
  rewrite recalculate_fees_spec;
    [|unfold zero_oneside, oneside_ok, u32, u64; cbn [pay_msat fee_msat num_htlcs];
      repeat split; lia..].
  cbn [zero_oneside pay_msat fee_msat num_htlcs].
  rewrite (wrap32_small (total - fee + fee)), (wrap32_small (0 + 0)) by lia.
  assert (Hh : 0 <= fee / 2) by (apply Z.div_pos; lia).
  unfold zero_oneside. f_equal; f_equal; lia.
Qed.

Lemma initial_settled a rate f cs :
  u64 a -> u32 rate ->
  initial_cstate a rate f = Done (Some cs) -> adjust_fee cs (fee_rate cs) = cs.
Proof.
  intros Ha Hrate Hi. unfold u64, u32 in *.
  rewrite initial_cstate_spec in Hi by lia.
  destruct (Z.leb_spec (2 ^ 32 / 1000) a) as [|Hlt]; [discriminate|].
  destruct (Z.ltb_spec (a * 1000) (calculate_fee_msat 0 rate)) as [|Hle]; [discriminate|].
  injection Hi as <-.
  change (2 ^ 32 / 1000) with 4294967 in Hlt.
  pose proof (calculate_fee_msat_range 0 rate) as Hfee. unfold u64 in Hfee.
  pose proof (calculate_fee_msat_even 0 rate) as Heven.
  pose proof (recalculate_fees_initial (a * 1000) (calculate_fee_msat 0 rate)
                ltac:(lia) ltac:(lia) Heven) as Hr.
  assert (Hf : fee_rate (expected_initial a rate f) = rate)
    by (destruct f; cbn; apply wrap32_small; lia).
  assert (Hn : num_nondust (expected_initial a rate f) = 0) by (destruct f; reflexivity).
  apply (adjust_fee_fixed _ f
           {| pay_msat := a * 1000 - calculate_fee_msat 0 rate;
              fee_msat := calculate_fee_msat 0 rate; num_htlcs := 0 |}
           zero_oneside
           {| pay_msat := a * 1000 - calculate_fee_msat 0 rate;
              fee_msat := calculate_fee_msat 0 rate; num_htlcs := 0 |}
           zero_oneside 0 0).
  - unfold oneside_ok, u32; cbn [pay_msat fee_msat num_htlcs]; repeat split; lia.
  - unfold zero_oneside, oneside_ok, u32; cbn [pay_msat fee_msat num_htlcs]; repeat split; lia.
  - unfold u32; lia.
  - unfold u32; lia.
  - rewrite Hf, Hn. exact Hr.
  - destruct f; reflexivity.
  - destruct f; reflexivity.
Qed.

Section RoundTrip.
Variable is_dust : Z -> bool.

Lemma add_fail_roundtrip cs hs h cs1 :
  cstate_inv is_dust cs hs -> htlc_ok h -> Z.of_nat (length hs) < 2 ^ 32 - 1 ->
  cstate_add_htlc is_dust cs h = Done (true, cs1) ->
  cstate_fail_htlc is_dust cs1 h = Done (adjust_fee cs (fee_rate cs)).
Proof.
  intros Hinv Hh Hlen Hadd.
  pose proof (cstate_add_htlc_inv is_dust cs hs h cs1 Hinv Hh Hadd) as Hinv1.
  pose proof (add_htlc_effect is_dust cs hs h cs1 Hinv Hh Hadd) as E1. cbv zeta in E1.
  destruct (remove_htlc_returns is_dust cs1 [] h hs (htlc_channel_side h) Hinv1)
    as [cs2 Hrem]; [cbn [app length]; lia|].
  unfold cstate_fail_htlc. rewrite Hrem. f_equal.
  pose proof (remove_htlc_inv is_dust cs1 [] h hs _ cs2 Hinv1 Hrem) as Hinv2.
  cbn [app] in Hinv2.
  pose proof (remove_htlc_effect is_dust cs1 [] h hs _ cs2 Hinv1 Hrem) as E2.
  cbv zeta in E2.
  pose proof (remove_settled is_dust cs1 [] h hs _ cs2 Hinv1 Hrem) as S2.
  destruct E1 as (T1 & T1' & _ & _ & A1 & R1 & _).
  destruct E2 as (T2 & T2' & _ & _ & A2 & R2 & _).
  rewrite <- S2 at 1. rewrite R2, R1.
  apply adjust_fee_ext.
  - apply (inv_ours _ _ _ Hinv2).
  - apply (inv_theirs _ _ _ Hinv2).
  - apply (inv_ours _ _ _ Hinv).
  - apply (inv_theirs _ _ _ Hinv).
  - congruence.
  - congruence.
  - rewrite (inv_nondust _ _ _ Hinv2), (inv_nondust _ _ _ Hinv). reflexivity.
  - intros s. split.
    + destruct s, (htlc_channel_side h); cbn [other_side] in *; lia.
    + rewrite (inv_num _ _ _ Hinv2), (inv_num _ _ _ Hinv). reflexivity.
Qed.

End RoundTrip.

(** X5: failing an HTLC of less than 2^63 msat right after it was added to
    a reachable state (one that carries fewer than 2^32 - 1 HTLCs) gives the
    state before the addition with its fees charged at the stored rate; it is
    that very state when its fees already were. *)
Theorem add_then_fail_restores (is_dust : Z -> bool) cs hs h cs1 :
  reachable is_dust cs hs -> htlc_ok h -> Z.of_nat (length hs) < 2 ^ 32 - 1 ->
  cstate_add_htlc is_dust cs h = Done (true, cs1) ->
  cstate_fail_htlc is_dust cs1 h = Done (adjust_fee cs (fee_rate cs))
  /\ (adjust_fee cs (fee_rate cs) = cs -> cstate_fail_htlc is_dust cs1 h = Done cs).
Proof.
  intros Hreach Hh Hlen Hadd. apply reachable_inv in Hreach.
  pose proof (add_fail_roundtrip is_dust cs hs h cs1 Hreach Hh Hlen Hadd) as H.
  split; [exact H|]. intros E. rewrite H, E. reflexivity.
Qed.

(** X6: [initial_cstate] at a fee rate that fits in 32 bits, a
    successful [cstate_add_htlc] of an HTLC of less than 2^63 msat on a
    reachable state (one that carries fewer than 2^32 - 1 HTLCs) and a
    [cstate_fulfill_htlc] or [cstate_fail_htlc] of an HTLC in the channel of
    a reachable state all leave a state whose fees are the ones [adjust_fee]
    computes at the stored [fee_rate]: that call changes nothing. *)
Theorem fees_are_computed (is_dust : Z -> bool) :
  (forall a rate f cs,
     u64 a -> u32 rate -> initial_cstate a rate f = Done (Some cs) ->
     adjust_fee cs (fee_rate cs) = cs)
  /\ (forall cs hs h cs',
        reachable is_dust cs hs -> htlc_ok h -> Z.of_nat (length hs) < 2 ^ 32 - 1 ->
        cstate_add_htlc is_dust cs h = Done (true, cs') ->
        adjust_fee cs' (fee_rate cs') = cs')
  /\ (forall cs hs h cs',
        reachable is_dust cs hs -> h ∈ hs ->
        cstate_fulfill_htlc is_dust cs h = Done cs'
        \/ cstate_fail_htlc is_dust cs h = Done cs' ->
        adjust_fee cs' (fee_rate cs') = cs').
Proof.
  split; [|split].
  - intros a rate f cs. apply initial_settled.
  - intros cs hs h cs' Hreach. apply reachable_inv in Hreach.
    eapply add_settled; eassumption.
  - intros cs hs h cs' Hreach Hin Hrem. apply reachable_inv in Hreach.
    apply list_elem_of_split in Hin as (hs1 & hs2 & ->).
    destruct Hrem as [Hrem|Hrem]; eapply remove_settled; eassumption.
Qed.

(** X7: a successful [cstate_add_htlc] of an HTLC of less than 2^63 msat
    on a reachable state takes the HTLC's amount from the total of the side
    that offers it and from nowhere else, counts one more HTLC (modulo 2^32)
    on that side only, keeps the anchor and the fee rate, and counts one more
    non-dust HTLC (modulo 2^32) exactly when the amount is not dust. *)
Theorem add_htlc_ledger (is_dust : Z -> bool) cs hs h cs' :
  reachable is_dust cs hs -> htlc_ok h ->
  cstate_add_htlc is_dust cs h = Done (true, cs') ->
  let c := htlc_channel_side h in
  side_total (side cs' c) = side_total (side cs c) - msatoshis h
  /\ side_total (side cs' (other_side c)) = side_total (side cs (other_side c))
  /\ num_htlcs (side cs' c) = wrap32 (num_htlcs (side cs c) + 1)
  /\ num_htlcs (side cs' (other_side c)) = num_htlcs (side cs (other_side c))
  /\ anchor cs' = anchor cs /\ fee_rate cs' = fee_rate cs
  /\ (is_dust (msatoshis h / 1000) = true -> num_nondust cs' = num_nondust cs)
  /\ (is_dust (msatoshis h / 1000) = false ->
      num_nondust cs' = wrap32 (num_nondust cs + 1)).
Proof.
  intros Hreach Hh Hadd. apply reachable_inv in Hreach. cbv zeta.
  destruct (add_htlc_effect is_dust cs hs h cs' Hreach Hh Hadd)
    as (H1 & H2 & H3 & H4 & H5 & H6 & H7).
  repeat split; try assumption.
  - intros Hd. rewrite H7. unfold nondust_after_add. rewrite Hd.
    rewrite (inv_nondust _ _ _ Hreach). apply wrap32_idemp.
  - intros Hd. rewrite H7. unfold nondust_after_add. rewrite Hd. reflexivity.
Qed.

(** X8: for an HTLC in the channel of a reachable state,
    [cstate_fulfill_htlc] credits its amount to the total of the side
    opposite the one that offered it, [cstate_fail_htlc] credits it back to
    the side that offered it; in both cases the other total is unchanged and
    only the offering side counts one HTLC less. *)
Theorem remove_htlc_ledger (is_dust : Z -> bool) cs hs h :
  reachable is_dust cs hs -> h ∈ hs ->
  let c := htlc_channel_side h in
  (forall cs',
     cstate_fulfill_htlc is_dust cs h = Done cs' ->
     side_total (side cs' (other_side c))
     = side_total (side cs (other_side c)) + msatoshis h
     /\ side_total (side cs' c) = side_total (side cs c)
     /\ num_htlcs (side cs' c) = num_htlcs (side cs c) - 1
     /\ num_htlcs (side cs' (other_side c)) = num_htlcs (side cs (other_side c)))
  /\ (forall cs',
        cstate_fail_htlc is_dust cs h = Done cs' ->
        side_total (side cs' c) = side_total (side cs c) + msatoshis h
        /\ side_total (side cs' (other_side c)) = side_total (side cs (other_side c))
        /\ num_htlcs (side cs' c) = num_htlcs (side cs c) - 1
        /\ num_htlcs (side cs' (other_side c)) = num_htlcs (side cs (other_side c))).
Proof.
  intros Hreach Hin. apply reachable_inv in Hreach. cbv zeta.
  apply list_elem_of_split in Hin as (hs1 & hs2 & ->).
  split; intros cs' Hrem.
  - destruct (remove_htlc_effect is_dust cs hs1 h hs2 _ cs' Hreach Hrem)
      as (H1 & H2 & H3 & H4 & _).
    replace (other_side (other_side (htlc_channel_side h))) with (htlc_channel_side h) in H2
      by (destruct (htlc_channel_side h); reflexivity).
    repeat split; assumption.
  - destruct (remove_htlc_effect is_dust cs hs1 h hs2 _ cs' Hreach Hrem)
      as (H1 & H2 & H3 & H4 & _).
    repeat split; assumption.
Qed.

(** Worked instances. *)

Lemma scenario_sides_ok :
  oneside_ok (side_ours scenario1_cstate) /\ oneside_ok zero_oneside.
Proof. unfold oneside_ok, u32; cbn; lia. Qed.

Lemma recalculate_fees_collects_witness :
  let a := side_ours scenario1_cstate in
  let r := recalculate_fees a zero_oneside 18500000 in
  side_total (fst r) = side_total a /\ side_total (snd r) = side_total zero_oneside
  /\ fee_msat (fst r) + fee_msat (snd r)
     = Z.min (side_total a + side_total zero_oneside) (2 * (18500000 / 2))
  /\ (18500000 / 2 < fee_msat (fst r) -> pay_msat (snd r) = 0)
  /\ (18500000 / 2 < fee_msat (snd r) -> pay_msat (fst r) = 0).
Proof.
  cbv zeta.
  apply (recalculate_fees_collects (side_ours scenario1_cstate) zero_oneside 18500000).
  - apply scenario_sides_ok.
  - apply scenario_sides_ok.
  - unfold u64; lia.
  - vm_compute; reflexivity.
  - vm_compute; reflexivity.
  - apply surjective_pairing.
Defined.

Lemma recalculate_fees_settles_witness :
  let a := side_ours scenario1_cstate in
  let r := recalculate_fees a zero_oneside 18500000 in
  recalculate_fees zero_oneside a 18500000 = (snd r, fst r)
  /\ recalculate_fees (fst r) (snd r) 18500000 = (fst r, snd r).
Proof.
  cbv zeta.
  apply (recalculate_fees_settles (side_ours scenario1_cstate) zero_oneside 18500000).
  - apply scenario_sides_ok.
  - apply scenario_sides_ok.
  - unfold u64; lia.
  - apply surjective_pairing.
Defined.

Lemma force_fee_outcome_witness :
  fst (force_fee scenario1_cstate 20000) = true
  /\ fee_msat (side (snd (force_fee scenario1_cstate 20000)) OURS)
     + fee_msat (side (snd (force_fee scenario1_cstate 20000)) THEIRS) = 20000 * 1000.
Proof.
  destruct (force_fee_outcome scenario1_cstate 20000
              (fst (force_fee scenario1_cstate 20000))
              (snd (force_fee scenario1_cstate 20000)))
    as (Hok & _ & _ & Hfee & _).
  - apply scenario_sides_ok.
  - apply scenario_sides_ok.
  - vm_compute; reflexivity.
  - unfold u64; lia.
  - apply surjective_pairing.
  - assert (H : fst (force_fee scenario1_cstate 20000) = true).
    { apply Hok. vm_compute. discriminate. }
    split; [exact H|exact (Hfee H)].
Defined.

Lemma adjust_fee_forgotten_witness :
  cstate_fail_htlc dust_546 (adjust_fee scenario2_cstate 60000) scenario_htlc
  = cstate_fail_htlc dust_546 scenario2_cstate scenario_htlc
  /\ cstate_fulfill_htlc dust_546 (adjust_fee scenario2_cstate 60000) scenario_htlc
     = cstate_fulfill_htlc dust_546 scenario2_cstate scenario_htlc.
Proof.
  apply (adjust_fee_forgotten dust_546 scenario2_cstate [scenario_htlc] scenario_htlc 60000).
  - scenario2_reach.
  - apply list_elem_of_singleton; reflexivity.
Defined.

Lemma add_then_fail_restores_witness :
  cstate_fail_htlc dust_546 scenario2_cstate scenario_htlc
  = Done (adjust_fee scenario1_cstate (fee_rate scenario1_cstate))
  /\ (adjust_fee scenario1_cstate (fee_rate scenario1_cstate) = scenario1_cstate ->
      cstate_fail_htlc dust_546 scenario2_cstate scenario_htlc = Done scenario1_cstate).
Proof.
  apply (add_then_fail_restores dust_546 scenario1_cstate [] scenario_htlc scenario2_cstate).
  - scenario1_reach.
  - unfold htlc_ok, scenario_htlc; cbn [msatoshis]; lia.
  - cbn. lia.
  - reflexivity.
Defined.

Lemma add_htlc_ledger_witness :
  side_total (side scenario2_cstate OURS)
  = side_total (side scenario1_cstate OURS) - msatoshis scenario_htlc
  /\ side_total (side scenario2_cstate THEIRS) = side_total (side scenario1_cstate THEIRS).
Proof.
  destruct (add_htlc_ledger dust_546 scenario1_cstate [] scenario_htlc scenario2_cstate)
    as (H1 & H2 & _).
  - scenario1_reach.
  - unfold htlc_ok, scenario_htlc; cbn [msatoshis]; lia.
  - reflexivity.
  - split; [exact H1|exact H2].
Defined.

Lemma remove_htlc_ledger_witness :
  exists cs',
    cstate_fulfill_htlc dust_546 scenario2_cstate scenario_htlc = Done cs'
    /\ side_total (side cs' THEIRS)
       = side_total (side scenario2_cstate THEIRS) + msatoshis scenario_htlc
    /\ side_total (side cs' OURS) = side_total (side scenario2_cstate OURS).
Proof.
  destruct (remove_htlc_ledger dust_546 scenario2_cstate [scenario_htlc] scenario_htlc)
    as (Hful & _).
  - scenario2_reach.
  - apply list_elem_of_singleton; reflexivity.
  - destruct (cstate_fulfill_htlc dust_546 scenario2_cstate scenario_htlc)
      as [cs'|] eqn:E; [|vm_compute in E; discriminate E].
    exists cs'. split; [reflexivity|].
    destruct (Hful cs' eq_refl) as (H1 & H2 & _). split; [exact H1|exact H2].
Defined.


End ChannelArithmetic.

(** ** Canonical transaction ordering *)

Section CanonicalOrder.
Import Permute.

(** ** Comparison functions that are total orders *)

Lemma total_Z_compare : total_comparison Z.compare.
Proof.
  split.
  - apply Z.compare_eq.
  - apply Z.compare_refl.
  - intros x y. apply Z.compare_antisym.
  - intros x y z. rewrite !Z.compare_lt_iff. lia.
Qed.

Lemma total_pair_compare {A B} (c1 : A -> A -> comparison) (c2 : B -> B -> comparison) :
  total_comparison c1 -> total_comparison c2 -> total_comparison (pair_compare c1 c2).
Proof.
  intros T1 T2. split; unfold pair_compare, lex.
  - intros [x1 x2] [y1 y2]; cbn [fst snd].
    destruct (c1 x1 y1) eqn:E1; try discriminate. intros E2.
    apply (cmp_eq _ T1) in E1. apply (cmp_eq _ T2) in E2. congruence.
  - intros [x1 x2]; cbn [fst snd]. rewrite (cmp_refl _ T1). apply (cmp_refl _ T2).
  - intros [x1 x2] [y1 y2]; cbn [fst snd]. rewrite (cmp_opp _ T1 x1 y1).
    destruct (c1 x1 y1); cbn [CompOpp]; [apply (cmp_opp _ T2)|reflexivity..].
  - intros [x1 x2] [y1 y2] [z1 z2]; cbn [fst snd].
    destruct (c1 x1 y1) eqn:E1; try discriminate.
    + apply (cmp_eq _ T1) in E1; subst y1.
      destruct (c1 x1 z1); try discriminate; [apply (cmp_trans _ T2)|reflexivity].
    + intros _. destruct (c1 y1 z1) eqn:E2; try discriminate; intros _.
      * apply (cmp_eq _ T1) in E2; subst z1. rewrite E1. reflexivity.
      * rewrite (cmp_trans _ T1 _ _ _ E1 E2). reflexivity.
Qed.

Lemma total_bytes_compare : total_comparison bytes_compare.
Proof.
  split.
  - induction x as [|x a IH]; intros [|y b]; cbn; try discriminate; [reflexivity|].
    destruct (x ?= y) eqn:E; try discriminate.
    apply Z.compare_eq in E. intros H. f_equal; [assumption|apply IH; assumption].
  - induction x as [|x a IH]; cbn; [reflexivity|]. rewrite Z.compare_refl. assumption.
  - induction x as [|x a IH]; intros [|y b]; cbn; try reflexivity.
    rewrite (Z.compare_antisym x y). destruct (x ?= y); cbn; [apply IH|reflexivity..].
  - induction x as [|x a IH]; intros [|y b] [|z c]; cbn; try discriminate; try reflexivity.
    destruct (x ?= y) eqn:E1; try discriminate.
    + apply Z.compare_eq in E1; subst y.
      destruct (x ?= z); try discriminate; [apply IH|reflexivity].
    + intros _. destruct (y ?= z) eqn:E2; try discriminate; intros _.
      * apply Z.compare_eq in E2; subst z. rewrite E1. reflexivity.
      * rewrite Z.compare_lt_iff in *. replace (x ?= z) with Lt; [reflexivity|].
        symmetry. apply Z.compare_lt_iff. lia.
Qed.

Lemma total_on_key {A K : Type} (key : A -> K) (cmp : K -> K -> comparison) :
  total_comparison cmp -> (forall a b, key a = key b -> a = b) ->
  total_comparison (fun a b => cmp (key a) (key b)).
Proof.
  intros T Hinj. split.
  - intros x y E. apply Hinj, (cmp_eq _ T), E.
  - intros x. apply (cmp_refl _ T).
  - intros x y. apply (cmp_opp _ T).
  - intros x y z. apply (cmp_trans _ T).
Qed.

Lemma memcmp_bytes_compare a b n :
  length a = n -> length b = n -> memcmp a b n = bytes_compare a b.
Proof.
  revert a b. induction n as [|n IH]; intros [|x a] [|y b] Ha Hb;
    cbn in Ha, Hb; try discriminate; cbn [memcmp bytes_compare]; [reflexivity|].
  destruct (x ?= y); [apply IH; congruence|reflexivity..].
Qed.

Lemma memcmp_common_prefix a b :
  lex (memcmp a b (Nat.min (length a) (length b)))
      (Z.of_nat (length a) ?= Z.of_nat (length b))
  = bytes_compare a b.
Proof.
  revert b. induction a as [|x a IH]; intros [|y b];
    cbn [length Nat.min memcmp bytes_compare lex]; try reflexivity.
  destruct (x ?= y) eqn:E; try reflexivity.
  rewrite <- IH. f_equal. rewrite !Nat2Z.inj_compare. reflexivity.
Qed.

Lemma total_comparison_ext {A} (c1 c2 : A -> A -> comparison) :
  (forall a b, c1 a b = c2 a b) -> total_comparison c1 -> total_comparison c2.
Proof.
  intros E T. split.
  - intros x y. rewrite <- E. apply (cmp_eq _ T).
  - intros x. rewrite <- E. apply (cmp_refl _ T).
  - intros x y. rewrite <- !E. apply (cmp_opp _ T).
  - intros x y z. rewrite <- !E. apply (cmp_trans _ T).
Qed.

Lemma lex_Z_step x y (k : bool) c :
  k = is_lt c ->
  (if negb (x =? y) then x <? y else k) = is_lt (lex (x ?= y) c).
Proof.
  intros ->. destruct (Z.eqb_spec x y) as [->|Hne]; cbn [negb].
  - rewrite Z.compare_refl. reflexivity.
  - unfold Z.ltb. destruct (x ?= y) eqn:E; [apply Z.compare_eq in E; contradiction|reflexivity..].
Qed.

Lemma lex_cmp_step c1 (k : bool) c :
  k = is_lt c ->
  match c1 with Lt => true | Gt => false | Eq => k end = is_lt (lex c1 c).
Proof. intros ->. destruct c1; reflexivity. Qed.

Lemma input_better_compare a b :
  wf_input a -> wf_input b ->
  input_better a b = is_lt (input_compare a b).
Proof.
  unfold wf_input, input_better, input_compare. intros Ha Hb.
  rewrite (memcmp_bytes_compare _ _ 32%nat Ha Hb).
  apply lex_cmp_step, lex_Z_step.
  unfold input_script_length.
  destruct (Z.eqb_spec (Z.of_nat (length (input_script a)))
                       (Z.of_nat (length (input_script b)))) as [E|Hne]; cbn [negb].
  - rewrite E, Z.compare_refl. cbn [lex]. apply Nat2Z.inj in E.
    rewrite (memcmp_bytes_compare _ _ _ eq_refl (eq_sym E)).
    apply lex_cmp_step. reflexivity.
  - unfold Z.ltb. destruct (_ ?= _) eqn:E; [apply Z.compare_eq in E; contradiction|reflexivity..].
Qed.

Lemma output_better_compare a b :
  output_better a b = is_lt (output_compare a b).
Proof.
  unfold output_better, output_compare. apply lex_Z_step.
  replace (if script_length a <? script_length b then length (script a) else length (script b))
    with (Nat.min (length (script a)) (length (script b))).
  - apply lex_cmp_step. reflexivity.
  - unfold script_length. destruct (Z.ltb_spec (Z.of_nat (length (script a)))
                                                (Z.of_nat (length (script b)))); lia.
Qed.

Lemma total_input_compare : total_comparison input_compare.
Proof.
  apply (total_on_key input_key
           (pair_compare bytes_compare
              (pair_compare Z.compare
                 (pair_compare Z.compare
                    (pair_compare bytes_compare Z.compare))))).
  - repeat apply total_pair_compare;
      first [apply total_bytes_compare | apply total_Z_compare].
  - intros [t1 i1 s1 q1] [t2 i2 s2 q2]. unfold input_key; cbn. congruence.
Qed.

Lemma total_output_compare : total_comparison output_compare.
Proof.
  apply (total_comparison_ext
           (fun a b => pair_compare Z.compare bytes_compare
                         (amount a, script a) (amount b, script b))).
  - intros a b. unfold output_compare, pair_compare, script_length; cbn [fst snd].
    rewrite memcmp_common_prefix. reflexivity.
  - apply (total_on_key (fun a => (amount a, script a))).
    + apply total_pair_compare; [apply total_Z_compare|apply total_bytes_compare].
    + intros [a1 s1] [a2 s2]; cbn. congruence.
Qed.

Section SelectionSort.
Context {A : Type} (better : A -> A -> bool) (cmp : A -> A -> comparison).
Context (P : A -> Prop).
Hypothesis cmp_total : total_comparison cmp.
Hypothesis better_cmp : forall x y, P x -> P y -> better x y = is_lt (cmp x y).

Lemma better_irrefl x : P x -> better x x = false.
Proof. intros Hx. rewrite better_cmp, (cmp_refl _ cmp_total) by assumption. reflexivity. Qed.

Lemma better_trans x y z :
  P x -> P y -> P z -> better x y = true -> better y z = true -> better x z = true.
Proof.
  intros Hx Hy Hz. rewrite !better_cmp by assumption.
  destruct (cmp x y) eqn:E1; try discriminate.
  destruct (cmp y z) eqn:E2; try discriminate.
  rewrite (cmp_trans _ cmp_total _ _ _ E1 E2). reflexivity.
Qed.

Lemma not_better_ascending x y : P x -> P y -> better y x = false -> ascending cmp x y.
Proof.
  intros Hx Hy. rewrite better_cmp by assumption. unfold ascending.
  rewrite (cmp_opp _ cmp_total y x). destruct (cmp y x); cbn; congruence.
Qed.

Lemma ascending_antisym x y : ascending cmp x y -> ascending cmp y x -> x = y.
Proof.
  unfold ascending. rewrite (cmp_opp _ cmp_total x y). intros H1 H2.
  apply (cmp_eq _ cmp_total). destruct (cmp x y); cbn in *; congruence.
Qed.

Lemma find_best_loop_spec arr k i best :
  Forall P arr -> (best < i)%nat -> (i + k = length arr)%nat ->
  (forall j x y, (j < i)%nat -> arr !! j = Some x -> arr !! best = Some y ->
                 better x y = false) ->
  let b := find_best_loop better arr k i best in
  (b < length arr)%nat
  /\ forall j x y, arr !! j = Some x -> arr !! b = Some y -> better x y = false.
Proof.
  intros HP. revert i best. induction k as [|k IH]; intros i best Hlt Hlen Hmin; cbn [find_best_loop].
  - split; [lia|]. intros j x y Hj Hy.
    apply (Hmin j); [apply lookup_lt_Some in Hj; lia|assumption..].
  - destruct (lookup_lt_is_Some_2 arr i ltac:(lia)) as [x Hx].
    destruct (lookup_lt_is_Some_2 arr best ltac:(lia)) as [y Hy].
    rewrite Hx, Hy.
    assert (Px : P x) by (eapply Forall_lookup_1; eassumption).
    assert (Py : P y) by (eapply Forall_lookup_1; eassumption).
    apply IH; [destruct (better x y); lia | lia |].
    intros j u v Hj Hu Hv.
    assert (Pu : P u) by (eapply Forall_lookup_1; eassumption).
    destruct (better x y) eqn:Hb.
    + rewrite Hx in Hv. injection Hv as <-.
      destruct (decide (j = i)) as [->|Hne].
      * rewrite Hx in Hu. injection Hu as <-. apply better_irrefl; assumption.
      * destruct (better u x) eqn:Hux; [|reflexivity].
        assert (better u y = true) by (apply (better_trans u x y); assumption).
        assert (Hf : better u y = false) by (apply (Hmin j); [lia|assumption|assumption]).
        congruence.
    + rewrite Hy in Hv. injection Hv as <-.
      destruct (decide (j = i)) as [->|Hne].
      * rewrite Hx in Hu. injection Hu as <-. assumption.
      * apply (Hmin j); [lia|assumption..].
Qed.

Lemma find_best_spec x xs :
  Forall P (x :: xs) ->
  exists y, (x :: xs) !! find_best better (x :: xs) = Some y
            /\ forall z, z ∈ x :: xs -> better z y = false.
Proof.
  intros HP. unfold find_best.
  destruct (find_best_loop_spec (x :: xs) (length (x :: xs) - 1) 1 0 HP) as [Hlt Hmin].
  - lia.
  - cbn [length]. lia.
  - intros j u v Hj Hu Hv. assert (j = 0)%nat as -> by lia.
    cbn in Hu, Hv. injection Hu as <-. injection Hv as <-.
    apply better_irrefl. apply Forall_inv in HP. exact HP.
  - destruct (lookup_lt_is_Some_2 _ _ Hlt) as [y Hy]. exists y. split; [exact Hy|].
    intros z Hz. apply list_elem_of_lookup in Hz as [j Hj]. eapply Hmin; eassumption.
Qed.

Lemma swap_best (pre : list A) (x : A) xs b y :
  (x :: xs) !! b = Some y ->
  swap (pre ++ x :: xs) (length pre) (length pre + b) = pre ++ y :: after_swap x xs b.
Proof.
  intros Hb. unfold swap.
  rewrite list_lookup_middle by reflexivity.
  rewrite lookup_app_r by lia.
  replace (length pre + b - length pre)%nat with b by lia. rewrite Hb.
  rewrite <- (Nat.add_0_r (length pre)) at 2.
  rewrite !insert_app_r. cbn [insert list_insert].
  destruct b as [|b']; cbn [after_swap]; [|reflexivity].
  cbn in Hb. injection Hb as <-. reflexivity.
Qed.

Lemma after_swap_perm (x : A) xs b y :
  (x :: xs) !! b = Some y -> y :: after_swap x xs b ≡ₚ x :: xs.
Proof.
  destruct b as [|b']; cbn [after_swap lookup list_lookup]; intros Hb.
  - injection Hb as <-. reflexivity.
  - rewrite insert_take_drop by (eapply lookup_lt_Some; eassumption).
    rewrite <- (take_drop_middle xs b' y Hb) at 3.
    rewrite <- !Permutation_middle. apply perm_swap.
Qed.

Lemma permute_loop_spec k (pre rest : list A) :
  Forall P rest -> length rest = k ->
  exists rest',
    permute_loop better k (length pre) (pre ++ rest) = pre ++ rest'
    /\ rest' ≡ₚ rest /\ StronglySorted (ascending cmp) rest'.
Proof.
  revert pre rest. induction k as [|k IH]; intros pre rest HP Hlen.
  - destruct rest; [|discriminate]. exists []. repeat split; constructor.
  - destruct rest as [|x xs]; [discriminate|]. cbn [permute_loop].
    rewrite drop_app_length.
    destruct (find_best_spec x xs HP) as (y & Hy & Hmin).
    rewrite (swap_best pre x xs _ y Hy).
    pose proof (after_swap_perm x xs _ y Hy) as Hperm.
    set (tl := after_swap x xs (find_best better (x :: xs))) in *.
    assert (HP' : Forall P (y :: tl)) by (rewrite Hperm; assumption).
    apply Forall_cons_1 in HP' as [Py Ptl].
    assert (Hlen' : length tl = k).
    { apply Permutation_length in Hperm. cbn in Hperm, Hlen. lia. }
    destruct (IH (pre ++ [y]) tl Ptl Hlen') as (rest' & Heq & Hp & Hs).
    rewrite length_app in Heq. cbn [length] in Heq.
    rewrite Nat.add_1_r, <- app_assoc in Heq. cbn [app] in Heq.
    exists (y :: rest'). split; [|split].
    + rewrite Heq, <- app_assoc. reflexivity.
    + rewrite Hp. exact Hperm.
    + constructor; [exact Hs|].
      apply Forall_forall. intros z Hz.
      assert (Hz' : z ∈ x :: xs) by (rewrite <- Hperm, <- Hp; right; exact Hz).
      apply not_better_ascending; [assumption| |apply Hmin; assumption].
      eapply Forall_forall in HP; eassumption.
Qed.

Lemma permute_sorts (l : list A) :
  Forall P l -> permute better l ≡ₚ l /\ StronglySorted (ascending cmp) (permute better l).
Proof.
  intros HP. unfold permute.
  destruct (permute_loop_spec (length l) [] l HP eq_refl) as (l' & Heq & Hp & Hs).
  cbn [app length] in Heq. rewrite Heq. split; assumption.
Qed.

Lemma permute_canonical (l1 l2 : list A) :
  Forall P l1 -> l1 ≡ₚ l2 -> permute better l1 = permute better l2.
Proof.
  intros HP1 Hperm.
  assert (HP2 : Forall P l2) by (rewrite <- Hperm; assumption).
  destruct (permute_sorts l1 HP1) as [Hp1 Hs1].
  destruct (permute_sorts l2 HP2) as [Hp2 Hs2].
  apply (StronglySorted_unique_strong (ascending cmp)); try assumption.
  - intros x y _ _. apply ascending_antisym.
  - rewrite Hp1, Hp2. exact Hperm.
Qed.
End SelectionSort.

(** C10: [permute_inputs] and [permute_outputs] leave a permutation of the
    array, sorted ascending in the order the claim names, and the result
    depends only on the multiset of elements. *)
Theorem canonical_permutation (ins : list bitcoin_tx_input)
    (outs : list bitcoin_tx_output) :
  Forall wf_input ins ->
  (permute_inputs ins ≡ₚ ins
   /\ StronglySorted (ascending input_compare) (permute_inputs ins)
   /\ forall ins', ins ≡ₚ ins' -> permute_inputs ins' = permute_inputs ins)
  /\ (permute_outputs outs ≡ₚ outs
      /\ StronglySorted (ascending output_compare) (permute_outputs outs)
      /\ forall outs', outs ≡ₚ outs' -> permute_outputs outs' = permute_outputs outs).
Proof.
  intros Hwf. split.
  - destruct (permute_sorts input_better input_compare wf_input
                total_input_compare input_better_compare ins Hwf) as [Hp Hs].
    repeat split; [exact Hp|exact Hs|].
    intros ins' Hperm. symmetry.
    apply (permute_canonical input_better input_compare wf_input
             total_input_compare input_better_compare); assumption.
  - assert (Htrue : Forall (fun _ : bitcoin_tx_output => True) outs)
      by (apply Forall_forall; intros; exact I).
    destruct (permute_sorts output_better output_compare (fun _ => True)
                total_output_compare (fun x y _ _ => output_better_compare x y)
                outs Htrue) as [Hp Hs].
    repeat split; [exact Hp|exact Hs|].
    intros outs' Hperm. symmetry.
    apply (permute_canonical output_better output_compare (fun _ => True)
             total_output_compare (fun x y _ _ => output_better_compare x y));
      assumption.
Qed.

(** ** The comparators as strict orders *)

Section ComparatorContract.
Context {A : Type} (better : A -> A -> bool) (cmp : A -> A -> comparison).
Context (P : A -> Prop).
Hypothesis cmp_total : total_comparison cmp.
Hypothesis better_cmp : forall x y, P x -> P y -> better x y = is_lt (cmp x y).

Lemma better_strict_order x y z :
  P x -> P y -> P z ->
  better x x = false
  /\ (better x y = true -> better y x = false)
  /\ (better x y = true -> better y z = true -> better x z = true)
  /\ (x <> y -> better x y = true \/ better y x = true).
Proof.
  intros Hx Hy Hz. rewrite !better_cmp by assumption.
  rewrite (cmp_refl _ cmp_total), (cmp_opp _ cmp_total x y).
  split; [reflexivity|]. split; [|split].
  - destruct (cmp x y); cbn; congruence.
  - intros H1 H2.
    destruct (cmp x y) eqn:E1; try discriminate.
    destruct (cmp y z) eqn:E2; try discriminate.
    rewrite (cmp_trans _ cmp_total _ _ _ E1 E2). reflexivity.
  - intros Hne. destruct (cmp x y) eqn:E; cbn; [|tauto..].
    apply (cmp_eq _ cmp_total) in E. contradiction.
Qed.

Lemma permute_sorted_fixed (l : list A) :
  Forall P l -> StronglySorted (ascending cmp) l -> permute better l = l.
Proof.
  intros HP Hs.
  destruct (permute_sorts better cmp P cmp_total better_cmp l HP) as [Hp Hs'].
  apply (StronglySorted_unique_strong (ascending cmp)); try assumption.
  intros x y _ _. apply (ascending_antisym cmp cmp_total).
Qed.

Lemma permute_idempotent (l : list A) :
  Forall P l -> permute better (permute better l) = permute better l.
Proof.
  intros HP.
  destruct (permute_sorts better cmp P cmp_total better_cmp l HP) as [Hp Hs].
  apply permute_sorted_fixed; [|exact Hs]. rewrite Hp. exact HP.
Qed.

End ComparatorContract.

(** X12: [input_better] is a strict total order on inputs with 32-byte
    txids: no input is better than itself, two inputs are never each better
    than the other, better is transitive, and of two different inputs one is
    better. *)
Theorem input_better_strict_order a b c :
  wf_input a -> wf_input b -> wf_input c ->
  input_better a a = false
  /\ (input_better a b = true -> input_better b a = false)
  /\ (input_better a b = true -> input_better b c = true -> input_better a c = true)
  /\ (a <> b -> input_better a b = true \/ input_better b a = true).
Proof.
  apply (better_strict_order input_better input_compare wf_input
           total_input_compare input_better_compare).
Qed.

(** X13: [output_better] is a strict total order on outputs: no output
    is better than itself, two outputs are never each better than the other,
    better is transitive, and of two different outputs one is better. *)
Theorem output_better_strict_order (a b c : bitcoin_tx_output) :
  output_better a a = false
  /\ (output_better a b = true -> output_better b a = false)
  /\ (output_better a b = true -> output_better b c = true -> output_better a c = true)
  /\ (a <> b -> output_better a b = true \/ output_better b a = true).
Proof.
  apply (better_strict_order output_better output_compare (fun _ => True)
           total_output_compare (fun x y _ _ => output_better_compare x y));
    exact I.
Qed.

(** X14: [permute_inputs] and [permute_outputs] leave an array that is
    already in order as it is, give on their own result that result again,
    and keep the number of elements. *)
Theorem permute_fixes_sorted (ins : list bitcoin_tx_input)
    (outs : list bitcoin_tx_output) :
  Forall wf_input ins ->
  ((StronglySorted (ascending input_compare) ins -> permute_inputs ins = ins)
   /\ permute_inputs (permute_inputs ins) = permute_inputs ins
   /\ length (permute_inputs ins) = length ins)
  /\ ((StronglySorted (ascending output_compare) outs -> permute_outputs outs = outs)
      /\ permute_outputs (permute_outputs outs) = permute_outputs outs
      /\ length (permute_outputs outs) = length outs).
Proof.
  intros Hwf.
  assert (Htrue : Forall (fun _ : bitcoin_tx_output => True) outs)
    by (apply Forall_forall; intros; exact I).
  split; (split; [|split]).
  - apply (permute_sorted_fixed input_better input_compare wf_input
             total_input_compare input_better_compare); exact Hwf.
  - apply (permute_idempotent input_better input_compare wf_input
             total_input_compare input_better_compare); exact Hwf.
  - apply Permutation_length.
    apply (permute_sorts input_better input_compare wf_input
             total_input_compare input_better_compare); exact Hwf.
  - apply (permute_sorted_fixed output_better output_compare (fun _ => True)
             total_output_compare (fun x y _ _ => output_better_compare x y)); exact Htrue.
  - apply (permute_idempotent output_better output_compare (fun _ => True)
             total_output_compare (fun x y _ _ => output_better_compare x y)); exact Htrue.
  - apply Permutation_length.
    apply (permute_sorts output_better output_compare (fun _ => True)
             total_output_compare (fun x y _ _ => output_better_compare x y)); exact Htrue.
Qed.

End CanonicalOrder.

(** ** Shachain round trip *)

Section ShachainRoundTrip.
Import Shachain.

Lemma length_le_bytes n v : length (le_bytes n v) = n.
Proof. revert v; induction n as [|n IH]; intros v; cbn; [reflexivity|f_equal; apply IH]. Qed.

Lemma le_value_le_bytes n v : le_value (le_bytes n v) = v mod 256 ^ Z.of_nat n.
Proof.
  revert v; induction n as [|n IH]; intros v; cbn [le_bytes le_value].
  - cbn. symmetry. apply Z.mod_1_r.
  - rewrite IH, Nat2Z.inj_succ, Z.pow_succ_r by lia.
    rewrite Z.rem_mul_r; [reflexivity|lia|apply Z.pow_pos_nonneg; lia].
Qed.

Lemma le_value_le_bytes_8 v : u64 v -> le_value (le_bytes 8 v) = v.
Proof.
  intros H. rewrite le_value_le_bytes. change (256 ^ Z.of_nat 8) with (2 ^ 64).
  apply Z.mod_small. exact H.
Qed.

Lemma le_value_le_bytes_4 v : u32 v -> le_value (le_bytes 4 v) = v.
Proof.
  intros H. rewrite le_value_le_bytes. change (256 ^ Z.of_nat 4) with (2 ^ 32).
  apply Z.mod_small. exact H.
Qed.

Lemma pull_app bs rest :
  pull (Some (bs ++ rest)) (length bs) = (bs, Some rest).
Proof.
  unfold pull. rewrite length_app.
  replace (length bs <=? length bs + length rest)%nat with true
    by (symmetry; apply Nat.leb_le; lia).
  rewrite take_app_length, drop_app_length. reflexivity.
Qed.

Lemma pull_le64_app v rest :
  u64 v -> pull_le64 (Some (le_bytes 8 v ++ rest)) = (v, Some rest).
Proof.
  intros H. unfold pull_le64.
  rewrite <- (length_le_bytes 8 v) at 2. rewrite pull_app, le_value_le_bytes_8; auto.
Qed.

Lemma pull_le32_app v rest :
  u32 v -> pull_le32 (Some (le_bytes 4 v ++ rest)) = (v, Some rest).
Proof.
  intros H. unfold pull_le32.
  rewrite <- (length_le_bytes 4 v) at 2. rewrite pull_app, le_value_le_bytes_4; auto.
Qed.

Lemma pull_known_app ks rest :
  Forall wf_slot ks ->
  pull_known (length ks) (Some (concat (map slot_bytes ks) ++ rest)) = (ks, Some rest).
Proof.
  induction 1 as [|k ks [Hi Hh] _ IH]; cbn [length pull_known map concat]; [reflexivity|].
  unfold slot_bytes at 1. rewrite <- !app_assoc.
  rewrite pull_le64_app by exact Hi.
  rewrite <- Hh at 1. rewrite pull_app, IH.
  destruct k; reflexivity.
Qed.

Lemma fold_push_slots s (l : list nat) p :
  fold_left (fun p i => push (hash (known_at s i))
                             (push_le64 (index (known_at s i)) p)) l p
  = p ++ concat (map slot_bytes (map (known_at s) l)).
Proof.
  revert p; induction l as [|i l IH]; intros p; cbn [fold_left map concat].
  - rewrite app_nil_r. reflexivity.
  - rewrite IH. unfold push_le64, push, slot_bytes. rewrite <- !app_assoc. reflexivity.
Qed.

Lemma map_nth_seq {A : Type} (d : A) (l : list A) n :
  (n <= length l)%nat -> map (fun i => nth i l d) (seq 0 n) = take n l.
Proof.
  revert n. induction l as [|x l IH]; intros [|n] Hn; cbn in Hn; try reflexivity; [lia|].
  cbn [seq map nth take]. f_equal.
  rewrite <- seq_shift, map_map. apply IH. lia.
Qed.

Lemma fold_push_zeroes (l : list nat) p :
  fold_left (fun p (_ : nat) => push zeroes (push_le64 0 p)) l p
  = p ++ concat (map slot_bytes (replicate (length l) zero_slot)).
Proof.
  revert p; induction l as [|i l IH]; intros p; cbn [fold_left length replicate map concat].
  - rewrite app_nil_r. reflexivity.
  - rewrite IH. unfold push_le64, push, slot_bytes, zero_slot; cbn [index hash].
    rewrite <- !app_assoc. reflexivity.
Qed.

Lemma length_concat_slots ks :
  Forall wf_slot ks -> length (concat (map slot_bytes ks)) = (40 * length ks)%nat.
Proof.
  induction 1 as [|k ks [_ Hh] _ IH]; cbn [map concat length]; [reflexivity|].
  rewrite length_app, IH. unfold slot_bytes. rewrite length_app, length_le_bytes, Hh.
  unfold SHA256_SIZE. lia.
Qed.

Lemma wf_zero_slot : wf_slot zero_slot.
Proof. split; [unfold u64; cbn; lia|reflexivity]. Qed.

Lemma stored_slots_wf s :
  wf_shachain s -> num_valid s <= 65 ->
  Forall wf_slot (stored_slots s) /\ length (stored_slots s) = KNOWN_SLOTS.
Proof.
  intros [_ Hnv Hlen Hk] Hle. unfold stored_slots, u32, KNOWN_SLOTS in *. split.
  - apply Forall_app. split; [apply Forall_take; assumption|].
    apply Forall_replicate, wf_zero_slot.
  - rewrite length_app, length_take, length_replicate. lia.
Qed.

Lemma known_at_valid s :
  wf_shachain s -> num_valid s <= 65 ->
  map (known_at s) (seq 0 (Z.to_nat (num_valid s)))
  = take (Z.to_nat (num_valid s)) (known s).
Proof.
  intros Hwf Hle. unfold known_at. apply map_nth_seq.
  rewrite (wf_known_len _ Hwf). unfold KNOWN_SLOTS. lia.
Qed.

Lemma linearize_shachain_layout s :
  wf_shachain s -> num_valid s <= 65 ->
  linearize_shachain s = Done (shachain_layout s)
  /\ Z.of_nat (length (shachain_layout s)) = SHACHAIN_SIZE.
Proof.
  intros Hwf Hle. destruct (stored_slots_wf s Hwf Hle) as [Hall Hlen].
  assert (Hsize : Z.of_nat (length (shachain_layout s)) = SHACHAIN_SIZE).
  { unfold shachain_layout. rewrite !length_app, !length_le_bytes.
    rewrite length_concat_slots, Hlen by assumption. reflexivity. }
  split; [|exact Hsize].
  unfold linearize_shachain. rewrite fold_push_slots, fold_push_zeroes, length_seq.
  rewrite (known_at_valid s Hwf Hle).
  unfold push_le64, push_le32, push. cbn [app].
  replace (_ ++ _) with (shachain_layout s).
  - rewrite Hsize, Z.eqb_refl. reflexivity.
  - unfold shachain_layout, stored_slots. rewrite map_app, concat_app, <- !app_assoc. reflexivity.
Qed.

Lemma delinearize_shachain_layout s :
  wf_shachain s -> num_valid s <= 65 ->
  delinearize_shachain (shachain_layout s)
  = ({| min_index := min_index s; num_valid := num_valid s; known := stored_slots s |}, true).
Proof.
  intros Hwf Hle. destruct (stored_slots_wf s Hwf Hle) as [Hall Hlen].
  unfold delinearize_shachain, shachain_layout.
  rewrite pull_le64_app by apply Hwf. rewrite pull_le32_app by apply Hwf.
  rewrite <- (app_nil_r (concat _)), <- Hlen, pull_known_app by assumption.
  reflexivity.
Qed.

Lemma Forall_eq_replicate {A : Type} (z : A) (l : list A) :
  Forall (eq z) l -> l = replicate (length l) z.
Proof. induction 1 as [|x l <- _ IH]; cbn; [reflexivity|f_equal; exact IH]. Qed.

Lemma stored_slots_zero_tail s :
  wf_shachain s -> num_valid s <= 65 ->
  Forall (eq zero_slot) (drop (Z.to_nat (num_valid s)) (known s)) ->
  stored_slots s = known s.
Proof.
  intros Hwf Hle Hz. unfold stored_slots.
  apply Forall_eq_replicate in Hz. rewrite length_drop, (wf_known_len _ Hwf) in Hz.
  rewrite <- Hz. apply take_drop.
Qed.

(** C5 (amended): a shachain with at most 65 valid slots linearizes to the
    fixed 2612-byte little-endian layout, and reading that blob back
    succeeds and restores [min_index], [num_valid] and the valid slots, with
    every later slot zeroed; the value read back is the original one when
    the original's unused slots were zero. *)
Theorem shachain_round_trip (s : shachain) :
  wf_shachain s -> num_valid s <= 65 ->
  exists blob,
    linearize_shachain s = Done blob
    /\ Z.of_nat (length blob) = 2612
    /\ blob = le_bytes 8 (min_index s) ++ le_bytes 4 (num_valid s)
              ++ concat (map slot_bytes
                   (take (Z.to_nat (num_valid s)) (known s)
                    ++ replicate (65 - Z.to_nat (num_valid s)) zero_slot))
    /\ delinearize_shachain blob
       = ({| min_index := min_index s; num_valid := num_valid s;
             known := take (Z.to_nat (num_valid s)) (known s)
                      ++ replicate (65 - Z.to_nat (num_valid s)) zero_slot |}, true)
    /\ (Forall (eq zero_slot) (drop (Z.to_nat (num_valid s)) (known s)) ->
        delinearize_shachain blob = (s, true)).
Proof.
  intros Hwf Hle. exists (shachain_layout s).
  destruct (linearize_shachain_layout s Hwf Hle) as [Hlin Hlen].
  pose proof (delinearize_shachain_layout s Hwf Hle) as Hde.
  repeat split; try assumption.
  intros Hz. rewrite Hde, (stored_slots_zero_tail s Hwf Hle Hz).
  destruct s; reflexivity.
Qed.

End ShachainRoundTrip.

(** ** Packet acceptors *)

Section PacketAcceptors.
Import Packets.

Variable proto_to_abs_locktime : Locktime -> option Z.
Variable abs_locktime_is_seconds : Z -> bool.
Variable abs_locktime_to_blocks : Z -> Z.
Variable sha256 : sha256_t -> sha256_t.
Variable shachain_add_hash :
  Shachain.shachain -> Z -> sha256_t -> option Shachain.shachain.


(** [accept_pkt_revocation] is for a peer whose revocation is awaited: it
    opens with [assert(peer->their_prev_revocation_hash)]. *)
Remark revocation_needs_awaited_hash (p : peer) (rv : UpdateRevocation) :
  their_prev_revocation_hash p = None ->
  accept_pkt_revocation sha256 shachain_add_hash p rv = Aborted.
Proof. intros H. unfold accept_pkt_revocation. rewrite H. reflexivity. Qed.


(** C7 (amended): [accept_pkt_htlc_add] returns an ERROR packet, and adds no
    HTLC, when [amount_msat] is 0 ("Invalid amount_msat"), when the expiry
    does not convert to an absolute locktime ("Invalid HTLC expiry"), when
    it is expressed in seconds, when the staging side of the counterparty's
    offers holds 300 HTLCs, the most it may hold, or when an HTLC with the
    same id exists on the REMOTE side; when none of these is the case and
    that side holds fewer than 300 HTLCs, it succeeds and creates the HTLC in
    state RCVD_ADD_HTLC.  What a new id gives on a side that holds more than
    300 HTLCs is left out. *)
Theorem htlc_add_validation (p : peer) (u : UpdateAddHtlc) :
  let accept := accept_pkt_htlc_add proto_to_abs_locktime abs_locktime_is_seconds
                                    abs_locktime_to_blocks in
  let their_count := num_htlcs (side (staging_cstate (remote p)) THEIRS) in
  let error (msg : string) := (Some (pkt_err msg), p, None) in
  (amount_msat u = 0 -> accept p u = error "Invalid amount_msat"%string)
  /\ (amount_msat u <> 0 -> proto_to_abs_locktime (u_expiry u) = None ->
      accept p u = error "Invalid HTLC expiry"%string)
  /\ (forall lt,
        amount_msat u <> 0 -> proto_to_abs_locktime (u_expiry u) = Some lt ->
        (abs_locktime_is_seconds lt = true ->
         accept p u = error "HTLC expiry in seconds not supported!"%string)
        /\ (abs_locktime_is_seconds lt = false -> their_count = 300 ->
            accept p u = error "Too many HTLCs"%string)
        /\ (abs_locktime_is_seconds lt = false -> their_count <> 300 ->
            is_Some (htlc_get (htlcs p) (u_id u) REMOTE) ->
            accept p u = error ("HTLC id " ++ PRIu64 (u_id u) ++ " clashes for you")%string)
        /\ (abs_locktime_is_seconds lt = false -> their_count < 300 ->
            htlc_get (htlcs p) (u_id u) REMOTE = None ->
            exists p' h,
              accept p u = (None, p', Some h)
              /\ state h = RCVD_ADD_HTLC
              /\ htlc_id h = u_id u /\ msatoshis h = amount_msat u
              /\ rhash h = r_hash u /\ expiry h = abs_locktime_to_blocks lt
              /\ htlcs p' = h :: htlcs p
              /\ htlc_get (htlcs p') (u_id u) REMOTE = Some h)).
Proof.
  cbv zeta. unfold accept_pkt_htlc_add.
  split; [intros ->; reflexivity|].
  split.
  - intros Hne Hnone. apply Z.eqb_neq in Hne. rewrite Hne, Hnone. reflexivity.
  - intros lt Hne Hsome. apply Z.eqb_neq in Hne. rewrite Hne, Hsome.
    split; [intros ->; reflexivity|].
    split; [intros -> ->; reflexivity|].
    split.
    + intros -> Hc [h' Hh']. apply Z.eqb_neq in Hc. rewrite Hc, Hh'. reflexivity.
    + intros -> Hc Hnone.
      assert (Hc' : num_htlcs (side (staging_cstate (remote p)) THEIRS) <> 300) by lia.
      apply Z.eqb_neq in Hc'. rewrite Hc', Hnone.
      eexists _, _. split; [reflexivity|]. cbn.
      repeat split. rewrite Z.eqb_refl. reflexivity.
Qed.

End PacketAcceptors.

(** ** Transaction flag *)

Section TransactionFlag.
Import Db.

Variable sqlite3 : Type.
Variable sqlite3_exec : sqlite3 -> statement -> sqlite3 * bool.

Ltac run_db :=
  unfold db_start_transaction, db_commit_transaction, db_abort_transaction,
         db_set_anchor, db_update_next_revocation_hash, db_new_htlc,
         db_update_htlc_state, db_update_state, db_new_commit_info,
         db_remove_their_prev_revocation_hash, db_save_shachain,
         db_add_commit_map, db_begin_shutdown, db_set_our_closing_script,
         db_htlc_fulfilled, db_update_our_closing,
         db_set_their_closing_script, db_update_their_closing,
         bind, assert, ret, db_exec, set_in_transaction in *;
  cbn [in_transaction sql negb] in *;
  repeat match goal with
         | |- context [sqlite3_exec ?s ?c] =>
             destruct (sqlite3_exec s c) as [? []]; cbn [in_transaction sql negb] in *
         | H : context [sqlite3_exec ?s ?c] |- _ =>
             destruct (sqlite3_exec s c) as [? []]; cbn [in_transaction sql negb] in *
         end.

Lemma asserting_site_outside (f : M sqlite3 bool) (d : db sqlite3) :
  In f (asserting_write_sites sqlite3 sqlite3_exec) ->
  in_transaction _ d = false -> f d = Aborted.
Proof.
  intros Hin Hflag. destruct d as [flag s]. cbn in Hflag. subst flag.
  cbn [asserting_write_sites In] in Hin.
  repeat (destruct Hin as [<-|Hin]; [run_db; reflexivity|]).
  contradiction.
Qed.

Lemma asserting_site_inside (f : M sqlite3 bool) (d d' : db sqlite3) ok :
  In f (asserting_write_sites sqlite3 sqlite3_exec) ->
  f d = Done (ok, d') ->
  in_transaction _ d = true /\ in_transaction _ d' = true.
Proof.
  intros Hin Hrun. destruct d as [[] s].
  - cbn [asserting_write_sites In] in Hin.
    repeat (destruct Hin as [<-|Hin];
            [run_db; injection Hrun as <- <-; split; reflexivity|]).
    contradiction.
  - rewrite (asserting_site_outside f {| in_transaction := false; sql := s |} Hin eq_refl) in Hrun. discriminate Hrun.
Qed.

(** C9 (amended): [db_start_transaction] asserts that [in_transaction] is
    false and leaves it equal to whether BEGIN succeeded;
    [db_commit_transaction] and [db_abort_transaction] assert that it is
    true and clear it; the writers listed in [asserting_write_sites] assert
    that it is true and keep it.  [db_htlc_fulfilled] and
    [db_update_our_closing], which run both inside and outside a
    transaction, assert nothing; [db_set_their_closing_script] and
    [db_update_their_closing] assert that the flag is false. *)
Theorem transaction_flag_discipline (d : db sqlite3) :
  (in_transaction _ d = true -> db_start_transaction _ sqlite3_exec d = Aborted)
  /\ (in_transaction _ d = false ->
      db_commit_transaction _ sqlite3_exec d = Aborted
      /\ db_abort_transaction _ sqlite3_exec d = Aborted)
  /\ (forall ok d',
        db_start_transaction _ sqlite3_exec d = Done (ok, d') ->
        in_transaction _ d = false /\ in_transaction _ d' = ok)
  /\ (forall ok d',
        db_commit_transaction _ sqlite3_exec d = Done (ok, d') ->
        in_transaction _ d = true /\ in_transaction _ d' = false)
  /\ (forall u d',
        db_abort_transaction _ sqlite3_exec d = Done (u, d') ->
        in_transaction _ d = true /\ in_transaction _ d' = false)
  /\ (forall f,
        In f (asserting_write_sites _ sqlite3_exec) ->
        (in_transaction _ d = false -> f d = Aborted)
        /\ (forall ok d', f d = Done (ok, d') ->
                          in_transaction _ d = true /\ in_transaction _ d' = true))
  /\ (db_htlc_fulfilled _ sqlite3_exec d <> Aborted
      /\ db_update_our_closing _ sqlite3_exec d <> Aborted)
  /\ (in_transaction _ d = true ->
      db_set_their_closing_script _ sqlite3_exec d = Aborted
      /\ db_update_their_closing _ sqlite3_exec d = Aborted).
Proof.
  split; [|split; [|split; [|split; [|split; [|split; [|split]]]]]].
  - destruct d as [[] s]; [reflexivity|discriminate].
  - destruct d as [[] s]; [discriminate|split; reflexivity].
  - intros ok d' H. destruct d as [[] s]; run_db;
      first [discriminate H | injection H as <- <-; split; reflexivity].
  - intros ok d' H. destruct d as [[] s]; run_db;
      first [discriminate H | injection H as <- <-; split; reflexivity].
  - intros u d' H. destruct d as [[] s]; run_db;
      first [discriminate H | injection H as <- <-; split; reflexivity].
  - intros f Hin. split.
    + apply asserting_site_outside; assumption.
    + intros ok d'. apply asserting_site_inside; assumption.
  - split; destruct d as [flag s]; run_db; discriminate.
  - destruct d as [[] s]; [split; reflexivity|discriminate].
Qed.

(** When COMMIT itself fails, [db_create_peer] goes on to
    [db_abort_transaction] with the flag already cleared. *)
Remark db_create_peer_after_failed_commit (d : db sqlite3) :
  in_transaction _ d = false ->
  (forall s c, snd (sqlite3_exec s c) = match c with COMMIT => false | _ => true end) ->
  db_create_peer _ sqlite3_exec d = Aborted.
Proof.
  intros Hflag Hexec. destruct d as [flag s]. cbn in Hflag. subst flag.
  unfold db_create_peer, db_start_transaction, db_commit_transaction,
         db_abort_transaction, bind, assert, ret, db_exec, set_in_transaction.
  cbn [in_transaction sql negb].
  repeat match goal with
         | |- context [sqlite3_exec ?s ?c] =>
             let H := fresh in
             pose proof (Hexec s c) as H;
             destruct (sqlite3_exec s c) as [? ?]; cbn [snd] in H; subst;
             cbn [in_transaction sql negb]
         end.
  reflexivity.
Qed.

End TransactionFlag.

(** ** Shachain blobs *)

Section ShachainPersistence.
Import Shachain.

Section ShachainBlob.

Lemma le_value_range bs :
  Forall is_byte bs -> 0 <= le_value bs < 256 ^ Z.of_nat (length bs).
Proof.
  induction 1 as [|b bs Hb _ IH]; cbn [le_value length].
  - cbn. lia.
  - rewrite Nat2Z.inj_succ, Z.pow_succ_r by lia. unfold is_byte in Hb. nia.
Qed.

Lemma le_bytes_le_value bs :
  Forall is_byte bs -> le_bytes (length bs) (le_value bs) = bs.
Proof.
  induction 1 as [|b bs Hb _ IH]; cbn [le_value length le_bytes]; [reflexivity|].
  unfold is_byte in Hb.
  assert (Hm : (b + 256 * le_value bs) mod 256 = b).
  { replace (b + 256 * le_value bs) with (b + le_value bs * 256) by lia.
    rewrite Z.mod_add by lia. apply Z.mod_small. lia. }
  assert (Hq : (b + 256 * le_value bs) / 256 = le_value bs).
  { replace (b + 256 * le_value bs) with (b + le_value bs * 256) by lia.
    rewrite Z.div_add by lia. rewrite (Z.div_small b) by lia. lia. }
  rewrite Hm, Hq, IH. reflexivity.
Qed.

Lemma is_byte_zeros n : Forall is_byte (replicate n 0).
Proof. apply Forall_replicate. unfold is_byte. lia. Qed.

Lemma pull_spec c n :
  cursor_ok c ->
  length (fst (pull c n)) = n /\ Forall is_byte (fst (pull c n))
  /\ cursor_ok (snd (pull c n)).
Proof.
  intros Hc. unfold pull. destruct c as [bs|]; cbn [cursor_ok] in Hc.
  - destruct (Nat.leb_spec n (length bs)); cbn [fst snd cursor_ok].
    + split; [rewrite length_take; lia|]. split; [apply Forall_take|apply Forall_drop]; assumption.
    + split; [apply length_replicate|]. split; [apply is_byte_zeros|exact I].
  - cbn [fst snd cursor_ok]. split; [apply length_replicate|]. split; [apply is_byte_zeros|exact I].
Qed.

Lemma pull_cursor c n m : snd (pull (snd (pull c n)) m) = snd (pull c (n + m)).
Proof.
  unfold pull. destruct c as [bs|]; [|reflexivity].
  destruct (Nat.leb_spec n (length bs)) as [Hn|Hn]; cbn [snd].
  - rewrite length_drop.
    destruct (Nat.leb_spec m (length bs - n)), (Nat.leb_spec (n + m) (length bs));
      cbn [snd]; try lia; [|reflexivity].
    rewrite drop_drop. reflexivity.
  - destruct (Nat.leb_spec (n + m) (length bs)); [lia|reflexivity].
Qed.

Lemma pull_le64_spec c :
  cursor_ok c ->
  u64 (fst (pull_le64 c)) /\ snd (pull_le64 c) = snd (pull c 8).
Proof.
  intros Hc. unfold pull_le64. destruct (pull_spec c 8 Hc) as (Hl & Hb & _).
  destruct (pull c 8) as [bs c']. cbn [fst snd] in *. split; [|reflexivity].
  pose proof (le_value_range bs Hb) as H. rewrite Hl in H. exact H.
Qed.

Lemma pull_le32_spec c :
  cursor_ok c ->
  u32 (fst (pull_le32 c)) /\ snd (pull_le32 c) = snd (pull c 4).
Proof.
  intros Hc. unfold pull_le32. destruct (pull_spec c 4 Hc) as (Hl & Hb & _).
  destruct (pull c 4) as [bs c']. cbn [fst snd] in *. split; [|reflexivity].
  pose proof (le_value_range bs Hb) as H. rewrite Hl in H. exact H.
Qed.

Lemma pull_known_spec k c :
  cursor_ok c ->
  length (fst (pull_known k c)) = k
  /\ Forall wf_slot (fst (pull_known k c))
  /\ snd (pull_known k c) = snd (pull c (40 * k))
  /\ cursor_ok (snd (pull_known k c)).
Proof.
  revert c. induction k as [|k IH]; intros c Hc; cbn [pull_known].
  - cbn [fst snd length]. repeat split; [constructor| |assumption].
    unfold pull. destruct c as [bs|]; [|reflexivity]. cbn. rewrite drop_0. reflexivity.
  - destruct (pull_le64_spec c Hc) as (Hi & Hci).
    destruct (pull_spec c 8 Hc) as (_ & _ & Hc1).
    destruct (pull_le64 c) as [i c1]. cbn [fst snd] in Hi, Hci. subst c1.
    destruct (pull_spec (snd (pull c 8)) SHA256_SIZE Hc1) as (Hl & _ & Hc2).
    pose proof (pull_cursor c 8 SHA256_SIZE) as Hcc.
    destruct (pull (snd (pull c 8)) SHA256_SIZE) as [h c2]. cbn [fst snd] in *. subst c2.
    destruct (IH _ Hc2) as (Hlen & Hwf & Hcur & Hok).
    destruct (pull_known k _) as [rest c3]. cbn [fst snd] in *.
    split; [cbn [length]; f_equal; exact Hlen|].
    split; [constructor; [split; assumption|exact Hwf]|].
    split; [|exact Hok].
    rewrite Hcur, pull_cursor. f_equal. f_equal. unfold SHA256_SIZE. lia.
Qed.

Lemma delinearize_shachain_cursor data :
  Forall is_byte data ->
  wf_shachain (fst (delinearize_shachain data))
  /\ snd (delinearize_shachain data)
     = match snd (pull (Some data) 2612) with Some [] => true | _ => false end.
Proof.
  intros Hd. unfold delinearize_shachain.
  assert (Hc : cursor_ok (Some data)) by exact Hd.
  destruct (pull_le64_spec _ Hc) as (Hmi & Hc1e).
  destruct (pull_spec _ 8 Hc) as (_ & _ & Hc1).
  destruct (pull_le64 (Some data)) as [mi c1]. cbn [fst snd] in Hmi, Hc1e. subst c1.
  destruct (pull_le32_spec _ Hc1) as (Hnv & Hc2e).
  destruct (pull_spec _ 4 Hc1) as (_ & _ & Hc2).
  destruct (pull_le32 _) as [nv c2]. cbn [fst snd] in Hnv, Hc2e. subst c2.
  destruct (pull_known_spec KNOWN_SLOTS _ Hc2) as (Hlen & Hwf & Hcur & _).
  destruct (pull_known _ _) as [ks c3]. cbn [fst snd] in *. subst c3.
  split; [split; assumption|].
  rewrite !pull_cursor. reflexivity.
Qed.

Lemma delinearize_length data :
  Forall is_byte data ->
  snd (delinearize_shachain data) = true <-> length data = 2612%nat.
Proof.
  intros Hd. rewrite (proj2 (delinearize_shachain_cursor data Hd)).
  unfold pull. destruct (Nat.leb_spec 2612 (length data)) as [Hle|Hlt]; cbn [snd].
  - destruct (drop 2612 data) as [|x l] eqn:E.
    + apply (f_equal length) in E. rewrite length_drop in E. cbn in E. split; [lia|reflexivity].
    + apply (f_equal length) in E. rewrite length_drop in E. cbn [length] in E.
      split; [discriminate|lia].
  - split; [discriminate|lia].
Qed.


Lemma known_at_wf s i : wf_shachain s -> wf_slot (known_at s i).
Proof.
  intros Hwf. unfold known_at.
  destruct (Nat.lt_ge_cases i (length (known s))) as [Hlt|Hge].
  - apply (proj1 (Forall_nth wf_slot _ (known s)) (wf_known _ Hwf) i Hlt).
  - rewrite nth_overflow by exact Hge. apply wf_zero_slot.
Qed.

Lemma linearize_overflow s :
  wf_shachain s -> 65 < num_valid s -> linearize_shachain s = Aborted.
Proof.
  intros Hwf Hgt. unfold linearize_shachain.
  rewrite fold_push_slots, fold_push_zeroes, length_seq.
  replace (KNOWN_SLOTS - Z.to_nat (num_valid s))%nat with 0%nat
    by (unfold KNOWN_SLOTS; lia).
  cbn [replicate map concat]. rewrite app_nil_r.
  unfold push_le64, push_le32, push. cbn [app].
  rewrite !length_app, !length_le_bytes, length_concat_slots.
  - rewrite length_map, length_seq. unfold SHACHAIN_SIZE.
    replace (_ =? _) with false; [reflexivity|]. symmetry. apply Z.eqb_neq. lia.
  - apply Forall_map, Forall_forall. intros i _. apply known_at_wf. exact Hwf.
Qed.

Lemma concat_slots_take ks n :
  Forall wf_slot ks ->
  concat (map slot_bytes (take n ks)) = take (40 * n) (concat (map slot_bytes ks)).
Proof.
  intros Hwf. revert n. induction Hwf as [|k ks [_ Hh] _ IH]; intros n.
  - rewrite take_nil. cbn [map concat]. rewrite take_nil. reflexivity.
  - destruct n as [|n].
    + rewrite Nat.mul_0_r, !take_0. reflexivity.
    + cbn [take map concat]. rewrite IH.
      replace (40 * S n)%nat with (length (slot_bytes k) + 40 * n)%nat.
      * rewrite take_app_add. reflexivity.
      * unfold slot_bytes. rewrite length_app, length_le_bytes, Hh. unfold SHA256_SIZE. lia.
Qed.

Lemma concat_zero_slots m :
  concat (map slot_bytes (replicate m zero_slot)) = replicate (40 * m) 0.
Proof.
  induction m as [|m IH]; cbn [replicate map concat]; [reflexivity|].
  rewrite IH. replace (40 * S m)%nat with (40 + 40 * m)%nat by lia.
  rewrite replicate_add. reflexivity.
Qed.

Lemma pull_le_bytes bs n :
  Forall is_byte bs -> (n <= length bs)%nat ->
  le_bytes n (le_value (fst (pull (Some bs) n))) = take n bs
  /\ snd (pull (Some bs) n) = Some (drop n bs).
Proof.
  intros Hb Hn. unfold pull.
  replace (n <=? length bs)%nat with true by (symmetry; apply Nat.leb_le; exact Hn).
  cbn [fst snd]. split; [|reflexivity].
  rewrite <- (length_take_le bs n Hn) at 1.
  apply le_bytes_le_value, Forall_take, Hb.
Qed.

Lemma pull_known_bytes k bs :
  Forall is_byte bs -> (40 * k <= length bs)%nat ->
  concat (map slot_bytes (fst (pull_known k (Some bs)))) = take (40 * k) bs.
Proof.
  revert bs. induction k as [|k IH]; intros bs Hb Hlen; cbn [pull_known].
  - cbn. rewrite take_0. reflexivity.
  - unfold pull_le64.
    destruct (pull_le_bytes bs 8 Hb ltac:(lia)) as [Hv Hc].
    destruct (pull (Some bs) 8) as [ib c1]. cbn [fst snd] in Hv, Hc. subst c1.
    unfold pull at 1.
    replace (SHA256_SIZE <=? length (drop 8 bs))%nat with true
      by (symmetry; apply Nat.leb_le; rewrite length_drop; unfold SHA256_SIZE; lia).
    rewrite drop_drop.
    specialize (IH (drop (8 + SHA256_SIZE) bs)).
    destruct (pull_known k _) as [rest c3]. cbn [fst snd map concat] in *.
    unfold slot_bytes at 1. cbn [index hash]. rewrite Hv, IH.
    + rewrite (take_take_drop bs 8 SHA256_SIZE).
      rewrite (take_take_drop bs (8 + SHA256_SIZE) (40 * k)).
      f_equal. unfold SHA256_SIZE. lia.
    + apply Forall_drop, Hb.
    + rewrite length_drop. unfold SHA256_SIZE. lia.
Qed.


Lemma pull_enough bs n :
  (n <= length bs)%nat -> pull (Some bs) n = (take n bs, Some (drop n bs)).
Proof.
  intros Hn. unfold pull.
  replace (n <=? length bs)%nat with true by (symmetry; apply Nat.leb_le; exact Hn).
  reflexivity.
Qed.

Lemma delinearize_fields data :
  length data = 2612%nat ->
  fst (delinearize_shachain data)
  = {| min_index := le_value (take 8 data);
       num_valid := le_value (take 4 (drop 8 data));
       known := fst (pull_known KNOWN_SLOTS (Some (drop 12 data))) |}.
Proof.
  intros Hlen. unfold delinearize_shachain, pull_le64, pull_le32.
  rewrite pull_enough by lia.
  rewrite pull_enough by (rewrite length_drop; lia).
  rewrite drop_drop. cbn [Nat.add].
  destruct (pull_known _ _) as [ks c]. reflexivity.
Qed.

Lemma le_bytes_le_value_take n bs :
  Forall is_byte bs -> (n <= length bs)%nat ->
  le_bytes n (le_value (take n bs)) = take n bs.
Proof.
  intros Hb Hn. pose proof (le_bytes_le_value (take n bs) (Forall_take _ _ _ Hb)) as H.
  rewrite length_take_le in H by exact Hn. exact H.
Qed.

Lemma resave_layout data :
  Forall is_byte data -> length data = 2612%nat ->
  let s := fst (delinearize_shachain data) in
  num_valid s <= 65 ->
  shachain_layout s
  = take (12 + 40 * Z.to_nat (num_valid s)) data
    ++ replicate (40 * (65 - Z.to_nat (num_valid s))) 0.
Proof.
  intros Hb Hlen s Hle.
  destruct (delinearize_shachain_cursor data Hb) as [Hwf _]. fold s in Hwf.
  pose proof (wf_num_valid _ Hwf) as Hnv. unfold u32 in Hnv.
  pose proof (wf_known _ Hwf) as Hks.
  unfold shachain_layout, stored_slots.
  rewrite map_app, concat_app, concat_zero_slots.
  rewrite concat_slots_take by exact Hks.
  clear Hwf Hks. subst s. rewrite (delinearize_fields data Hlen) in *.
  cbn [min_index num_valid known] in *.
  set (n := Z.to_nat (le_value (take 4 (drop 8 data)))) in *.
  assert (Hn : (n <= 65)%nat) by lia.
  rewrite pull_known_bytes by first [apply Forall_drop; exact Hb
                                    | rewrite length_drop; unfold KNOWN_SLOTS; lia].
  rewrite take_take.
  replace (Nat.min (40 * n) (40 * KNOWN_SLOTS)) with (40 * n)%nat
    by (unfold KNOWN_SLOTS; lia).
  rewrite (le_bytes_le_value_take 8 data) by first [exact Hb | lia].
  rewrite (le_bytes_le_value_take 4 (drop 8 data))
    by first [apply Forall_drop; exact Hb | rewrite length_drop; lia].
  unfold KNOWN_SLOTS. rewrite !app_assoc. f_equal.
  rewrite (take_take_drop data 8 4).
  change (8 + 4)%nat with 12%nat.
  apply (take_take_drop data 12).
Qed.

End ShachainBlob.

(** X9: [delinearize_shachain] checks nothing but the length: on a blob
    of bytes it reports success exactly when the blob is 2612 bytes long, and
    what it leaves in the shachain is always within the fields' ranges. *)
Theorem delinearize_accepts_by_length data :
  Forall is_byte data ->
  (snd (delinearize_shachain data) = true <-> length data = 2612%nat)
  /\ wf_shachain (fst (delinearize_shachain data)).
Proof.
  intros Hb. split; [apply delinearize_length; exact Hb|].
  apply delinearize_shachain_cursor. exact Hb.
Qed.

(** X10: [linearize_shachain] dies on its assertion exactly when
    [num_valid] is above 65, the number of slots. *)
Theorem linearize_aborts_iff s :
  wf_shachain s -> (linearize_shachain s = Aborted <-> 65 < num_valid s).
Proof.
  intros Hwf. split.
  - intros Hab. destruct (Z.lt_ge_cases 65 (num_valid s)) as [|Hle]; [assumption|].
    destruct (linearize_shachain_layout s Hwf Hle) as [Hlin _]. congruence.
  - apply linearize_overflow. exact Hwf.
Qed.

(** X11: saving what was loaded: for a 2612-byte blob whose [num_valid]
    field is at most 65, [linearize_shachain] of the shachain
    [delinearize_shachain] read gives the blob's header and its first
    [num_valid] slots unchanged, followed by zeroes. *)
Theorem resave_loaded_shachain data :
  Forall is_byte data -> length data = 2612%nat ->
  let s := fst (delinearize_shachain data) in
  num_valid s <= 65 ->
  linearize_shachain s
  = Done (take (12 + 40 * Z.to_nat (num_valid s)) data
          ++ replicate (40 * (65 - Z.to_nat (num_valid s))) 0).
Proof.
  intros Hb Hlen s Hle.
  destruct (delinearize_shachain_cursor data Hb) as [Hwf _]. fold s in Hwf.
  destruct (linearize_shachain_layout s Hwf Hle) as [Hlin _].
  rewrite Hlin. f_equal. apply resave_layout; assumption.
Qed.

End ShachainPersistence.

(** ** Writers that commit for themselves *)

Section SelfCommitting.
Import Db.

Variable sqlite3 : Type.
Variable sqlite3_exec : sqlite3 -> statement -> sqlite3 * bool.

Ltac step_db :=
  match goal with
  | |- context [sqlite3_exec ?s ?c] =>
      let ok := fresh "ok" in
      let E := fresh "E" in
      destruct (sqlite3_exec s c) as [? ok] eqn:E; destruct ok;
      cbn [in_transaction sql negb]
  end.

Ltac failed_at E :=
  match type of E with
  | sqlite3_exec ?s ?c = _ =>
      exists s, c; split; [discriminate|rewrite E; reflexivity]
  end.

Lemma db_create_peer_outcome (d : db sqlite3) :
  in_transaction _ d = false ->
  match db_create_peer _ sqlite3_exec d with
  | Done (true, d') => in_transaction _ d' = false
  | Done (false, d') =>
      in_transaction _ d' = false
      /\ exists s c, c <> COMMIT /\ snd (sqlite3_exec s c) = false
  | Aborted => exists s, snd (sqlite3_exec s COMMIT) = false
  end.
Proof.
  destruct d as [flag s0]. cbn [in_transaction]. intros ->.
  unfold db_create_peer, db_start_transaction, db_commit_transaction,
         db_abort_transaction, bind, assert, ret, db_exec, set_in_transaction.
  cbn [in_transaction sql negb].
  step_db; [|split; [reflexivity|failed_at E]].
  step_db; [|step_db; (split; [reflexivity|failed_at E0])].
  step_db; [|step_db; (split; [reflexivity|failed_at E1])].
  step_db; [|step_db; (split; [reflexivity|failed_at E2])].
  step_db; [reflexivity|].
  eexists. rewrite E3. reflexivity.
Qed.

Lemma db_set_visible_state_outcome (d : db sqlite3) :
  in_transaction _ d = false ->
  match db_set_visible_state _ sqlite3_exec d with
  | Done (true, d') => in_transaction _ d' = false
  | Done (false, d') =>
      in_transaction _ d' = false
      /\ exists s c, c <> COMMIT /\ snd (sqlite3_exec s c) = false
  | Aborted => exists s, snd (sqlite3_exec s COMMIT) = false
  end.
Proof.
  destruct d as [flag s0]. cbn [in_transaction]. intros ->.
  unfold db_set_visible_state, db_start_transaction, db_commit_transaction,
         db_abort_transaction, bind, assert, ret, db_exec, set_in_transaction.
  cbn [in_transaction sql negb].
  step_db; [|split; [reflexivity|failed_at E]].
  step_db; [|step_db; (split; [reflexivity|failed_at E0])].
  step_db; [reflexivity|].
  eexists. rewrite E1. reflexivity.
Qed.

(** X15: [db_create_peer] and [db_set_visible_state] open and commit
    their own transaction: called inside a transaction they die on the
    assertion of [db_start_transaction]; whenever they return, the flag was
    clear before and is clear after; they return false only when a statement
    other than COMMIT was refused; and, called outside a transaction, they die
    only when a COMMIT was refused (in [db_abort_transaction], the flag being
    clear by then). *)
Theorem self_committing_writer_outcomes (f : M sqlite3 bool) (d : db sqlite3) :
  f = db_create_peer _ sqlite3_exec \/ f = db_set_visible_state _ sqlite3_exec ->
  (in_transaction _ d = true -> f d = Aborted)
  /\ (forall ok d', f d = Done (ok, d') ->
                    in_transaction _ d = false /\ in_transaction _ d' = false)
  /\ (forall d', f d = Done (false, d') ->
                 exists s c, c <> COMMIT /\ snd (sqlite3_exec s c) = false)
  /\ (in_transaction _ d = false -> f d = Aborted ->
      exists s, snd (sqlite3_exec s COMMIT) = false).
Proof.
  intros Hf.
  assert (Hin : in_transaction _ d = true -> f d = Aborted).
  { destruct d as [flag s0]. cbn [in_transaction]. intros ->.
    destruct Hf as [-> | ->]; reflexivity. }
  assert (Hout : in_transaction _ d = false ->
                 match f d with
                 | Done (true, d') => in_transaction _ d' = false
                 | Done (false, d') =>
                     in_transaction _ d' = false
                     /\ exists s c, c <> COMMIT /\ snd (sqlite3_exec s c) = false
                 | Aborted => exists s, snd (sqlite3_exec s COMMIT) = false
                 end).
  { destruct Hf as [-> | ->];
      [apply db_create_peer_outcome|apply db_set_visible_state_outcome]. }
  split; [exact Hin|]. split; [|split].
  - intros ok d' Hrun. destruct (in_transaction _ d) eqn:Hflag.
    + rewrite (Hin eq_refl) in Hrun. discriminate Hrun.
    + specialize (Hout eq_refl). rewrite Hrun in Hout.
      split; [reflexivity|]. destruct ok; [exact Hout|apply Hout].
  - intros d' Hrun. destruct (in_transaction _ d) eqn:Hflag.
    + rewrite (Hin eq_refl) in Hrun. discriminate Hrun.
    + specialize (Hout eq_refl). rewrite Hrun in Hout. apply Hout.
  - intros Hflag Hrun. specialize (Hout Hflag). rewrite Hrun in Hout. exact Hout.
Qed.


Ltac step_rec :=
  match goal with
  | H : context [sqlite3_exec ?s ?c] |- _ =>
      let ok := fresh "ok" in
      destruct (sqlite3_exec s c) as [? ok]; destruct ok;
      cbn [in_transaction sql negb fst snd] in H; [|discriminate H]
  end.

(** X16: [db_forget_peer] dies unless the peer is closed and no
    transaction is open; when it returns, the flag is clear again and the
    engine was handed exactly BEGIN IMMEDIATE, one DELETE for each of the nine
    tables in the source's order, and COMMIT; with an engine that refuses
    nothing it returns. *)
Theorem db_forget_peer_all_or_nothing (closed : bool)
    (d : db (sqlite3 * list statement)) :
  let run := db_forget_peer _ (recording sqlite3_exec) closed d in
  (closed = false \/ in_transaction _ d = true -> run = Aborted)
  /\ (forall u d',
        run = Done (u, d') ->
        closed = true /\ in_transaction _ d = false /\ in_transaction _ d' = false
        /\ snd (sql _ d')
           = snd (sql _ d)
             ++ BEGIN_IMMEDIATE :: map DELETE_from forget_tables ++ [COMMIT])
  /\ ((forall s c, snd (sqlite3_exec s c) = true) ->
      closed = true -> in_transaction _ d = false -> exists d', run = Done (tt, d')).
Proof.
  cbv zeta. destruct d as [flag [s0 log]].
  unfold db_forget_peer, db_start_transaction, db_commit_transaction, forget_tables,
         delete_tables, fatal, bind, assert, ret, db_exec, set_in_transaction, recording.
  cbn [in_transaction sql negb fst snd].
  split; [|split].
  - intros [-> | ->]; [reflexivity|]. destruct closed; reflexivity.
  - intros u d' Hrun. destruct closed; [|discriminate Hrun].
    destruct flag; [discriminate Hrun|].
    cbn [in_transaction sql negb fst snd] in Hrun.
    do 11 step_rec.
    injection Hrun as <- <-. cbn [in_transaction sql snd].
    repeat split. rewrite <- !app_assoc. reflexivity.
  - intros Hok -> ->. cbn [in_transaction sql negb fst snd].
    repeat match goal with
           | |- context [sqlite3_exec ?s ?c] =>
               let H := fresh in
               pose proof (Hok s c) as H;
               destruct (sqlite3_exec s c) as [? ?]; cbn [snd] in H; subst;
               cbn [in_transaction sql negb fst snd]
           end.
    eexists. reflexivity.
Qed.

End SelfCommitting.

(** ** FULFILL_HTLC and FAIL_HTLC *)

Section RemovalAcceptors.
Import Packets Removal.

Variable sha256 : sha256_t -> sha256_t.
Variable htlc_state_name : htlc_state -> string.





Lemma find_commited_htlc_spec p id :
  snd (find_commited_htlc htlc_state_name p id) = htlc_get (htlcs p) id LOCAL
  /\ (fst (find_commited_htlc htlc_state_name p id) = None
      <-> exists h, htlc_get (htlcs p) id LOCAL = Some h
                    /\ state h = SENT_ADD_ACK_REVOCATION).
Proof.
  unfold find_commited_htlc.
  destruct (htlc_get (htlcs p) id LOCAL) as [h|].
  - destruct (state h) eqn:E; cbn [fst snd]; (split; [reflexivity|]);
      (split; [first [discriminate | intros _; exists h; split; [reflexivity|exact E]]
              |intros (h' & Hh & Hs); injection Hh as <-; congruence]).
  - cbn [fst snd]. split; [reflexivity|].
    split; [discriminate|]. intros (h' & Hh & _). discriminate Hh.
Qed.


(** X17: [accept_pkt_htlc_fail] hands out through [h] whatever [htlc_get]
    finds for the id on the LOCAL side, and accepts exactly when that HTLC
    exists and is in state SENT_ADD_ACK_REVOCATION; otherwise the error names
    the missing id, or the id and the state's name. *)
Theorem htlc_fail_lookup (p : peer) (f : UpdateFailHtlc) :
  let res := accept_pkt_htlc_fail htlc_state_name p f in
  let found := htlc_get (htlcs p) (fail_id f) LOCAL in
  snd res = found
  /\ (fst res = None
      <-> exists h, found = Some h /\ state h = SENT_ADD_ACK_REVOCATION)
  /\ (found = None ->
      fst res = Some (pkt_err ("Did not find HTLC " ++ PRIu64 (fail_id f))))
  /\ (forall h,
        found = Some h -> state h <> SENT_ADD_ACK_REVOCATION ->
        fst res = Some (pkt_err ("HTLC " ++ PRIu64 (fail_id f) ++ " state "
                                 ++ htlc_state_name (state h)))).
Proof.
  cbv zeta. unfold accept_pkt_htlc_fail.
  destruct (find_commited_htlc_spec p (fail_id f)) as [Hsnd Hfst].
  assert (Hres : (let (o, h) := find_commited_htlc htlc_state_name p (fail_id f) in
                  match o with Some err => (Some err, h) | None => (None, h) end)
                 = find_commited_htlc htlc_state_name p (fail_id f)).
  { destruct (find_commited_htlc _ _ _) as [[e|] h]; reflexivity. }
  rewrite Hres. split; [exact Hsnd|]. split; [exact Hfst|].
  unfold find_commited_htlc. split.
  - intros ->. reflexivity.
  - intros h -> Hs. destruct (state h); (reflexivity || contradiction).
Qed.

Lemma committed_or_not (s : htlc_state) :
  s = SENT_ADD_ACK_REVOCATION \/ s <> SENT_ADD_ACK_REVOCATION.
Proof. destruct s; first [left; reflexivity | right; discriminate]. Qed.

Lemma htlc_fulfill_cases (p : peer) (f : UpdateFulfillHtlc) :
  accept_pkt_htlc_fulfill sha256 htlc_state_name p f =
    match htlc_get (htlcs p) (fulfill_id f) LOCAL with
    | None => Done (fst (find_commited_htlc htlc_state_name p (fulfill_id f)), p, None, None)
    | Some h =>
        match state h with
        | SENT_ADD_ACK_REVOCATION =>
            if bool_decide (sha256 (fulfill_r f) = rhash h) then
              match r h with
              | Some _ => Done (None, p, Some h, Some true)
              | None =>
                  Done (None,
                        set_htlcs p (htlc_write (htlcs p) (fulfill_id f) LOCAL
                                                (htlc_set_r h (fulfill_r f))),
                        Some (htlc_set_r h (fulfill_r f)), Some false)
              end
            else Done (Some (pkt_err ("Invalid r for " ++ PRIu64 (fulfill_id f))),
                       p, Some h, None)
        | _ => Done (fst (find_commited_htlc htlc_state_name p (fulfill_id f)),
                     p, Some h, None)
        end
    end.
Proof.
  unfold accept_pkt_htlc_fulfill, find_commited_htlc.
  destruct (htlc_get (htlcs p) (fulfill_id f) LOCAL) as [h|]; [|reflexivity].
  destruct (state h); try reflexivity.
  destruct (bool_decide _); reflexivity.
Qed.

(** X18: [accept_pkt_htlc_fulfill] accepts exactly when the id names a
    LOCAL HTLC in state SENT_ADD_ACK_REVOCATION whose [rhash] is the SHA-256 of
    the preimage sent; it then either reports the HTLC as already fulfilled
    and changes nothing, or stores the preimage in that HTLC; every error
    leaves the peer as it was and [was_already_fulfilled] unwritten, and a
    preimage that does not hash to [rhash] is refused as an invalid r. *)
Theorem htlc_fulfill_acceptance (p : peer) (f : UpdateFulfillHtlc) :
  let accept := accept_pkt_htlc_fulfill sha256 htlc_state_name in
  let found := htlc_get (htlcs p) (fulfill_id f) LOCAL in
  accept p f <> Aborted
  /\ (forall p' oh ow,
        accept p f = Done (None, p', oh, ow)
        <-> exists h,
              found = Some h /\ state h = SENT_ADD_ACK_REVOCATION
              /\ sha256 (fulfill_r f) = rhash h
              /\ ((is_Some (r h) /\ p' = p /\ oh = Some h /\ ow = Some true)
                  \/ (r h = None
                      /\ p' = set_htlcs p (htlc_write (htlcs p) (fulfill_id f) LOCAL
                                                      (htlc_set_r h (fulfill_r f)))
                      /\ oh = Some (htlc_set_r h (fulfill_r f))
                      /\ ow = Some false)))
  /\ (forall e p' oh ow,
        accept p f = Done (Some e, p', oh, ow) -> p' = p /\ oh = found /\ ow = None)
  /\ (forall h,
        found = Some h -> state h = SENT_ADD_ACK_REVOCATION ->
        sha256 (fulfill_r f) <> rhash h ->
        accept p f = Done (Some (pkt_err ("Invalid r for " ++ PRIu64 (fulfill_id f))),
                           p, Some h, None)).
Proof.
  cbv zeta. rewrite htlc_fulfill_cases.
  destruct (find_commited_htlc_spec p (fulfill_id f)) as [_ Hfst].
  destruct (htlc_get (htlcs p) (fulfill_id f) LOCAL) as [h|] eqn:Hget.
  - destruct (committed_or_not (state h)) as [Hs|Hs].
    + rewrite Hs.
      destruct (bool_decide_reflect (sha256 (fulfill_r f) = rhash h)) as [Hr|Hr].
      * destruct (r h) as [rv|] eqn:Hrh.
        -- split; [discriminate|]. split; [|split].
           ++ intros p' oh ow. split.
              ** intros H. injection H as <- <- <-. exists h.
                 repeat split; try assumption. left.
                 split; [exists rv; exact Hrh|repeat split].
              ** intros (h' & Hh' & _ & _ & [(_ & -> & -> & ->)|(Hn & _)]).
                 --- injection Hh' as <-. reflexivity.
                 --- injection Hh' as <-. congruence.
           ++ intros e p' oh ow H. discriminate H.
           ++ intros h' Hh' _ Hne. injection Hh' as <-. contradiction.
        -- split; [discriminate|]. split; [|split].
           ++ intros p' oh ow. split.
              ** intros H. injection H as <- <- <-. exists h.
                 repeat split; try assumption. right.
                 split; [exact Hrh|repeat split].
              ** intros (h' & Hh' & _ & _ & [([x Hx] & _)|(_ & -> & -> & ->)]).
                 --- injection Hh' as <-. congruence.
                 --- injection Hh' as <-. reflexivity.
           ++ intros e p' oh ow H. discriminate H.
           ++ intros h' Hh' _ Hne. injection Hh' as <-. contradiction.
      * split; [discriminate|]. split; [|split].
        -- intros p' oh ow. split; [discriminate|].
           intros (h' & Hh' & _ & Hr' & _). injection Hh' as <-. contradiction.
        -- intros e p' oh ow H. injection H as _ <- <- <-. repeat split.
        -- intros h' Hh' _ _. injection Hh' as <-. reflexivity.
    + assert (Herr : fst (find_commited_htlc htlc_state_name p (fulfill_id f)) <> None).
      { intros H. apply Hfst in H as (h' & Hh' & Hs'). congruence. }
      destruct (fst (find_commited_htlc htlc_state_name p (fulfill_id f))) as [e0|];
        [|contradiction].
      assert (Hres : match state h with
                     | SENT_ADD_ACK_REVOCATION =>
                         if bool_decide (sha256 (fulfill_r f) = rhash h) then
                           match r h with
                           | Some _ => Done (None, p, Some h, Some true)
                           | None =>
                               Done (None,
                                     set_htlcs p (htlc_write (htlcs p) (fulfill_id f) LOCAL
                                                    (htlc_set_r h (fulfill_r f))),
                                     Some (htlc_set_r h (fulfill_r f)), Some false)
                           end
                         else Done (Some (pkt_err ("Invalid r for "
                                                   ++ PRIu64 (fulfill_id f))),
                                    p, Some h, None)
                     | _ => Done (Some e0, p, Some h, None)
                     end = Done (Some e0, p, Some h, @None bool)).
      { destruct (state h); (reflexivity || contradiction). }
      rewrite Hres. split; [discriminate|]. split; [|split].
      * intros p' oh ow. split; [discriminate|].
        intros (h' & Hh' & Hs' & _). injection Hh' as <-. contradiction.
      * intros e p' oh ow H. injection H as _ <- <- <-. repeat split.
      * intros h' Hh' Hs' _. injection Hh' as <-. contradiction.
  - split; [discriminate|]. split; [|split].
    + intros p' oh ow. split.
      * intros H. injection H as H _ _ _. apply Hfst in H as (h' & Hh' & _). discriminate Hh'.
      * intros (h' & Hh' & _). discriminate Hh'.
    + intros e p' oh ow H. injection H as _ <- <- <-. repeat split.
    + intros h' Hh'. discriminate Hh'.
Qed.



End RemovalAcceptors.

(** ** Replaying the HTLC table *)

Section Replay.
Import Channel Restore.

Variable is_dust : Z -> bool.
Variable htlc_has : htlc -> htlc_flag -> bool.

Lemma htlcs_msat_rev hs : htlcs_msat (rev hs) = htlcs_msat hs.
Proof.
  induction hs as [|h hs IH]; cbn [rev htlcs_msat]; [reflexivity|].
  rewrite htlcs_msat_app, IH. cbn [htlcs_msat]. lia.
Qed.

Lemma replay_htlc_reach was com cs L h ocs' :
  reachable is_dust cs L -> htlc_ok h ->
  replay_htlc is_dust htlc_has was com (Some cs) h = Done ocs' ->
  exists cs', ocs' = Some cs' /\ anchor cs' = anchor cs
              /\ reachable is_dust cs'
                   ((if in_commitment htlc_has was com h then [h] else []) ++ L).
Proof.
  intros Hreach Hh. unfold replay_htlc, in_commitment.
  destruct (htlc_has h was); cbn [andb].
  - destruct (cstate_add_htlc is_dust cs h) as [[[] cs1]|] eqn:Hadd; try discriminate.
    pose proof (reach_add is_dust cs L h cs1 Hreach Hh Hadd) as Hreach1.
    destruct (add_htlc_effect is_dust cs L h cs1 (reachable_inv is_dust _ _ Hreach) Hh Hadd)
      as (_ & _ & _ & _ & Han & _).
    destruct (htlc_has h com); cbn [negb].
    + intros H. injection H as <-. exists cs1. repeat split; assumption.
    + unfold htlc_resolved, cstate_fulfill_htlc, cstate_fail_htlc.
      destruct (r h).
      * destruct (remove_htlc is_dust cs1 _ _ h) as [cs2|] eqn:Hrem; [|discriminate].
        intros H. injection H as <-. exists cs2. split; [reflexivity|].
        destruct (remove_htlc_effect is_dust cs1 [] h L _ cs2
                    (reachable_inv is_dust _ _ Hreach1) Hrem) as (_ & _ & _ & _ & Han2 & _).
        split; [congruence|].
        apply (reach_fulfill is_dust cs1 [] h L cs2 Hreach1 Hrem).
      * destruct (remove_htlc is_dust cs1 _ _ h) as [cs2|] eqn:Hrem; [|discriminate].
        intros H. injection H as <-. exists cs2. split; [reflexivity|].
        destruct (remove_htlc_effect is_dust cs1 [] h L _ cs2
                    (reachable_inv is_dust _ _ Hreach1) Hrem) as (_ & _ & _ & _ & Han2 & _).
        split; [congruence|].
        apply (reach_fail is_dust cs1 [] h L cs2 Hreach1 Hrem).
  - intros H. injection H as <-. exists cs. repeat split; assumption.
Qed.

Lemma load_htlc_sides st h st' :
  load_htlc is_dust htlc_has st h = Done st' ->
  replay_htlc is_dust htlc_has HTLC_LOCAL_F_WAS_COMMITTED HTLC_LOCAL_F_COMMITTED
              (local_cstate st) h = Done (local_cstate st')
  /\ replay_htlc is_dust htlc_has HTLC_REMOTE_F_WAS_COMMITTED HTLC_REMOTE_F_COMMITTED
                 (remote_cstate st) h = Done (remote_cstate st')
  /\ htlc_id_counter st'
     = match htlc_owner h with
       | LOCAL => if htlc_id_counter st <=? htlc_id h
                  then wrap64 (htlc_id h + 1) else htlc_id_counter st
       | REMOTE => htlc_id_counter st
       end.
Proof.
  unfold load_htlc. intros Hone.
  destruct (state h); try discriminate Hone;
    destruct (replay_htlc _ _ _ _ (local_cstate st) h); try discriminate Hone;
    destruct (replay_htlc _ _ _ _ (remote_cstate st) h); try discriminate Hone;
    injection Hone as <-; repeat split.
Qed.

Lemma load_htlcs_local rows : forall st st' l L,
  Forall htlc_ok rows ->
  local_cstate st = Some l -> reachable is_dust l L ->
  load_htlcs is_dust htlc_has st rows = Done st' ->
  exists l',
    local_cstate st' = Some l' /\ anchor l' = anchor l
    /\ reachable is_dust l'
         (rev (filter (fun h => in_commitment htlc_has HTLC_LOCAL_F_WAS_COMMITTED
                                              HTLC_LOCAL_F_COMMITTED h = true) rows) ++ L).
Proof.
  induction rows as [|h rows IH]; intros st st' l L Hok Hl Hrl Hload;
    cbn [load_htlcs] in Hload.
  - injection Hload as <-. exists l. cbn. repeat split; assumption.
  - apply Forall_cons_1 in Hok as [Hh Hok].
    destruct (load_htlc is_dust htlc_has st h) as [st1|] eqn:Hone; [|discriminate].
    apply load_htlc_sides in Hone as (El & _ & _). rewrite Hl in El.
    destruct (replay_htlc_reach _ _ _ _ _ _ Hrl Hh El) as (l1 & Hl1 & Han1 & Hrl1).
    destruct (IH st1 st' l1 _ Hok Hl1 Hrl1 Hload) as (l' & Hl' & Han' & Hreach).
    exists l'. split; [exact Hl'|]. split; [congruence|].
    rewrite filter_cons.
    destruct (in_commitment htlc_has HTLC_LOCAL_F_WAS_COMMITTED HTLC_LOCAL_F_COMMITTED h);
      [rewrite decide_True by reflexivity|rewrite decide_False by discriminate];
      cbn [rev app] in *; rewrite <- ?app_assoc; exact Hreach.
Qed.

Lemma load_htlcs_remote rows : forall st st' l L,
  Forall htlc_ok rows ->
  remote_cstate st = Some l -> reachable is_dust l L ->
  load_htlcs is_dust htlc_has st rows = Done st' ->
  exists l',
    remote_cstate st' = Some l' /\ anchor l' = anchor l
    /\ reachable is_dust l'
         (rev (filter (fun h => in_commitment htlc_has HTLC_REMOTE_F_WAS_COMMITTED
                                              HTLC_REMOTE_F_COMMITTED h = true) rows) ++ L).
Proof.
  induction rows as [|h rows IH]; intros st st' l L Hok Hl Hrl Hload;
    cbn [load_htlcs] in Hload.
  - injection Hload as <-. exists l. cbn. repeat split; assumption.
  - apply Forall_cons_1 in Hok as [Hh Hok].
    destruct (load_htlc is_dust htlc_has st h) as [st1|] eqn:Hone; [|discriminate].
    apply load_htlc_sides in Hone as (_ & El & _). rewrite Hl in El.
    destruct (replay_htlc_reach _ _ _ _ _ _ Hrl Hh El) as (l1 & Hl1 & Han1 & Hrl1).
    destruct (IH st1 st' l1 _ Hok Hl1 Hrl1 Hload) as (l' & Hl' & Han' & Hreach).
    exists l'. split; [exact Hl'|]. split; [congruence|].
    rewrite filter_cons.
    destruct (in_commitment htlc_has HTLC_REMOTE_F_WAS_COMMITTED HTLC_REMOTE_F_COMMITTED h);
      [rewrite decide_True by reflexivity|rewrite decide_False by discriminate];
      cbn [rev app] in *; rewrite <- ?app_assoc; exact Hreach.
Qed.

Lemma load_htlcs_none_local rows : forall st st',
  local_cstate st = None ->
  load_htlcs is_dust htlc_has st rows = Done st' -> local_cstate st' = None.
Proof.
  induction rows as [|h rows IH]; intros st st' Hl Hload; cbn [load_htlcs] in Hload.
  - injection Hload as <-. exact Hl.
  - destruct (load_htlc is_dust htlc_has st h) as [st1|] eqn:Hone; [|discriminate].
    apply load_htlc_sides in Hone as (El & _ & _). rewrite Hl in El.
    unfold replay_htlc in El. destruct (htlc_has h _); [discriminate|].
    injection El as El. apply (IH st1 st' (eq_sym El) Hload).
Qed.

Lemma load_htlcs_none_remote rows : forall st st',
  remote_cstate st = None ->
  load_htlcs is_dust htlc_has st rows = Done st' -> remote_cstate st' = None.
Proof.
  induction rows as [|h rows IH]; intros st st' Hl Hload; cbn [load_htlcs] in Hload.
  - injection Hload as <-. exact Hl.
  - destruct (load_htlc is_dust htlc_has st h) as [st1|] eqn:Hone; [|discriminate].
    apply load_htlc_sides in Hone as (_ & El & _). rewrite Hl in El.
    unfold replay_htlc in El. destruct (htlc_has h _); [discriminate|].
    injection El as El. apply (IH st1 st' (eq_sym El) Hload).
Qed.

Lemma initial_cstate_anchor a rate f cs :
  u64 a -> initial_cstate a rate f = Done (Some cs) -> anchor cs = a.
Proof.
  intros Ha Hi. unfold u64 in Ha. rewrite initial_cstate_spec in Hi by lia.
  destruct (_ <=? _); [discriminate|]. destruct (_ <? _); [discriminate|].
  injection Hi as <-. destruct f; reflexivity.
Qed.

(** X20: when [load_peer_htlcs] returns, for an anchor and fee rates that
    fit in 64 bits and rows whose amounts are all below 2^63 msat, each of
    the two rebuilt channel states is a reachable state that carries exactly
    the rows still committed on its side (the latest first): its anchor is
    the peer's, its funds plus those rows' amounts make up the anchor in
    msat, and the staging state of that side is a copy of it. *)
Theorem replay_conserves_anchor a lrate rrate f rows st :
  u64 a -> u64 lrate -> u64 rrate -> Forall htlc_ok rows ->
  load_peer_htlcs is_dust htlc_has a lrate rrate f rows = Done st ->
  (let cs := local_commit_cstate st in
   let held := filter (fun h => in_commitment htlc_has HTLC_LOCAL_F_WAS_COMMITTED
                                              HTLC_LOCAL_F_COMMITTED h = true) rows in
   reachable is_dust cs (rev held)
   /\ anchor cs = a /\ funds cs + htlcs_msat held = a * 1000
   /\ local_staging_cstate st = cs)
  /\ (let cs := remote_commit_cstate st in
      let held := filter (fun h => in_commitment htlc_has HTLC_REMOTE_F_WAS_COMMITTED
                                                 HTLC_REMOTE_F_COMMITTED h = true) rows in
      reachable is_dust cs (rev held)
      /\ anchor cs = a /\ funds cs + htlcs_msat held = a * 1000
      /\ remote_staging_cstate st = cs).
Proof.
  intros Ha Hl Hr Hok Hload. unfold load_peer_htlcs in Hload.
  destruct (initial_cstate a lrate f) as [l0|] eqn:El; [|discriminate].
  destruct (initial_cstate a rrate f) as [r0|] eqn:Er; [|discriminate].
  destruct (load_htlcs is_dust htlc_has _ rows) as [st0|] eqn:Hloop; [|discriminate].
  destruct (local_cstate st0) as [lcs|] eqn:Hlcs; [|discriminate].
  destruct (remote_cstate st0) as [rcs|] eqn:Hrcs; [|discriminate].
  injection Hload as <-.
  cbn [local_commit_cstate remote_commit_cstate local_staging_cstate
       remote_staging_cstate]. unfold copy_cstate.
  split; cbv zeta.
  - destruct l0 as [l0|].
    + pose proof (reach_initial is_dust a lrate f l0 Ha Hl El) as Hreach.
      destruct (load_htlcs_local rows
                  {| local_cstate := Some l0; remote_cstate := r0; htlc_id_counter := 0 |}
                  st0 l0 [] Hok eq_refl Hreach Hloop)
        as (l' & Hl' & Han & Hreach').
      rewrite Hlcs in Hl'. injection Hl' as <-. rewrite app_nil_r in Hreach'.
      rewrite (initial_cstate_anchor a lrate f l0 Ha El) in Han.
      split; [exact Hreach'|]. split; [exact Han|]. split; [|reflexivity].
      pose proof (inv_funds _ _ _ (reachable_inv is_dust _ _ Hreach')) as Hf.
      rewrite htlcs_msat_rev, Han in Hf. exact Hf.
    + rewrite (load_htlcs_none_local rows
                 {| local_cstate := None; remote_cstate := r0; htlc_id_counter := 0 |}
                 st0 eq_refl Hloop) in Hlcs.
      discriminate Hlcs.
  - destruct r0 as [r0|].
    + pose proof (reach_initial is_dust a rrate f r0 Ha Hr Er) as Hreach.
      destruct (load_htlcs_remote rows
                  {| local_cstate := l0; remote_cstate := Some r0; htlc_id_counter := 0 |}
                  st0 r0 [] Hok eq_refl Hreach Hloop)
        as (l' & Hl' & Han & Hreach').
      rewrite Hrcs in Hl'. injection Hl' as <-. rewrite app_nil_r in Hreach'.
      rewrite (initial_cstate_anchor a rrate f r0 Ha Er) in Han.
      split; [exact Hreach'|]. split; [exact Han|]. split; [|reflexivity].
      pose proof (inv_funds _ _ _ (reachable_inv is_dust _ _ Hreach')) as Hf.
      rewrite htlcs_msat_rev, Han in Hf. exact Hf.
    + rewrite (load_htlcs_none_remote rows
                 {| local_cstate := l0; remote_cstate := None; htlc_id_counter := 0 |}
                 st0 eq_refl Hloop) in Hrcs.
      discriminate Hrcs.
Qed.

Lemma load_htlcs_counter rows : forall st st',
  Forall (fun h => 0 <= htlc_id h < 2 ^ 64 - 1) rows ->
  load_htlcs is_dust htlc_has st rows = Done st' ->
  htlc_id_counter st <= htlc_id_counter st'
  /\ (forall h, h ∈ rows -> htlc_owner h = LOCAL -> htlc_id h < htlc_id_counter st')
  /\ (htlc_id_counter st' = htlc_id_counter st
      \/ exists h, h ∈ rows /\ htlc_owner h = LOCAL
                   /\ htlc_id_counter st' = htlc_id h + 1).
Proof.
  induction rows as [|h rows IH]; intros st st' Hids Hload; cbn [load_htlcs] in Hload.
  - injection Hload as <-. split; [lia|]. split; [|left; reflexivity].
    intros h Hin. apply elem_of_nil in Hin. contradiction.
  - apply Forall_cons_1 in Hids as [Hid Hids].
    destruct (load_htlc is_dust htlc_has st h) as [st1|] eqn:Hone; [|discriminate].
    apply load_htlc_sides in Hone as (_ & _ & Hc).
    destruct (IH st1 st' Hids Hload) as (Hmono & Habove & Hlast).
    assert (Hstep : htlc_id_counter st <= htlc_id_counter st1
                    /\ (htlc_owner h = LOCAL -> htlc_id h < htlc_id_counter st1)
                    /\ (htlc_id_counter st1 = htlc_id_counter st
                        \/ htlc_owner h = LOCAL
                           /\ htlc_id_counter st1 = htlc_id h + 1)).
    { rewrite Hc. destruct (htlc_owner h).
      - destruct (Z.leb_spec (htlc_id_counter st) (htlc_id h)).
        + rewrite wrap64_small by lia.
          split; [lia|]. split; [intros _; lia|right; split; reflexivity].
        + split; [lia|]. split; [intros _; lia|left; reflexivity].
      - split; [lia|]. split; [discriminate|left; reflexivity]. }
    destruct Hstep as (Hm1 & Ha1 & Hl1).
    split; [lia|]. split.
    + intros h' Hin Hown. apply elem_of_cons in Hin as [->|Hin].
      * specialize (Ha1 Hown). lia.
      * apply Habove; assumption.
    + destruct Hlast as [Heq|(h' & Hin & Hown & Heq)].
      * destruct Hl1 as [Heq1|[Hown Heq1]].
        -- left. congruence.
        -- right. exists h. split; [left|split; [exact Hown|congruence]].
      * right. exists h'. split; [right; exact Hin|split; assumption].
Qed.

(** X21: when [load_peer_htlcs] returns and every row's id is below
    2^64 - 1, [htlc_id_counter] is above the id of every row we offered, and
    it is 0 or one more than the id of such a row. *)
Theorem loaded_counter_above_local_ids a lrate rrate f rows st :
  Forall (fun h => 0 <= htlc_id h < 2 ^ 64 - 1) rows ->
  load_peer_htlcs is_dust htlc_has a lrate rrate f rows = Done st ->
  (forall h, h ∈ rows -> htlc_owner h = LOCAL -> htlc_id h < loaded_htlc_id_counter st)
  /\ (loaded_htlc_id_counter st = 0
      \/ exists h, h ∈ rows /\ htlc_owner h = LOCAL
                   /\ loaded_htlc_id_counter st = htlc_id h + 1).
Proof.
  intros Hids Hload. unfold load_peer_htlcs in Hload.
  destruct (initial_cstate a lrate f) as [l0|]; [|discriminate].
  destruct (initial_cstate a rrate f) as [r0|]; [|discriminate].
  destruct (load_htlcs is_dust htlc_has _ rows) as [st0|] eqn:Hloop; [|discriminate].
  destruct (local_cstate st0) as [lcs|]; [|discriminate].
  destruct (remote_cstate st0) as [rcs|]; [|discriminate].
  injection Hload as <-. cbn [loaded_htlc_id_counter].
  destruct (load_htlcs_counter rows _ st0 Hids Hloop) as (_ & Habove & Hlast).
  split; [exact Habove|exact Hlast].
Qed.

End Replay.

(** ** The use count of a DNS lookup *)

Section DnsUseCount.
Import Dns.

Variable saddr_size : Z.
Variable socket_opens : netaddr -> bool.


Lemma try_connect_loop_spec addrs d :
  let d' := try_connect_loop saddr_size socket_opens addrs d in
  pipe d' = pipe d /\ init_calls d' = init_calls d
  /\ ((conn d' = Connecting /\ use d' = use d /\ fail_calls d' = fail_calls d)
      \/ (conn d' = NoConn /\ use d' = wrap64 (use d - 1)
          /\ fail_calls d' = if wrap64 (use d - 1) =? 0
                             then S (fail_calls d) else fail_calls d)).
Proof.
  cbv zeta. induction addrs as [|a rest IH]; cbn [try_connect_loop].
  - unfold drop_use. cbn. split; [reflexivity|]. split; [reflexivity|].
    right. repeat split.
  - destruct (saddr_size <? addrlen a); [exact IH|].
    destruct (socket_opens a); [|exact IH].
    cbn. split; [reflexivity|]. split; [reflexivity|]. left. repeat split.
Qed.

Lemma use_inv_start : use_inv dns_resolve_and_connect.
Proof. split; cbn; try reflexivity. Qed.

Lemma use_inv_step d d' :
  use_inv d -> step saddr_size socket_opens d d' -> use_inv d'.
Proof.
  intros [Hu Hf Hi Hr] Hstep.
  destruct Hstep as [d addrs d' Hp Hs|d Hp|d Hc|d Hc].
  - (* the addresses arrive *)
    unfold start_connecting in Hs. destruct addrs as [|a rest]; [discriminate|].
    injection Hs as <-. unfold try_connect_one. cbn [addresses].
    specialize (Hr Hp). rewrite Hp, Hr in Hu. cbn in Hu.
    rewrite Hu in Hf. cbn in Hf. rewrite Hr in Hi.
    match goal with
    | |- use_inv (try_connect_loop _ _ ?l ?x) =>
        destruct (try_connect_loop_spec l x) as (Hp' & Hi' & Hcase)
    end.
    cbn [use pipe conn init_calls fail_calls] in *. rewrite Hu in *.
    change (wrap64 (1 + 1)) with 2 in *. change (wrap64 (2 - 1)) with 1 in *.
    destruct Hcase as [(Hc' & Hu' & Hf')|(Hc' & Hu' & Hf')];
      (split; [rewrite Hu', Hp', Hc'; reflexivity
              |rewrite Hf', Hu', Hf; reflexivity
              |rewrite Hi', Hc', Hi; reflexivity
              |rewrite Hp'; discriminate]).
  - (* the pipe's connection closes *)
    unfold reap_child, drop_use.
    assert (Hpu : pipe_users (pipe d) = 1) by (destruct (pipe d); [reflexivity..|contradiction]).
    rewrite Hpu in Hu.
    assert (Hw : wrap64 (use d - 1) = conn_users (conn d)).
    { rewrite Hu. destruct (conn d); reflexivity. }
    split; cbn [use pipe conn init_calls fail_calls addresses pipe_users].
    + rewrite Hw. lia.
    + rewrite Hw, Hf, Hu. destruct (conn d); reflexivity.
    + exact Hi.
    + discriminate.
  - (* the attempt in flight fails *)
    unfold connect_failed, try_connect_one.
    destruct (try_connect_loop_spec (addresses d) d) as (Hp' & Hi' & Hcase).
    assert (Hnr : pipe d <> Reading) by (intros E; specialize (Hr E); congruence).
    rewrite Hc in Hu, Hi. cbn in Hu.
    assert (Hw : wrap64 (use d - 1) = pipe_users (pipe d)).
    { rewrite Hu. destruct (pipe d); reflexivity. }
    assert (Hf0 : fail_calls d = 0%nat).
    { rewrite Hf, Hu. destruct (pipe d); reflexivity. }
    destruct Hcase as [(Hc' & Hu' & Hf')|(Hc' & Hu' & Hf')].
    + split; [rewrite Hu', Hp', Hc', Hu; reflexivity
             |rewrite Hf', Hu', Hf; reflexivity
             |rewrite Hi', Hc', Hi; reflexivity
             |rewrite Hp'; intros E; contradiction].
    + split; [rewrite Hu', Hp', Hc', Hw; cbn; lia
             |rewrite Hf', Hu', Hw, Hf0; reflexivity
             |rewrite Hi', Hc', Hi; reflexivity
             |rewrite Hp'; intros E; contradiction].
  - (* the attempt in flight succeeds *)
    unfold connected. rewrite Hc in Hu, Hi.
    assert (Hnr : pipe d <> Reading) by (intros E; specialize (Hr E); congruence).
    split; cbn [use pipe conn init_calls fail_calls addresses].
    + exact Hu.
    + exact Hf.
    + rewrite Hi. reflexivity.
    + intros E. contradiction.
Qed.

Lemma run_use_inv d : run saddr_size socket_opens d -> use_inv d.
Proof.
  induction 1 as [|d d' _ IH Hstep]; [apply use_inv_start|].
  eapply use_inv_step; eassumption.
Qed.

(** X22: a lookup reports once at most: with [reap_child] run when the
    pipe's connection closes, and [connect_failed] or [connected] when the
    connection attempt in flight finishes, [fail] and [init] are called at
    most once between them; [fail] has been called exactly when the pipe is
    closed and no connection is open or in flight, which is when the use count
    has reached 0, and [init] exactly when a connection was established. *)
Theorem dns_reports_once d :
  run saddr_size socket_opens d ->
  (fail_calls d + init_calls d <= 1)%nat
  /\ (fail_calls d = 1%nat <-> pipe d = Reaped /\ conn d = NoConn)
  /\ (init_calls d = 1%nat <-> conn d = Connected)
  /\ (fail_calls d = 1%nat <-> use d = 0).
Proof.
  intros Hrun. destruct (run_use_inv d Hrun) as [Hu Hf Hi Hr].
  rewrite Hf, Hi, Hu.
  destruct (pipe d), (conn d); cbn [pipe_users conn_users];
    change (1 + 0) with 1; change (1 + 1) with 2; change (0 + 0) with 0;
    change (0 + 1) with 1; cbn;
    (split; [lia|]); (split; [|split]); (split; [intros H|intros H]);
    first [reflexivity | discriminate H | lia
          | destruct H; discriminate
          | split; reflexivity
          | specialize (Hr eq_refl); discriminate Hr ].
Qed.

End DnsUseCount.


(** ** Worked instances of the theorems *)

Lemma canonical_permutation_witness :
  (Permute.permute_inputs sample_inputs ≡ₚ sample_inputs
   /\ StronglySorted (ascending input_compare) (Permute.permute_inputs sample_inputs)
   /\ forall ins', sample_inputs ≡ₚ ins' ->
                   Permute.permute_inputs ins' = Permute.permute_inputs sample_inputs)
  /\ (Permute.permute_outputs sample_outputs ≡ₚ sample_outputs
      /\ StronglySorted (ascending output_compare) (Permute.permute_outputs sample_outputs)
      /\ forall outs', sample_outputs ≡ₚ outs' ->
                       Permute.permute_outputs outs' = Permute.permute_outputs sample_outputs).
Proof.
  apply (canonical_permutation sample_inputs sample_outputs).
  repeat constructor.
Defined.

Lemma wf_clean_shachain : wf_shachain clean_shachain.
Proof.
  split; cbn; [unfold u64; lia|unfold u32; lia|reflexivity|].
  repeat constructor; cbn; lia.
Defined.

Lemma shachain_round_trip_witness :
  exists blob,
    Shachain.linearize_shachain clean_shachain = Done blob
    /\ Shachain.delinearize_shachain blob = (clean_shachain, true).
Proof.
  destruct (shachain_round_trip clean_shachain wf_clean_shachain) as (blob & H1 & _ & _ & _ & H5).
  - cbn. lia.
  - exists blob. split; [exact H1|]. apply H5. cbn. repeat constructor.
Defined.

Lemma shachain_stale_slot_not_restored :
  wf_shachain stale_shachain
  /\ Shachain.num_valid stale_shachain <= 65
  /\ exists blob s',
       Shachain.linearize_shachain stale_shachain = Done blob
       /\ Shachain.delinearize_shachain blob = (s', true)
       /\ s' <> stale_shachain.
Proof.
  split; [|split].
  - split; cbn; [unfold u64; lia|unfold u32; lia|reflexivity|].
    repeat constructor; cbn; lia.
  - cbn. lia.
  - eexists. eexists. split; [vm_compute; reflexivity|].
    split; [vm_compute; reflexivity|]. discriminate.
Qed.



Lemma htlc_add_validation_witness :
  exists p' h,
    Packets.accept_pkt_htlc_add ref_proto_to_abs_locktime ref_abs_locktime_is_seconds
      ref_abs_locktime_to_blocks sample_peer sample_add = (None, p', Some h)
    /\ state h = RCVD_ADD_HTLC
    /\ Packets.htlcs p' = h :: Packets.htlcs sample_peer.
Proof.
  destruct (htlc_add_validation ref_proto_to_abs_locktime ref_abs_locktime_is_seconds
              ref_abs_locktime_to_blocks sample_peer sample_add) as (_ & _ & H).
  destruct (H 1000) as (_ & _ & _ & H4); [cbn; lia|reflexivity|].
  destruct H4 as (p' & h & Hacc & Hst & _ & _ & _ & _ & Hh & _);
    [reflexivity|cbn; lia|reflexivity|].
  exists p', h. repeat split; assumption.
Defined.

Lemma htlc_add_unconvertible_expiry_rejected :
  Packets.accept_pkt_htlc_add ref_proto_to_abs_locktime ref_abs_locktime_is_seconds
    ref_abs_locktime_to_blocks sample_peer unset_expiry_add
  = (Some (Packets.pkt_err "Invalid HTLC expiry"), sample_peer, None)
  /\ Packets.amount_msat unset_expiry_add <> 0
  /\ (forall s, Packets.u_expiry unset_expiry_add <> Packets.LOCKTIME_SECONDS s)
  /\ num_htlcs (side (Packets.staging_cstate (Packets.remote sample_peer)) THEIRS) < 300
  /\ Packets.htlc_get (Packets.htlcs sample_peer) (Packets.u_id unset_expiry_add) REMOTE
     = None.
Proof.
  split; [reflexivity|]. split; [cbn; lia|]. split; [intros s; discriminate|].
  split; [cbn; lia|reflexivity].
Qed.

Lemma transaction_flag_discipline_witness :
  Db.db_commit_transaction _ logging_exec idle_db = Aborted
  /\ Db.db_abort_transaction _ logging_exec idle_db = Aborted
  /\ Db.db_update_state _ logging_exec idle_db = Aborted.
Proof.
  destruct (transaction_flag_discipline _ logging_exec idle_db)
    as (_ & H2 & _ & _ & _ & H6 & _).
  destruct (H2 eq_refl) as [Hc Ha].
  split; [exact Hc|]. split; [exact Ha|].
  apply (H6 (Db.db_update_state _ logging_exec)); [|reflexivity].
  cbn. tauto.
Defined.

Lemma db_htlc_fulfilled_writes_outside_transaction :
  Db.db_htlc_fulfilled _ logging_exec idle_db
  = Done (true, {| Db.in_transaction := false; Db.sql := [Db.UPDATE_htlcs_r] |})
  /\ ~ (forall f,
          In f (Db.transactional_write_sites _ logging_exec) ->
          forall d, Db.in_transaction _ d = false -> f d = Aborted).
Proof.
  split; [reflexivity|]. intros H.
  specialize (H (Db.db_htlc_fulfilled _ logging_exec)).
  assert (Hin : In (Db.db_htlc_fulfilled _ logging_exec)
                   (Db.transactional_write_sites _ logging_exec)).
  { unfold Db.transactional_write_sites. apply in_or_app. right. left. reflexivity. }
  specialize (H Hin idle_db eq_refl). discriminate H.
Qed.

Lemma bytes_checked (l : list Z) :
  forallb (fun b => (0 <=? b) && (b <? 256)) l = true -> Forall is_byte l.
Proof.
  induction l as [|b l IH]; cbn [forallb]; intros H; constructor.
  - apply andb_prop in H as [H _]. apply andb_prop in H as [H1 H2].
    unfold is_byte. lia.
  - apply IH. apply andb_prop in H as [_ H]. exact H.
Qed.

Lemma delinearize_accepts_by_length_witness :
  (snd (Shachain.delinearize_shachain clean_blob) = true <-> length clean_blob = 2612%nat)
  /\ wf_shachain (fst (Shachain.delinearize_shachain clean_blob)).
Proof.
  apply (delinearize_accepts_by_length clean_blob).
  apply bytes_checked. vm_compute. reflexivity.
Defined.

Lemma wf_overfull_shachain : wf_shachain overfull_shachain.
Proof.
  split; cbn; [unfold u64; lia|unfold u32; lia|reflexivity|].
  repeat constructor; cbn; lia.
Qed.

Lemma linearize_aborts_iff_witness :
  Shachain.linearize_shachain overfull_shachain = Aborted.
Proof.
  apply (linearize_aborts_iff overfull_shachain wf_overfull_shachain).
  cbn. lia.
Defined.

Lemma resave_loaded_shachain_witness :
  Shachain.linearize_shachain (fst (Shachain.delinearize_shachain clean_blob))
  = Done (take (12 + 40 * Z.to_nat (Shachain.num_valid
                                      (fst (Shachain.delinearize_shachain clean_blob))))
               clean_blob
          ++ replicate (40 * (65 - Z.to_nat (Shachain.num_valid
                                      (fst (Shachain.delinearize_shachain clean_blob))))) 0).
Proof.
  apply (resave_loaded_shachain clean_blob).
  - apply bytes_checked. vm_compute. reflexivity.
  - vm_compute. reflexivity.
  - vm_compute. discriminate.
Defined.

Lemma wf_sample_inputs : Forall wf_input sample_inputs.
Proof. repeat constructor. Qed.

Lemma input_better_strict_order_witness :
  let a := {| Permute.txid := replicate 32 1; Permute.index := 0;
              Permute.input_script := []; Permute.sequence_number := 7 |} in
  let b := {| Permute.txid := replicate 32 1; Permute.index := 1;
              Permute.input_script := [81]; Permute.sequence_number := 0 |} in
  let c := {| Permute.txid := replicate 32 2; Permute.index := 0;
              Permute.input_script := []; Permute.sequence_number := 0 |} in
  Permute.input_better a a = false
  /\ (Permute.input_better a b = true -> Permute.input_better b a = false)
  /\ (Permute.input_better a b = true -> Permute.input_better b c = true ->
      Permute.input_better a c = true)
  /\ (a <> b -> Permute.input_better a b = true \/ Permute.input_better b a = true).
Proof.
  cbv zeta. apply input_better_strict_order; reflexivity.
Defined.

Lemma permute_fixes_sorted_witness :
  Permute.permute_inputs (Permute.permute_inputs sample_inputs)
  = Permute.permute_inputs sample_inputs
  /\ Permute.permute_outputs (Permute.permute_outputs sample_outputs)
     = Permute.permute_outputs sample_outputs.
Proof.
  destruct (permute_fixes_sorted sample_inputs sample_outputs wf_sample_inputs)
    as ((_ & Hi & _) & (_ & Ho & _)).
  split; [exact Hi|exact Ho].
Defined.

Lemma self_committing_writer_outcomes_witness :
  exists d',
    Db.db_create_peer _ logging_exec idle_db = Done (true, d')
    /\ Db.in_transaction _ idle_db = false /\ Db.in_transaction _ d' = false.
Proof.
  destruct (self_committing_writer_outcomes _ logging_exec (Db.db_create_peer _ logging_exec) idle_db)
    as (_ & Hflag & _).
  - left. reflexivity.
  - destruct (Db.db_create_peer _ logging_exec idle_db) as [[ok d']|] eqn:E;
      [|vm_compute in E; discriminate E].
    destruct ok; [|vm_compute in E; discriminate E].
    exists d'. split; [reflexivity|]. apply (Hflag true d' eq_refl).
Defined.


Lemma replay_conserves_anchor_witness :
  reachable dust_546 scenario2_cstate (rev [scenario_htlc])
  /\ anchor scenario2_cstate = 1000000
  /\ funds scenario2_cstate + htlcs_msat [scenario_htlc] = 1000000 * 1000
  /\ Restore.copy_cstate scenario2_cstate = scenario2_cstate.
Proof.
  destruct (replay_conserves_anchor dust_546 all_committed 1000000 50000 50000 OURS
              [scenario_htlc]
              {| Restore.local_commit_cstate := scenario2_cstate;
                 Restore.remote_commit_cstate := scenario2_cstate;
                 Restore.local_staging_cstate := Restore.copy_cstate scenario2_cstate;
                 Restore.remote_staging_cstate := Restore.copy_cstate scenario2_cstate;
                 Restore.loaded_htlc_id_counter := 1 |}) as (Hl & _).
  - unfold u64; lia.
  - unfold u64; lia.
  - unfold u64; lia.
  - repeat constructor; cbn; lia.
  - vm_compute. reflexivity.
  - exact Hl.
Defined.

Lemma loaded_counter_above_local_ids_witness :
  htlc_id scenario_htlc < 1.
Proof.
  destruct (loaded_counter_above_local_ids dust_546 all_committed 1000000 50000 50000 OURS
              [scenario_htlc]
              {| Restore.local_commit_cstate := scenario2_cstate;
                 Restore.remote_commit_cstate := scenario2_cstate;
                 Restore.local_staging_cstate := Restore.copy_cstate scenario2_cstate;
                 Restore.remote_staging_cstate := Restore.copy_cstate scenario2_cstate;
                 Restore.loaded_htlc_id_counter := 1 |}) as (Habove & _).
  - repeat constructor; cbn; lia.
  - vm_compute. reflexivity.
  - apply (Habove scenario_htlc); [apply list_elem_of_singleton|]; reflexivity.
Defined.

Lemma failed_lookup_run : Dns.run 128 (fun _ => true) failed_lookup.
Proof.
  apply (Dns.run_step _ _
           {| Dns.use := 1; Dns.addresses := []; Dns.pipe := Dns.Reaped;
              Dns.conn := Dns.Connecting; Dns.init_calls := 0; Dns.fail_calls := 0 |}).
  - apply (Dns.run_step _ _
             {| Dns.use := 2; Dns.addresses := []; Dns.pipe := Dns.Closing;
                Dns.conn := Dns.Connecting; Dns.init_calls := 0; Dns.fail_calls := 0 |}).
    + apply (Dns.run_step _ _ (Dns.dns_resolve_and_connect)); [apply Dns.run_start|].
      apply (Dns.step_resolved _ _ _ [sample_netaddr]); reflexivity.
    + apply (Dns.step_reaped 128 (fun _ => true)
               {| Dns.use := 2; Dns.addresses := []; Dns.pipe := Dns.Closing;
                  Dns.conn := Dns.Connecting; Dns.init_calls := 0; Dns.fail_calls := 0 |}).
      discriminate.
  - apply (Dns.step_connect_failed 128 (fun _ => true)
             {| Dns.use := 1; Dns.addresses := []; Dns.pipe := Dns.Reaped;
                Dns.conn := Dns.Connecting; Dns.init_calls := 0; Dns.fail_calls := 0 |}).
    reflexivity.
Qed.

Lemma dns_reports_once_witness :
  (Dns.fail_calls failed_lookup + Dns.init_calls failed_lookup <= 1)%nat
  /\ (Dns.fail_calls failed_lookup = 1%nat
      <-> Dns.pipe failed_lookup = Dns.Reaped /\ Dns.conn failed_lookup = Dns.NoConn)
  /\ (Dns.init_calls failed_lookup = 1%nat <-> Dns.conn failed_lookup = Dns.Connected)
  /\ (Dns.fail_calls failed_lookup = 1%nat <-> Dns.use failed_lookup = 0).
Proof.
  apply (dns_reports_once 128 (fun _ => true) failed_lookup failed_lookup_run).
Defined.
